(** * isshub_sync.connection: a fluent path builder over an HTTP client

    Shallow embedding of [isshub_sync/connection/connection.py] together
    with the parts of the Python runtime it relies on ([str] methods,
    [urllib.parse], [json.dumps], attribute lookup), followed by the
    properties of the request pipeline.

    Python strings are lists of 8-bit characters, each standing for the
    code point of its number.  The development covers ASCII text: the
    case conversions leave the characters above 127 alone. *)

From stdpp Require Import gmap strings list.
From Stdlib Require Import ZArith Ascii DecimalString.

Set Warnings "-via-type-remapping,-via-type-mismatch,-register-all,-clear-no-such-hyp".

Local Open Scope Z_scope.

(** ** Python [str] *)

Definition str : Type := list ascii.

Inductive str_literal : Set :=
| lit_nil
| lit_cons (c : ascii) (r : str_literal).

Fixpoint str_parse (b : list Byte.byte) : str_literal :=
  match b with
  | [] => lit_nil
  | x :: r => lit_cons (ascii_of_byte x) (str_parse r)
  end.

Fixpoint str_print (s : str_literal) : list Byte.byte :=
  match s with
  | lit_nil => []
  | lit_cons c r => byte_of_ascii c :: str_print r
  end.

Declare Scope str_scope.
Delimit Scope str_scope with str.
String Notation str str_parse str_print
  (via str_literal mapping [[nil] => lit_nil, [cons] => lit_cons]) : str_scope.
Bind Scope str_scope with str.
Local Open Scope str_scope.

(** Exceptions raised by the embedded code, and the result of a call that
    may raise. *)
Inductive Exc : Set :=
| AssertionError
| ValueError
| TypeError
| AttributeError.

Inductive Result (A : Type) : Type :=
| Return (a : A)
| Raise (e : Exc).
Arguments Return {A} a.
Arguments Raise {A} e.

#[global] Instance Result_ret : MRet Result := λ A a, Return a.

#[global] Instance Result_bind : MBind Result := λ A B k r,
  match r with
  | Return a => k a
  | Raise e => Raise e
  end.

Module PyStr.

(** [bool(s)]: a string is true when it is not empty. *)
Definition truthy (s : str) : bool :=
  match s with [] => false | _ :: _ => true end.

(** [a or b] on strings. *)
Definition or_else (a b : str) : str := if truthy a then a else b.

(** [c in s] for a one-character [c]. *)
Definition contains (c : ascii) (s : str) : bool := bool_decide (c ∈ s).

Fixpoint startswith (prefix s : str) : bool :=
  match prefix, s with
  | [], _ => true
  | _ :: _, [] => false
  | a :: p, b :: r => bool_decide (a = b) && startswith p r
  end.

Definition endswith (suffix s : str) : bool :=
  startswith (reverse suffix) (reverse s).

(** A slice bound [i] of a sequence of length [len], as Python clamps it:
    negative bounds count from the end. *)
Definition bound (len i : Z) : Z :=
  if i <? 0 then Z.max 0 (len + i) else Z.min i len.

(** [s[start:stop]], [s[:stop]] and [s[start:]]. *)
Definition slice (start stop : Z) (s : str) : str :=
  let len := Z.of_nat (length s) in
  let a := bound len start in
  let b := bound len stop in
  take (Z.to_nat (b - a)) (drop (Z.to_nat a) s).

Definition slice_to (stop : Z) (s : str) : str := slice 0 stop s.

Definition slice_from (start : Z) (s : str) : str :=
  drop (Z.to_nat (bound (Z.of_nat (length s)) start)) s.

Fixpoint index_of (c : ascii) (s : str) : option nat :=
  match s with
  | [] => None
  | x :: r => if decide (x = c) then Some 0%nat else S <$> index_of c r
  end.

(** [s.find(c, start)], [s.find(c)] and [s.rfind(c)]; -1 when absent. *)
Definition find_from (c : ascii) (start : Z) (s : str) : Z :=
  let a := Z.to_nat (bound (Z.of_nat (length s)) start) in
  match index_of c (drop a s) with
  | Some k => Z.of_nat (a + k)
  | None => -1
  end.

Definition find (c : ascii) (s : str) : Z := find_from c 0 s.

Definition rfind (c : ascii) (s : str) : Z :=
  match index_of c (reverse s) with
  | Some k => Z.of_nat (length s) - 1 - Z.of_nat k
  | None => -1
  end.

(** [s.split(sep)] for a one-character separator. *)
Fixpoint split (sep : ascii) (s : str) : list str :=
  match s with
  | [] => [[]]
  | x :: r =>
      if decide (x = sep) then [] :: split sep r
      else match split sep r with
           | h :: t => (x :: h) :: t
           | [] => [[x]]
           end
  end.

(** [s.split(sep, 1)]. *)
Definition split1 (sep : ascii) (s : str) : list str :=
  match index_of sep s with
  | Some k => [take k s; drop (S k) s]
  | None => [s]
  end.

(** [sep.join(l)]. *)
Fixpoint join (sep : str) (l : list str) : str :=
  match l with
  | [] => []
  | [x] => x
  | x :: r => x ++ sep ++ join sep r
  end.

Definition lower_char (c : ascii) : ascii :=
  let n := N_of_ascii c in
  if ((65 <=? n) && (n <=? 90))%N then ascii_of_N (n + 32) else c.

Definition upper_char (c : ascii) : ascii :=
  let n := N_of_ascii c in
  if ((97 <=? n) && (n <=? 122))%N then ascii_of_N (n - 32) else c.

Definition lower (s : str) : str := map lower_char s.
Definition upper (s : str) : str := map upper_char s.

(** [s.capitalize()]. *)
Definition capitalize (s : str) : str :=
  match s with
  | [] => []
  | c :: r => upper_char c :: lower r
  end.

(** [str(n)] for an [int]. *)
Definition of_int (n : Z) : str :=
  String.list_ascii_of_string (NilZero.string_of_int (Z.to_int n)).

End PyStr.

(** ** [urllib.parse]

    [urlparse] and [urlunparse] as shipped with CPython 3.6 (3.6.0 to
    3.6.13), the interpreter the package was written for, with their
    defaults ([scheme=''], [allow_fragments=True]); the result cache of
    [urlsplit] does not change what it returns and is left out.  Later
    versions differ on inputs that are no URL of a root: they strip
    leading blanks and control characters and take out tabs and line
    ends, check what stands between brackets in a host and no longer
    read [scheme:digits] as a host with a port. *)
Module urllib.
Import PyStr.

Record SplitResult : Type := mkSplit {
  s_scheme : str; s_netloc : str; s_path : str; s_query : str; s_fragment : str
}.

Record ParseResult : Type := mkParse {
  scheme : str; netloc : str; path : str; params : str; query : str; fragment : str
}.

Definition uses_netloc : list str :=
  [ []; "ftp"; "http"; "gopher"; "nntp"; "telnet"; "imap"; "wais"; "file";
    "mms"; "https"; "shttp"; "snews"; "prospero"; "rtsp"; "rtspu"; "rsync";
    "svn"; "svn+ssh"; "sftp"; "nfs"; "git"; "git+ssh"; "ws"; "wss" ].

Definition uses_params : list str :=
  [ []; "ftp"; "hdl"; "prospero"; "http"; "imap"; "https"; "shttp"; "rtsp";
    "rtspu"; "sip"; "sips"; "mms"; "sftp"; "tel" ].

Definition scheme_chars : str :=
  "abcdefghijklmnopqrstuvwxyzABCDEFGHIJKLMNOPQRSTUVWXYZ0123456789+-.".

Definition _splitparams (url : str) : str * str :=
  if contains "/" url then
    let i := find_from ";" (rfind "/" url) url in
    if i <? 0 then (url, [])
    else (slice_to i url, slice_from (i + 1) url)
  else
    let i := find ";" url in
    (slice_to i url, slice_from (i + 1) url).

Definition _splitnetloc (url : str) (start : Z) : str * str :=
  let delim :=
    fold_left
      (λ delim c,
         let wdelim := find_from c start url in
         if 0 <=? wdelim then Z.min delim wdelim else delim)
      ("/?#" : str) (Z.of_nat (length url)) in
  (slice start delim url, slice_from delim url).

(** [a, b = l]: unpacking a list into two names. *)
Definition unpack2 (l : list str) : Result (str * str) :=
  match l with
  | [a; b] => Return (a, b)
  | _ => Raise ValueError
  end.

(** The part of [urlsplit] after the scheme is known: network location,
    fragment and query.  The source spells it out twice, once in the
    fast path for [http] and once at the end. *)
Definition split_after_scheme (scheme url : str) : Result SplitResult :=
  '(netloc, url) ←
    (if decide (slice_to 2 url = "//") then
       let '(netloc, url) := _splitnetloc url 2 in
       if (contains "[" netloc && negb (contains "]" netloc))
          || (contains "]" netloc && negb (contains "[" netloc))
       then Raise ValueError
       else Return (netloc, url)
     else Return ([], url));
  '(url, fragment) ←
    (if contains "#" url then unpack2 (split1 "#" url) else Return (url, []));
  '(url, query) ←
    (if contains "?" url then unpack2 (split1 "?" url) else Return (url, []));
  Return (mkSplit scheme netloc url query fragment).

Definition urlsplit (url : str) : Result SplitResult :=
  let i := find ":" url in
  if 0 <? i then
    if decide (slice_to i url = "http") then
      split_after_scheme (lower (slice_to i url)) (slice_from (i + 1) url)
    else if forallb (λ c, contains c scheme_chars) (slice_to i url) then
      let rest := slice_from (i + 1) url in
      if negb (truthy rest) || existsb (λ c, negb (contains c "0123456789")) rest
      then split_after_scheme (lower (slice_to i url)) rest
      else split_after_scheme [] url
    else split_after_scheme [] url
  else split_after_scheme [] url.

Definition urlparse (url : str) : Result ParseResult :=
  r ← urlsplit url;
  let '(url, params) :=
    if bool_decide (s_scheme r ∈ uses_params) && contains ";" (s_path r)
    then _splitparams (s_path r)
    else (s_path r, []) in
  Return (mkParse (s_scheme r) (s_netloc r) url params (s_query r) (s_fragment r)).

Definition urlunsplit (scheme netloc url query fragment : str) : str :=
  let url :=
    if truthy netloc
       || (truthy scheme && bool_decide (scheme ∈ uses_netloc)
           && negb (bool_decide (slice_to 2 url = "//")))
    then
      let url :=
        if truthy url && negb (bool_decide (slice_to 1 url = "/"))
        then "/" ++ url else url in
      "//" ++ or_else netloc [] ++ url
    else url in
  let url := if truthy scheme then scheme ++ ":" ++ url else url in
  let url := if truthy query then url ++ "?" ++ query else url in
  let url := if truthy fragment then url ++ "#" ++ fragment else url in
  url.

Definition urlunparse (scheme netloc url params query fragment : str) : str :=
  let url := if truthy params then url ++ ";" ++ params else url in
  urlunsplit scheme netloc url query fragment.

End urllib.

(** ** Python values

    The values that travel through [*args] and [**kwargs]: [None], the
    [NotProvided] class used as a sentinel ([isshub_sync/utils.py]),
    booleans, integers, strings, members of [DataModes], lists and
    dictionaries with string keys (in insertion order). *)

(** [constants.DataModes], an [IntEnum] numbered by [auto()]. *)
Inductive DataModes : Set := JSON | FORM.

Definition DataModes_value (m : DataModes) : Z :=
  match m with JSON => 1 | FORM => 2 end.

Definition DataModes_name (m : DataModes) : str :=
  match m with JSON => "JSON" | FORM => "FORM" end.

Inductive PyVal : Type :=
| VNone
| VNotProvided
| VBool (b : bool)
| VInt (n : Z)
| VStr (s : str)
| VMode (m : DataModes)
| VList (l : list PyVal)
| VDict (d : list (str * PyVal)).

(** [bool(v)]. *)
Definition py_truthy (v : PyVal) : bool :=
  match v with
  | VNone => false
  | VNotProvided => true
  | VBool b => b
  | VInt n => negb (n =? 0)
  | VStr s => PyStr.truthy s
  | VMode m => negb (DataModes_value m =? 0)
  | VList l => match l with [] => false | _ => true end
  | VDict d => match d with [] => false | _ => true end
  end.

(** [v is NotProvided]. *)
Definition is_NotProvided (v : PyVal) : bool :=
  match v with VNotProvided => true | _ => false end.

(** [v is DataModes.JSON]. *)
Definition is_JSON (v : PyVal) : bool :=
  match v with VMode JSON => true | _ => false end.

Module PyRepr.
Import PyStr.

Definition dquote : ascii := "034"%char.
Definition squote : ascii := "039"%char.
Definition backslash : ascii := "092"%char.

Definition hex_digit (n : N) : ascii :=
  nth (N.to_nat n) ("0123456789abcdef" : str) "0"%char.

Definition hex2 (c : ascii) : str :=
  let n := N_of_ascii c in [hex_digit (n / 16); hex_digit (n mod 16)]%N.

(** [repr] of one character of a string quoted with [quote]. *)
Definition repr_char (quote c : ascii) : str :=
  let n := N_of_ascii c in
  if bool_decide (c = quote) || bool_decide (c = backslash) then [backslash; c]
  else if bool_decide (c = "009"%char) then "\t"
  else if bool_decide (c = "010"%char) then "\n"
  else if bool_decide (c = "013"%char) then "\r"
  else if ((n <? 32) || (n =? 127))%N then "\x" ++ hex2 c
  else if (n <? 127)%N then [c]
  else if ((161 <=? n) && negb (n =? 173))%N then [c]
  else "\x" ++ hex2 c.

Definition repr_str (s : str) : str :=
  let quote :=
    if contains squote s && negb (contains dquote s) then dquote else squote in
  [quote] ++ concat (map (repr_char quote) s) ++ [quote].

Fixpoint repr (v : PyVal) : str :=
  match v with
  | VNone => "None"
  | VNotProvided => "<class 'isshub_sync.utils.NotProvided'>"
  | VBool b => if b then "True" else "False"
  | VInt n => of_int n
  | VStr s => repr_str s
  | VMode m =>
      "<DataModes." ++ DataModes_name m ++ ": " ++ of_int (DataModes_value m) ++ ">"
  | VList l => "[" ++ join ", " (map repr l) ++ "]"
  | VDict d =>
      "{" ++ join ", " (map (λ kv, repr_str kv.1 ++ ": " ++ repr kv.2) d) ++ "}"
  end.

(** [str(v)]. *)
Definition to_str (v : PyVal) : str :=
  match v with
  | VStr s => s
  | VMode m => "DataModes." ++ DataModes_name m
  | _ => repr v
  end.

End PyRepr.

(** ** [json.dumps] with its default settings *)
Module json.
Import PyStr.

(** One character of a string, as [ensure_ascii] writes it. *)
Definition escape_char (c : ascii) : str :=
  let n := N_of_ascii c in
  if bool_decide (c = PyRepr.dquote) then [PyRepr.backslash; PyRepr.dquote]
  else if bool_decide (c = PyRepr.backslash) then [PyRepr.backslash; PyRepr.backslash]
  else if bool_decide (c = "008"%char) then "\b"
  else if bool_decide (c = "012"%char) then "\f"
  else if bool_decide (c = "010"%char) then "\n"
  else if bool_decide (c = "013"%char) then "\r"
  else if bool_decide (c = "009"%char) then "\t"
  else if ((32 <=? n) && (n <=? 126))%N then [c]
  else "\u00" ++ PyRepr.hex2 c.

Definition encode_str (s : str) : str :=
  [PyRepr.dquote] ++ concat (map escape_char s) ++ [PyRepr.dquote].

Fixpoint dumps (v : PyVal) : Result str :=
  match v with
  | VNone => Return "null"
  | VNotProvided => Raise TypeError
  | VBool b => Return (if b then "true" else "false")
  | VInt n => Return (of_int n)
  | VStr s => Return (encode_str s)
  | VMode m => Return (of_int (DataModes_value m))
  | VList l =>
      items ← (fix each (l : list PyVal) : Result (list str) :=
                 match l with
                 | [] => Return []
                 | x :: r => s ← dumps x; t ← each r; Return (s :: t)
                 end) l;
      Return ("[" ++ join ", " items ++ "]")
  | VDict d =>
      items ← (fix each (d : list (str * PyVal)) : Result (list str) :=
                 match d with
                 | [] => Return []
                 | kv :: r =>
                     s ← dumps kv.2; t ← each r;
                     Return ((encode_str kv.1 ++ ": " ++ s) :: t)
                 end) d;
      Return ("{" ++ join ", " items ++ "}")
  end.

End json.

(** ** [aiohttp.hdrs] and [constants.HTTP_METHODS] *)

(** Modelled from the spec: [aiohttp.hdrs] is not among the sources.  Its
    method names and [METH_ALL] are written out so that [HTTP_METHODS]
    below is the set the documentation gives: all standard methods except
    CONNECT and TRACE. *)
Module hdrs.
Definition METH_CONNECT : str := "CONNECT".
Definition METH_HEAD : str := "HEAD".
Definition METH_GET : str := "GET".
Definition METH_DELETE : str := "DELETE".
Definition METH_OPTIONS : str := "OPTIONS".
Definition METH_PATCH : str := "PATCH".
Definition METH_POST : str := "POST".
Definition METH_PUT : str := "PUT".
Definition METH_TRACE : str := "TRACE".

Definition METH_ALL : gset str :=
  {[ METH_CONNECT; METH_HEAD; METH_GET; METH_DELETE; METH_OPTIONS;
     METH_PATCH; METH_POST; METH_PUT; METH_TRACE ]}.
End hdrs.

Definition HTTP_METHODS : gset str :=
  hdrs.METH_ALL ∖ {[ hdrs.METH_CONNECT; hdrs.METH_TRACE ]}.

Definition Connection__validate_root (root : str) : Result str :=
  parsed ← urllib.urlparse root;
  if negb (bool_decide (urllib.scheme parsed ∈ ({[ "http"; "https" ]} : gset str)))
  then Raise AssertionError
  else
    let path := PyStr.or_else (urllib.path parsed) [] in
    let path := if PyStr.endswith "/" path then PyStr.slice_to (-1) path else path in
    Return (urllib.urlunparse (urllib.scheme parsed) (urllib.netloc parsed) path [] [] []).

(** ** Objects and the heap

    Objects are heap cells: a [Callable] or an [Executable] holds a
    reference to its connection, calling an accumulator may hand back the
    very object it was called on, and a connection stores its client on
    first use. *)

Definition loc : Set := positive.

(** What a subclass of [Connection] may override. *)
Record ConnectionClass : Type := mkConnectionClass {
  PATH_SUFFIX : str;
  DEFAULT_CLIENT_CLASS : str
}.

(** [class Connection]: [PATH_SUFFIX = '/'], [DEFAULT_CLIENT_CLASS = ClientSession]. *)
Definition Connection_class : ConnectionClass :=
  mkConnectionClass "/" "ClientSession".

Record Connection : Type := mkConnection {
  Connection_cls : ConnectionClass;
  Connection_client : option loc;
  Connection_root : str
}.

Record Executable : Type := mkExecutable {
  Executable_connection : loc;
  Executable_method : str;
  Executable_path : option str
}.

Record Callable : Type := mkCallable {
  Callable_connection : loc;
  Callable_parts : list str
}.

Inductive Obj : Type :=
| OClient (class_name : str)
| OConnection (c : Connection)
| OExecutable (e : Executable)
| OCallable (c : Callable).

Abbreviation heap := (gmap loc Obj).

(** Computations on the heap that may raise; the heap survives an
    exception. *)
Definition Py (A : Type) : Type := heap → heap * Result A.

#[global] Instance Py_ret : MRet Py := λ A a h, (h, Return a).

#[global] Instance Py_bind : MBind Py := λ A B k m h,
  match m h with
  | (h', Return a) => k a h'
  | (h', Raise e) => (h', Raise e)
  end.

Definition raise {A : Type} (e : Exc) : Py A := λ h, (h, Raise e).

Definition lift {A : Type} (r : Result A) : Py A := λ h, (h, r).

(** A new object, at an address nothing else has. *)
Definition new (o : Obj) : Py loc :=
  λ h, let l := fresh (dom h) in (<[l := o]> h, Return l).

Definition store (l : loc) (o : Obj) : Py () :=
  λ h, (<[l := o]> h, Return ()).

Definition load_connection (l : loc) : Py Connection :=
  λ h, match h !! l with
       | Some (OConnection c) => (h, Return c)
       | _ => (h, Raise AttributeError)
       end.

Definition load_executable (l : loc) : Py Executable :=
  λ h, match h !! l with
       | Some (OExecutable e) => (h, Return e)
       | _ => (h, Raise AttributeError)
       end.

Definition load_callable (l : loc) : Py Callable :=
  λ h, match h !! l with
       | Some (OCallable c) => (h, Return c)
       | _ => (h, Raise AttributeError)
       end.

(** ** [class Connection]: construction and [request] *)

(** [Connection(root, client)] for the class [cls].  The object becomes
    reachable only when [__init__] returns, so it is allocated once the
    root is validated. *)
Definition new_Connection (cls : ConnectionClass) (root : str) (client : option loc)
  : Py loc :=
  root ← lift (Connection__validate_root root);
  new (OConnection (mkConnection cls client root)).

(** The call made on the client, [getattr(client, method)(url, **kwargs)].
    The client is an external collaborator: [request] returns whatever it
    answers, so the call stands for the response. *)
Record ClientCall : Type := mkClientCall {
  call_client : loc;
  call_method : str;
  call_url : str;
  call_kwargs : gmap str PyVal
}.

(** [method] is a string.  The other arguments are whatever the caller
    gives, an executable forwarding what it received: a path that is not
    a string has no [startswith]. *)
Definition Connection_request (self : loc) (method : str)
    (path data data_mode headers path_suffix : PyVal) : Py ClientCall :=
  let method := PyStr.lower method in
  c ← load_connection self;
  client ←
    match Connection_client c with
    | Some client => mret client
    | None =>
        client ← new (OClient (DEFAULT_CLIENT_CLASS (Connection_cls c)));
        _ ← store self
              (OConnection (mkConnection (Connection_cls c) (Some client) (Connection_root c)));
        mret client
    end;
  path ← match path with
         | VStr path => mret path
         | _ => raise AttributeError
         end;
  let path := if negb (PyStr.startswith "/" path) then "/" ++ path else path in
  let _path_suffix :=
    if is_NotProvided path_suffix then PATH_SUFFIX (Connection_cls c)
    else PyRepr.to_str path_suffix in
  let path :=
    if PyStr.truthy _path_suffix && negb (PyStr.endswith _path_suffix path)
    then path ++ _path_suffix else path in
  let url := Connection_root c ++ path in
  let kwargs : gmap str PyVal := ∅ in
  kwargs ←
    (if negb (is_NotProvided data) then
       if is_JSON data_mode then
         body ← lift (json.dumps data);
         mret (<["data" := VStr body]> kwargs)
       else mret (<["data" := data]> kwargs)
     else mret kwargs);
  let kwargs :=
    if negb (is_NotProvided headers) then <["headers" := headers]> kwargs
    else kwargs in
  mret (mkClientCall client method url kwargs).

(** [connection.request(method, path, *args, **kwargs)]: Python binds the
    positional arguments to [data], [data_mode], [headers], [path_suffix]
    in this order, then the keywords, and refuses (before the body runs) a
    positional argument too many, an unknown keyword and a parameter
    given twice. *)
Definition request_optional : list str :=
  [ "data"; "data_mode"; "headers"; "path_suffix" ].

Definition argument (position : nat) (name : str) (otherwise : PyVal)
    (args : list PyVal) (kwargs : gmap str PyVal) : PyVal :=
  match args !! position with
  | Some v => v
  | None => default otherwise (kwargs !! name)
  end.

Definition Connection_request_apply (self : loc) (method : str) (path : PyVal)
    (args : list PyVal) (kwargs : gmap str PyVal) : Py ClientCall :=
  if bool_decide (length args ≤ length request_optional)%nat
     && bool_decide (dom kwargs ⊆ list_to_set (drop (length args) request_optional))
  then
    Connection_request self method path
      (argument 0 "data" VNotProvided args kwargs)
      (argument 1 "data_mode" (VMode FORM) args kwargs)
      (argument 2 "headers" VNotProvided args kwargs)
      (argument 3 "path_suffix" VNotProvided args kwargs)
  else raise TypeError.

(** ** [class Executable] *)

Definition new_Executable (connection : loc) (method : str) (path : option str)
  : Py loc :=
  new (OExecutable (mkExecutable connection method path)).

Definition Executable___call__ (self : loc) (args : list PyVal)
    (kwargs : gmap str PyVal) : Py ClientCall :=
  e ← load_executable self;
  let path : PyVal := from_option VStr VNone (Executable_path e) in
  let '(path, args, kwargs) :=
    if negb (py_truthy path) then
      match kwargs !! ("path" : str) with
      | Some p => (p, args, delete ("path" : str) kwargs)
      | None =>
          match args with
          | p :: rest => (p, rest, kwargs)
          | [] => (path, args, kwargs)
          end
      end
    else (path, args, kwargs) in
  let path := if negb (py_truthy path) then VStr "/" else path in
  Connection_request_apply (Executable_connection e) (Executable_method e) path args kwargs.

(** ** [class Callable] *)

(** [python_types.CallableArg = Union[str, int]]. *)
Inductive CallableArg : Type :=
| ArgStr (s : str)
| ArgInt (n : Z).

(** [str(part)]. *)
Definition CallableArg_str (part : CallableArg) : str :=
  match part with
  | ArgStr s => s
  | ArgInt n => PyStr.of_int n
  end.

(** The fields [__init__] sets. *)
Definition Callable___init__ (connection : loc) (parts : list CallableArg) : Callable :=
  mkCallable connection
    (concat (map (λ part, PyStr.split "/" (CallableArg_str part)) parts)).

Definition new_Callable (connection : loc) (parts : list CallableArg) : Py loc :=
  new (OCallable (Callable___init__ connection parts)).

Definition Callable_path (self : Callable) : str :=
  "/" ++ PyStr.join "/" (Callable_parts self).

Definition Callable___call__ (self : loc) (args : list CallableArg) : Py loc :=
  match args with
  | _ :: _ =>
      c ← load_callable self;
      new_Callable (Callable_connection c) (map ArgStr (Callable_parts c) ++ args)
  | [] => mret self
  end.

Definition Callable___getattr__ (self : loc) (attr : str) : Py loc :=
  c ← load_callable self;
  if bool_decide (PyStr.upper attr ∈ HTTP_METHODS) then
    new_Executable (Callable_connection c) (PyStr.upper attr) (Some (Callable_path c))
  else
    new_Callable (Callable_connection c) (map ArgStr (Callable_parts c) ++ [ArgStr attr]).

(** ** [class Connection]: dispatch *)

Definition Connection___getattr__ (self : loc) (attr : str) : Py loc :=
  if bool_decide (PyStr.upper attr ∈ HTTP_METHODS) then
    new_Executable self (PyStr.upper attr) None
  else new_Callable self [ArgStr attr].

Definition Connection___call__ (self : loc) (args : list CallableArg) : Py loc :=
  new_Callable self args.

(** ** Attribute access

    [obj.name] first looks [name] up on the instance (its slots) and on
    its class, and calls [__getattr__] only when that finds nothing. *)

Inductive Attribute : Type :=
| AValue (v : PyVal)
| AObject (l : loc)
| AMember (name : str).

(** What every object gets from [object]. *)
Definition object_members : list str :=
  [ "__class__"; "__delattr__"; "__dir__"; "__doc__"; "__eq__"; "__format__";
    "__ge__"; "__getattribute__"; "__gt__"; "__hash__"; "__init__";
    "__init_subclass__"; "__le__"; "__lt__"; "__ne__"; "__new__"; "__reduce__";
    "__reduce_ex__"; "__repr__"; "__setattr__"; "__sizeof__"; "__str__";
    "__subclasshook__" ].

(** The slots of a [Connection] and the names its class body binds. *)
Definition Connection_members : list str :=
  [ "client"; "root"; "__module__"; "__doc__"; "__slots__"; "__annotations__";
    "PATH_SUFFIX"; "DEFAULT_CLIENT_CLASS"; "__init__"; "_validate_root";
    "__getattr__"; "__call__"; "request" ].

Definition Callable_members : list str :=
  [ "connection"; "parts"; "__module__"; "__doc__"; "__slots__"; "__init__";
    "__call__"; "__getattr__"; "path"; "__str__"; "__repr__" ].

Definition Connection_getattr (self : loc) (name : str) : Py Attribute :=
  c ← load_connection self;
  if decide (name = "client") then
    mret (from_option AObject (AValue VNone) (Connection_client c))
  else if decide (name = "root") then mret (AValue (VStr (Connection_root c)))
  else if decide (name = "PATH_SUFFIX") then
    mret (AValue (VStr (PATH_SUFFIX (Connection_cls c))))
  else if bool_decide (name ∈ Connection_members ++ object_members) then
    mret (AMember name)
  else l ← Connection___getattr__ self name; mret (AObject l).

Definition Callable_getattr (self : loc) (name : str) : Py Attribute :=
  c ← load_callable self;
  if decide (name = "connection") then mret (AObject (Callable_connection c))
  else if decide (name = "parts") then
    mret (AValue (VList (VStr <$> Callable_parts c)))
  else if decide (name = "path") then mret (AValue (VStr (Callable_path c)))
  else if bool_decide (name ∈ Callable_members ++ object_members) then
    mret (AMember name)
  else l ← Callable___getattr__ self name; mret (AObject l).

(** ** The statements under verification

    The remaining definitions put the documented behaviour in words of
    their own, to be compared with the code above. *)

(** *** Roots *)

(** A root written out as [scheme://host] followed by a path and by what
    comes after the path. *)
Record RootParts : Type := mkRoot {
  root_scheme : str;
  root_host : str;
  root_path : str;
  root_rest : str
}.

Definition root_text (r : RootParts) : str :=
  root_scheme r ++ "://" ++ root_host r ++ root_path r ++ root_rest r.

(** The scheme is [http] or [https] in any case; the host is not empty,
    holds none of [/ ? #] and brackets only in pairs; the path is empty or
    starts with [/] and holds neither [?] nor [#]; the rest is empty or a
    query or fragment, introduced by [?] or [#]. *)
Definition valid_root (r : RootParts) : bool :=
  bool_decide (PyStr.lower (root_scheme r) ∈ ([ "http"; "https" ] : list str))
  && PyStr.truthy (root_host r)
  && forallb (λ c, negb (PyStr.contains c "/?#")) (root_host r)
  && bool_decide (PyStr.contains "[" (root_host r) = PyStr.contains "]" (root_host r))
  && (negb (PyStr.truthy (root_path r)) || PyStr.startswith "/" (root_path r))
  && forallb (λ c, negb (PyStr.contains c "?#")) (root_path r)
  && match root_rest r with
     | [] => true
     | c :: _ => PyStr.contains c "?#"
     end.

(** The characters that end the network location of a URL. *)
Definition delimiter (c : ascii) : Prop := c ∈ ("/?#" : str).

(** The lowercase letters. *)
Definition letters : str := "abcdefghijklmnopqrstuvwxyz".

(** The last segment of a path, [p[p.rfind('/') + 1:]]. *)
Definition last_segment (p : str) : str :=
  PyStr.slice_from (PyStr.rfind "/" p + 1) p.

(** A path without the parameters of its last segment: what stands before
    the first [;] of that segment. *)
Definition without_params (p : str) : str :=
  let seg := last_segment p in
  take (length p - length seg) p
  ++ match PyStr.index_of ";" seg with
     | Some k => take k seg
     | None => seg
     end.

(** A path without its trailing slash, if it has one. *)
Definition without_trailing_slash (p : str) : str :=
  match reverse p with
  | c :: r => if decide (c = "/"%char) then reverse r else p
  | [] => p
  end.

Definition validated_path (p : str) : str :=
  without_trailing_slash (without_params p).

Definition validated_root (r : RootParts) : str :=
  PyStr.lower (root_scheme r) ++ "://" ++ root_host r ++ validated_path (root_path r).

(** The validated root, written out again. *)
Definition validated_parts (r : RootParts) : RootParts :=
  mkRoot (PyStr.lower (root_scheme r)) (root_host r) (validated_path (root_path r)) [].

(** *** Requests *)

(** The client of a connection after a request: the one it has, or a new
    instance of the default class, which the connection then keeps. *)
Definition ensure_client (self : loc) (c : Connection) (h : heap) : heap * loc :=
  match Connection_client c with
  | Some client => (h, client)
  | None =>
      let client := fresh (dom h) in
      (<[self := OConnection
                   (mkConnection (Connection_cls c) (Some client) (Connection_root c))]>
         (<[client := OClient (DEFAULT_CLIENT_CLASS (Connection_cls c))]> h),
       client)
  end.

Definition leading_slash (path : str) : str :=
  match path with
  | c :: _ => if decide (c = "/"%char) then path else "/" ++ path
  | [] => "/"
  end.

(** The suffix in force: the parameter when provided, else the field. *)
Definition effective_suffix (c : Connection) (path_suffix : PyVal) : str :=
  match path_suffix with
  | VNotProvided => PATH_SUFFIX (Connection_cls c)
  | v => PyRepr.to_str v
  end.

(** A path with the suffix appended, unless the suffix is empty or
    already ends the path. *)
Definition with_suffix (suffix path : str) : str :=
  if decide (suffix = []) then path
  else if PyStr.endswith suffix path then path
  else path ++ suffix.

(** The path sent to the client. *)
Definition sent_path (c : Connection) (path : str) (path_suffix : PyVal) : str :=
  with_suffix (effective_suffix c path_suffix) (leading_slash path).

(** The body handed to the client, if any. *)
Definition request_body (data data_mode : PyVal) : Result (option PyVal) :=
  match data with
  | VNotProvided => Return None
  | _ =>
      match data_mode with
      | VMode JSON => text ← json.dumps data; Return (Some (VStr text))
      | _ => Return (Some data)
      end
  end.

Definition request_kwargs (body : option PyVal) (headers : PyVal) : gmap str PyVal :=
  let kwargs : gmap str PyVal :=
    match body with
    | Some b => {[ ("data" : str) := b ]}
    | None => ∅
    end in
  match headers with
  | VNotProvided => kwargs
  | _ => <[("headers" : str) := headers]> kwargs
  end.

(** *** Path resolution of an [Executable] *)

(** A path is set when it is neither [None] nor empty. *)
Definition path_is_set (path : option str) : bool :=
  match path with
  | Some (_ :: _) => true
  | _ => false
  end.

(** The documented order: the path of the executable, else the [path]
    keyword, else the first positional argument, else ["/"]; with what is
    left of the arguments. *)
Definition resolve_path (e : Executable) (args : list PyVal) (kwargs : gmap str PyVal)
  : PyVal * list PyVal * gmap str PyVal :=
  if path_is_set (Executable_path e) then
    (VStr (default [] (Executable_path e)), args, kwargs)
  else
    match kwargs !! ("path" : str) with
    | Some p => (p, args, delete ("path" : str) kwargs)
    | None =>
        match args with
        | p :: rest => (p, rest, kwargs)
        | [] => (VStr "/", [], kwargs)
        end
    end.

Definition is_str (v : PyVal) : bool :=
  match v with VStr _ => true | _ => false end.

(** A path [request] can work with, or one that at least is not replaced
    on the way: a string, or a value that counts as true. *)
Definition usable_path (v : PyVal) : bool := is_str v || py_truthy v.

(** The path an executable passes on: ["/"] for a value that counts as
    false. *)
Definition or_slash (v : PyVal) : PyVal :=
  if py_truthy v then v else VStr "/".

(** *** Chains of extensions *)

Inductive Extension : Type :=
| ByAttr (attr : str)
| ByCall (args : list CallableArg).

(** The segments that arguments contribute: each one as a string, cut at
    its slashes. *)
Definition segments (args : list CallableArg) : list str :=
  concat (map (λ a, PyStr.split "/" (CallableArg_str a)) args).

(** The segments an extension contributes. *)
Definition extension_segments (e : Extension) : list str :=
  match e with
  | ByAttr attr => PyStr.split "/" attr
  | ByCall args => segments args
  end.

(** The arguments an extension passes, as strings: the attribute name, or
    each argument of the call. *)
Definition extension_arguments (e : Extension) : list str :=
  match e with
  | ByAttr attr => [attr]
  | ByCall args => CallableArg_str <$> args
  end.

(** An attribute name extends the path when it is not a case variant of an
    HTTP method and not a member the object already has. *)
Definition extends_path (members : list str) (e : Extension) : bool :=
  match e with
  | ByAttr attr =>
      negb (bool_decide (PyStr.upper attr ∈ HTTP_METHODS))
      && negb (bool_decide (attr ∈ members ++ object_members))
  | ByCall _ => true
  end.

(** The object an attribute access or a call evaluates to. *)
Definition as_object (a : Attribute) : Py loc :=
  match a with
  | AObject l => mret l
  | _ => raise AttributeError
  end.

Definition extend_connection (self : loc) (e : Extension) : Py loc :=
  match e with
  | ByAttr attr => a ← Connection_getattr self attr; as_object a
  | ByCall args => Connection___call__ self args
  end.

Definition extend_callable (self : loc) (e : Extension) : Py loc :=
  match e with
  | ByAttr attr => a ← Callable_getattr self attr; as_object a
  | ByCall args => Callable___call__ self args
  end.

Fixpoint extend_chain (self : loc) (es : list Extension) : Py loc :=
  match es with
  | [] => mret self
  | e :: es => next ← extend_callable self e; extend_chain next es
  end.

(** The segments of the accumulator a computation ends with. *)
Definition parts_of (r : heap * Result loc) : option (list str) :=
  match r with
  | (h, Return l) =>
      match h !! l with
      | Some (OCallable c) => Some (Callable_parts c)
      | _ => None
      end
  | _ => None
  end.

(** ["/" + s1 + "/" + ... + "/" + sn], and ["/"] without segments. *)
Definition slash_path (segments : list str) : str :=
  match segments with
  | [] => "/"
  | _ => concat (map (λ s, "/" ++ s) segments)
  end.

(** An argument whose splitting leaves an empty segment: it is empty,
    starts or ends with a slash, or has two slashes in a row. *)
Definition leaves_empty_segment (s : str) : Prop :=
  s = [] ∨ (∃ t, s = "/" ++ t) ∨ (∃ t, s = t ++ "/") ∨ (∃ a b, s = a ++ "//" ++ b).

(** A slash at the end, or two in a row. *)
Definition leaves_after (s : str) : Prop :=
  (∃ t, s = t ++ "/") ∨ (∃ a b, s = a ++ "//" ++ b).

(** The segments of an accumulator hold no slash. *)
Definition Callable_wf (c : Callable) : Prop :=
  Forall (λ s : str, "/"%char ∉ s) (Callable_parts c).

(** *** Objects of the examples *)

Definition httpbin : Connection :=
  mkConnection Connection_class None "https://httpbin.org".

(** A connection whose client is the object at address 3. *)
Definition local_connection : Connection :=
  mkConnection Connection_class (Some 3%positive) "http://localhost".

Definition foo_bar : Callable := mkCallable 1%positive [ "foo"; "bar" ].

Definition plain_get : Executable := mkExecutable 1%positive "GET" None.

Definition httpbin_heap : heap := {[ 1%positive := OConnection httpbin ]}.

Definition local_heap : heap :=
  {[ 1%positive := OConnection local_connection; 3%positive := OClient "TestClient" ]}.

Definition accumulator_heap : heap :=
  {[ 1%positive := OConnection httpbin; 2%positive := OCallable foo_bar ]}.

Definition executable_heap : heap :=
  {[ 1%positive := OConnection local_connection; 2%positive := OExecutable plain_get;
     3%positive := OClient "TestClient" ]}.

(** ** The rest of [connection.py]: string forms *)

(** [Executable.__str__]. *)
Definition Executable___str__ (self : loc) : Py str :=
  e ← load_executable self;
  let path :=
    match Executable_path e with
    | Some p => PyStr.or_else p "/"
    | None => "/"
    end in
  c ← load_connection (Executable_connection e);
  let suffix := PATH_SUFFIX (Connection_cls c) in
  mret ("Executable (" ++ Executable_method e ++ " " ++ path
        ++ (if PyStr.endswith suffix path then [] else suffix) ++ ")").

(** [Callable.__str__], for an instance of [Callable] itself. *)
Definition Callable___str__ (self : loc) : Py str :=
  c ← load_callable self;
  connection ← load_connection (Callable_connection c);
  mret ("Callable" ++ " (" ++ Callable_path c
        ++ PATH_SUFFIX (Connection_cls connection) ++ ")").

(** ** [python_types.ConnectionClient]

    [__subclasshook__] asks [_collections_abc._check_methods] whether the
    class has a method for each name of [HTTP_METHODS], in lower case.  A
    class is seen as [_check_methods] sees it: the [__dict__] of each
    class of its [__mro__], in order, where a name is bound to [None] or
    to something else. *)

Inductive Binding : Set :=
| BoundNone
| BoundOther.

Definition PyClass : Type := list (gmap str Binding).

Inductive Checked : Set :=
| CheckedTrue
| NotImplemented.

Module abc.

(** The inner loop of [_check_methods]: it looks for the first class of
    the [__mro__] that binds [method]; [true] stands for its [break],
    [false] for a [return NotImplemented], which it comes to when the
    name is bound to [None] and when no class binds it (the [else] of
    the [for]). *)
Fixpoint find_method (method : str) (mro : PyClass) : bool :=
  match mro with
  | [] => false
  | B :: mro =>
      match B !! method with
      | Some BoundNone => false
      | Some BoundOther => true
      | None => find_method method mro
      end
  end.

Fixpoint _check_methods (C : PyClass) (methods : list str) : Checked :=
  match methods with
  | [] => CheckedTrue
  | method :: methods =>
      if find_method method C then _check_methods C methods
      else NotImplemented
  end.

End abc.

(** [ConnectionClient.__subclasshook__].  The methods come in the order
    in which the set gives them. *)
Definition ConnectionClient___subclasshook__ (subclass : PyClass) : bool :=
  match abc._check_methods subclass (PyStr.lower <$> elements HTTP_METHODS) with
  | NotImplemented => false
  | CheckedTrue => true
  end.

(** ** [utils.DictObject]

    The values are those of JSON: [None], booleans, integers, strings,
    lists, and dictionaries with strings for keys, in insertion order; a
    dictionary is a plain [dict] or a [DictObject]. *)
Module utils.

Inductive Data : Type :=
| DNone
| DBool (b : bool)
| DInt (n : Z)
| DStr (s : str)
| DList (l : list Data)
| DDict (is_DictObject : bool) (items : list (str * Data)).

Inductive Failure : Type :=
| KeyError (key : str)
| AttributeError.

Inductive Outcome (A : Type) : Type :=
| Value (a : A)
| Failed (e : Failure).
Arguments Value {A} a.
Arguments Failed {A} e.

(** [d[key]], as an option, and [d[key] = value]: a key that is there
    keeps its place, a new one goes to the end. *)
Fixpoint dict_get (key : str) (d : list (str * Data)) : option Data :=
  match d with
  | [] => None
  | (k, v) :: d => if decide (k = key) then Some v else dict_get key d
  end.

Fixpoint dict_set (key : str) (value : Data) (d : list (str * Data))
  : list (str * Data) :=
  match d with
  | [] => [(key, value)]
  | (k, v) :: d =>
      if decide (k = key) then (k, value) :: d
      else (k, v) :: dict_set key value d
  end.

(** [d.update(pairs)], and [dict(pairs)], which fills an empty one. *)
Definition dict_update (d pairs : list (str * Data)) : list (str * Data) :=
  fold_left (λ d kv, dict_set kv.1 kv.2 d) pairs d.

Definition dict_of_pairs (pairs : list (str * Data)) : list (str * Data) :=
  dict_update [] pairs.

(** [self] is the [DictObject], given by its items. *)
Definition DictObject___getattr__ (self : list (str * Data)) (attr : str)
  : Outcome Data :=
  match dict_get attr self with
  | Some v => Value v
  | None => Failed (KeyError attr)
  end.

Definition DictObject___setattr__ (self : list (str * Data)) (attr : str)
    (value : Data) : list (str * Data) :=
  dict_set attr value self.

(** [self.copy()] is a plain [dict]. *)
Definition DictObject___getstate__ (self : list (str * Data)) : Data :=
  DDict false self.

Definition DictObject___setstate__ (self state : list (str * Data))
  : list (str * Data) :=
  dict_update self state.

(** [cls.from_dict(value) if isinstance(value, Mapping) else value], for
    [cls = DictObject]; [from_dict] itself is the case of a mapping. *)
Fixpoint from_dict_if_mapping (value : Data) : Data :=
  match value with
  | DDict _ pairs =>
      DDict true
        (dict_of_pairs (map (λ kv, (kv.1, from_dict_if_mapping kv.2)) pairs))
  | _ => value
  end.

Definition DictObject_from_dict (pairs : list (str * Data)) : Data :=
  from_dict_if_mapping (DDict false pairs).

(** What a [dict] has that [object] has not, and what the class
    [DictObject] adds. *)
Definition dict_members : list str :=
  [ "__contains__"; "__delitem__"; "__getitem__"; "__iter__"; "__len__";
    "__setitem__"; "clear"; "copy"; "fromkeys"; "get"; "items"; "keys";
    "pop"; "popitem"; "setdefault"; "update"; "values" ].

Definition DictObject_members : list str :=
  [ "__module__"; "__doc__"; "__dict__"; "__weakref__"; "__getattr__";
    "__setattr__"; "__getstate__"; "__setstate__"; "from_dict"; "from_json" ].

Inductive DictAttribute : Type :=
| Entry (v : Data)
| Member (name : str).

(** [d.name] for a dictionary [d] with the items [self]: ordinary
    lookup first, [__getattr__] when it finds nothing; only a
    [DictObject] has a [__getattr__]. *)
Definition getattr (is_DictObject : bool) (self : list (str * Data)) (name : str)
  : Outcome DictAttribute :=
  if is_DictObject then
    if bool_decide (name ∈ DictObject_members ++ dict_members ++ object_members)
    then Value (Member name)
    else match DictObject___getattr__ self name with
         | Value v => Value (Entry v)
         | Failed e => Failed e
         end
  else
    if bool_decide (name ∈ dict_members ++ object_members)
    then Value (Member name)
    else Failed AttributeError.

(** [self.name = value] on a [DictObject]: [__setattr__] takes every
    name. *)
Definition setattr (self : list (str * Data)) (name : str) (value : Data)
  : list (str * Data) :=
  DictObject___setattr__ self name value.

(** [a == b].  A boolean is an integer; dictionaries are equal when
    they have as many keys and the same value at each, whatever their
    order and their classes. *)
Fixpoint eq (a b : Data) : bool :=
  match a, b with
  | DNone, DNone => true
  | DBool x, DBool y => bool_decide (x = y)
  | DBool x, DInt n | DInt n, DBool x => n =? (if x then 1 else 0)
  | DInt n, DInt m => n =? m
  | DStr s, DStr t => bool_decide (s = t)
  | DList l, DList m =>
      (fix each (l m : list Data) : bool :=
         match l, m with
         | [], [] => true
         | x :: l, y :: m => eq x y && each l m
         | _, _ => false
         end) l m
  | DDict _ d, DDict _ e =>
      bool_decide (length d = length e)
      && forallb (λ kv, match dict_get kv.1 e with
                        | Some w => eq kv.2 w
                        | None => false
                        end) d
  | _, _ => false
  end.

End utils.

(** ** Further statements *)

(** *** Validated roots *)

(** What a root looks like once validated: it opens with [http://] or
    [https://] and holds neither query nor fragment. *)
Definition root_ok (v : str) : Prop :=
  ((∃ t, v = "http://" ++ t) ∨ (∃ t, v = "https://" ++ t))
  ∧ ("?"%char ∉ v) ∧ ("#"%char ∉ v).

(** *** Operations on the heap *)

(** The operations a user of the module performs. *)
Inductive Op : Type :=
| NewConnection (cls : ConnectionClass) (root : str) (client : option loc)
| GetattrConnection (self : loc) (name : str)
| CallConnection (self : loc) (args : list CallableArg)
| GetattrCallable (self : loc) (name : str)
| CallCallable (self : loc) (args : list CallableArg)
| Request (self : loc) (method : str) (path data data_mode headers path_suffix : PyVal)
| CallExecutable (self : loc) (args : list PyVal) (kwargs : gmap str PyVal).

(** The heap an operation leaves, whether it returns or raises. *)
Definition heap_after (op : Op) (h : heap) : heap :=
  match op with
  | NewConnection cls root client => (new_Connection cls root client h).1
  | GetattrConnection self name => (Connection_getattr self name h).1
  | CallConnection self args => (Connection___call__ self args h).1
  | GetattrCallable self name => (Callable_getattr self name h).1
  | CallCallable self args => (Callable___call__ self args h).1
  | Request self method path data data_mode headers path_suffix =>
      (Connection_request self method path data data_mode headers path_suffix h).1
  | CallExecutable self args kwargs => (Executable___call__ self args kwargs h).1
  end.

(** [h'] comes after [h]: accumulators, executables and clients are what
    they were, and a connection has the class and the root it had, and
    the client it had if it had one. *)
Definition evolves (h h' : heap) : Prop :=
  ∀ l o, h !! l = Some o →
    match o with
    | OConnection c =>
        ∃ c', h' !! l = Some (OConnection c')
              ∧ Connection_cls c' = Connection_cls c
              ∧ Connection_root c' = Connection_root c
              ∧ (Connection_client c' = Connection_client c ∨ Connection_client c = None)
    | _ => h' !! l = Some o
    end.

Definition is_connection (h : heap) (l : loc) : Prop :=
  ∃ c, h !! l = Some (OConnection c).

Definition is_client (h : heap) (l : loc) : Prop :=
  ∃ name, h !! l = Some (OClient name).

(** An object in order: a connection has a validated root and, for a
    client, a client; an accumulator has segments without slash and a
    connection; an executable has a connection, a method of
    [HTTP_METHODS] and a path that starts with a slash, if any. *)
Definition object_ok (h : heap) (o : Obj) : Prop :=
  match o with
  | OClient _ => True
  | OConnection c =>
      root_ok (Connection_root c)
      ∧ ∀ client, Connection_client c = Some client → is_client h client
  | OCallable c => Callable_wf c ∧ is_connection h (Callable_connection c)
  | OExecutable e =>
      is_connection h (Executable_connection e)
      ∧ Executable_method e ∈ HTTP_METHODS
      ∧ ∀ p, Executable_path e = Some p → ∃ t, p = "/" ++ t
  end.

Definition heap_ok (h : heap) : Prop :=
  ∀ l o, h !! l = Some o → object_ok h o.

(** An operation that can be asked for: a connection is made with a
    client that exists, if with any, and what is called as a connection
    is one. *)
Definition admissible (h : heap) (op : Op) : Prop :=
  match op with
  | NewConnection _ _ (Some client) => is_client h client
  | CallConnection self _ => is_connection h self
  | _ => True
  end.

(** A computation that adds objects to the heap, if it does anything to
    it. *)
Definition allocates {A : Type} (m : Py A) : Prop := ∀ h, h ⊆ (m h).1.

(** *** Client classes *)

(** A class has a method: the first class of its [__mro__] that binds
    the name binds it to something other than [None]. *)
Definition has_method (C : PyClass) (method : str) : Prop :=
  ∃ before B after,
    C = before ++ B :: after
    ∧ Forall (λ B', B' !! method = None) before
    ∧ B !! method = Some BoundOther.

(** The class of the docstring, with a [get] and nothing else, and one
    with all the methods, one of them inherited from a parent whose [get]
    it overrides.  The last class is [object], which binds none of the
    names looked for. *)
Definition WrongClient : PyClass :=
  [ {[ ("get" : str) := BoundOther ]}; ∅ ].

Definition GoodClient : PyClass :=
  [ {[ ("get" : str) := BoundOther; ("post" : str) := BoundOther;
       ("put" : str) := BoundOther; ("patch" : str) := BoundOther;
       ("delete" : str) := BoundOther; ("head" : str) := BoundOther ]};
    {[ ("options" : str) := BoundOther; ("get" : str) := BoundNone ]};
    ∅ ].

(** *** Dictionaries *)

(** Values as Python has them: no key twice in a dictionary. *)
Fixpoint Data_wf (v : utils.Data) : bool :=
  match v with
  | utils.DList l => forallb Data_wf l
  | utils.DDict _ d =>
      bool_decide (NoDup d.*1) && forallb (λ kv, Data_wf kv.2) d
  | _ => true
  end.

(** [value[k1][k2]...], through dictionaries. *)
Fixpoint subscripts (value : utils.Data) (keys : list str) : option utils.Data :=
  match keys with
  | [] => Some value
  | key :: keys =>
      match value with
      | utils.DDict _ d =>
          match utils.dict_get key d with
          | Some v => subscripts v keys
          | None => None
          end
      | _ => None
      end
  end.

(** [value.n1.n2...] when every step is an attribute of a dictionary that
    is an entry of it; nothing otherwise. *)
Fixpoint attributes (value : utils.Data) (names : list str) : option utils.Data :=
  match names with
  | [] => Some value
  | name :: names =>
      match value with
      | utils.DDict is_DictObject d =>
          match utils.getattr is_DictObject d name with
          | utils.Value (utils.Entry v) => attributes v names
          | _ => None
          end
      | _ => None
      end
  end.

(** A name that ordinary lookup does not find on a [DictObject]. *)
Definition free_name (name : str) : Prop :=
  name ∉ utils.DictObject_members ++ utils.dict_members ++ object_members.

(** * Proofs *)

(** A character that does not occur in a given text. *)
Ltac absent_char :=
  let H := fresh in
  intros H;
  repeat (apply elem_of_cons in H as [H|H]; [discriminate H|]);
  by apply elem_of_nil in H.

(** * Properties of the string primitives *)
Section PyStr_facts.
Import PyStr.

Lemma contains_true c s : contains c s = true ↔ c ∈ s.
Proof. unfold contains. apply bool_decide_eq_true. Qed.

Lemma contains_false c s : contains c s = false ↔ c ∉ s.
Proof. unfold contains. apply bool_decide_eq_false. Qed.

Lemma contains_app c a b : contains c (a ++ b) = contains c a || contains c b.
Proof.
  apply eq_true_iff_eq. rewrite orb_true_iff, !contains_true.
  apply elem_of_app.
Qed.

Lemma startswith_spec p s : startswith p s = true ↔ ∃ t, s = p ++ t.
Proof.
  revert s. induction p as [|a p IH]; intros s; simpl.
  - split; eauto.
  - destruct s as [|b s].
    + split; [done | intros [t Ht]; done].
    + rewrite andb_true_iff, bool_decide_eq_true, IH. split.
      * intros [-> [t ->]]. eauto.
      * intros [t Ht]. simplify_eq. eauto.
Qed.

Lemma startswith_app p t : startswith p (p ++ t) = true.
Proof. apply startswith_spec. eauto. Qed.

Lemma endswith_spec suffix s : endswith suffix s = true ↔ ∃ t, s = t ++ suffix.
Proof.
  unfold endswith. rewrite startswith_spec. split.
  - intros [t Ht]. exists (reverse t).
    apply (inj reverse). by rewrite reverse_app, reverse_involutive.
  - intros [t ->]. exists (reverse t). by rewrite reverse_app.
Qed.

Lemma endswith_app t suffix : endswith suffix (t ++ suffix) = true.
Proof. apply endswith_spec. eauto. Qed.

Lemma endswith_nil s : endswith [] s = true.
Proof. apply endswith_spec. exists s. by rewrite app_nil_r. Qed.

(** ** Slices *)

Lemma bound_nat len n : bound (Z.of_nat len) (Z.of_nat n) = Z.of_nat (n `min` len).
Proof. unfold bound. case_match; lia. Qed.

Lemma slice_from_nat n s : slice_from (Z.of_nat n) s = drop n s.
Proof.
  unfold slice_from. rewrite bound_nat, Nat2Z.id.
  destruct (decide (n ≤ length s)%nat).
  - by rewrite Nat.min_l.
  - rewrite Nat.min_r by lia. by rewrite !drop_ge by lia.
Qed.

Lemma slice_nat a b s :
  slice (Z.of_nat a) (Z.of_nat b) s = take (b - a) (drop a s).
Proof.
  unfold slice. rewrite !bound_nat.
  destruct (decide (a ≤ length s)%nat).
  - rewrite (Nat.min_l a) by lia. rewrite Nat2Z.id.
    destruct (decide (b ≤ length s)%nat).
    + rewrite Nat.min_l by lia. f_equal. lia.
    + rewrite Nat.min_r by lia.
      rewrite !take_ge; [done | rewrite length_drop; lia | rewrite length_drop; lia].
  - rewrite (Nat.min_r a) by lia. rewrite Nat2Z.id.
    rewrite !drop_ge by lia. by rewrite !take_nil.
Qed.

Lemma slice_to_nat n s : slice_to (Z.of_nat n) s = take n s.
Proof.
  unfold slice_to. change 0 with (Z.of_nat 0). rewrite slice_nat.
  by rewrite Nat.sub_0_r.
Qed.

Lemma slice_to_app a b : slice_to (Z.of_nat (length a)) (a ++ b) = a.
Proof. rewrite slice_to_nat. by rewrite take_app_length. Qed.

Lemma slice_from_app a b : slice_from (Z.of_nat (length a)) (a ++ b) = b.
Proof. rewrite slice_from_nat. by rewrite drop_app_length. Qed.

Lemma slice_to_at a pre post :
  a = Z.of_nat (length pre) → slice_to a (pre ++ post) = pre.
Proof. intros ->. apply slice_to_app. Qed.

Lemma slice_to_1 c s : slice_to 1 (c :: s) = [c].
Proof. apply (slice_to_at 1 [c] s eq_refl). Qed.

Lemma slice_from_at a pre post :
  a = Z.of_nat (length pre) → slice_from a (pre ++ post) = post.
Proof. intros ->. apply slice_from_app. Qed.

Lemma slice_at a b pre mid post :
  a = Z.of_nat (length pre) → b = a + Z.of_nat (length mid) →
  slice a b (pre ++ mid ++ post) = mid.
Proof.
  intros -> ->. rewrite <- Nat2Z.inj_add, slice_nat.
  rewrite drop_app_length.
  replace (length pre + length mid - length pre)%nat with (length mid) by lia.
  by rewrite take_app_length.
Qed.

(** [s[:-1]] drops the last character. *)
Lemma slice_to_minus_1 t c : slice_to (-1) (t ++ [c]) = t.
Proof.
  unfold slice_to, slice, bound. simpl.
  rewrite length_app. simpl.
  replace (Z.min 0 _) with 0 by lia.
  replace (Z.to_nat (Z.max 0 _ - 0)) with (length t) by lia.
  change (Z.to_nat 0) with 0%nat. rewrite drop_0. by rewrite take_app_length.
Qed.

(** ** Searching *)

Lemma index_of_None c s : index_of c s = None ↔ c ∉ s.
Proof.
  induction s as [|x s IH]; simpl.
  - split; [intros _; apply not_elem_of_nil | done].
  - case_decide as Hx.
    + subst. split; [done | intros []; left].
    + rewrite fmap_None, IH, not_elem_of_cons.
      split; [intros ?; split; [congruence | done] | by intros [_ ?]].
Qed.

Lemma index_of_app c a b : c ∉ a → index_of c (a ++ c :: b) = Some (length a).
Proof.
  induction a as [|x a IH]; simpl; intros Hc.
  - by rewrite decide_True.
  - apply not_elem_of_cons in Hc as [? ?].
    rewrite decide_False by done. by rewrite IH.
Qed.

Lemma index_of_Some c s k :
  index_of c s = Some k → ∃ a b, s = a ++ c :: b ∧ (c ∉ a) ∧ length a = k.
Proof.
  revert k. induction s as [|x s IH]; simpl; intros k; [done|].
  case_decide as Hx.
  - intros [= <-]. subst. exists (@nil ascii). exists s.
    split_and!; [done | apply not_elem_of_nil | done].
  - intros (k' & Hk & ->)%fmap_Some.
    destruct (IH _ Hk) as (a & b & -> & Ha & <-).
    exists (x :: a). exists b. split_and!; [done | | done].
    apply not_elem_of_cons. auto.
Qed.

Lemma elem_of_split_first (c : ascii) (s : str) :
  c ∈ s → ∃ a b, s = a ++ c :: b ∧ c ∉ a.
Proof.
  intros Hc. destruct (index_of c s) as [k|] eqn:Hk.
  - destruct (index_of_Some _ _ _ Hk) as (a & b & ? & ? & _). eauto.
  - by apply index_of_None in Hk.
Qed.

Lemma elem_of_split_last (c : ascii) (s : str) :
  c ∈ s → ∃ a b, s = a ++ c :: b ∧ c ∉ b.
Proof.
  intros Hc. destruct (elem_of_split_first c (reverse s)) as (a & b & Hs & Ha).
  { by apply elem_of_reverse. }
  exists (reverse b). exists (reverse a). split.
  - apply (inj reverse). rewrite Hs, reverse_app, reverse_cons, !reverse_involutive.
    by rewrite <- app_assoc.
  - by rewrite elem_of_reverse.
Qed.

Lemma find_from_absent c start s : c ∉ s → find_from c start s = -1.
Proof.
  intros Hc. unfold find_from.
  assert (index_of c (drop (Z.to_nat (bound (Z.of_nat (length s)) start)) s) = None) as ->;
    [|done].
  apply index_of_None. intros ?%subseteq_drop. done.
Qed.

Lemma find_from_app c pre a b :
  c ∉ a → find_from c (Z.of_nat (length pre)) (pre ++ a ++ c :: b)
          = Z.of_nat (length pre + length a).
Proof.
  intros Hc. unfold find_from. rewrite bound_nat.
  rewrite Nat.min_l by (rewrite length_app; lia).
  rewrite Nat2Z.id, drop_app_length. by rewrite index_of_app.
Qed.

Lemma find_from_at c start pre a b :
  start = Z.of_nat (length pre) → (c ∉ a) →
  find_from c start (pre ++ a ++ c :: b) = start + Z.of_nat (length a).
Proof. intros -> Hc. rewrite find_from_app by done. lia. Qed.

Lemma find_from_absent_at c start pre rest :
  start = Z.of_nat (length pre) → (c ∉ rest) → find_from c start (pre ++ rest) = -1.
Proof.
  intros -> Hc. unfold find_from. rewrite bound_nat.
  rewrite Nat.min_l by (rewrite length_app; lia).
  rewrite Nat2Z.id, drop_app_length.
  by apply index_of_None in Hc as ->.
Qed.

Lemma find_app c a b : c ∉ a → find c (a ++ c :: b) = Z.of_nat (length a).
Proof. intros Hc. apply (find_from_app c [] a b Hc). Qed.

Lemma find_absent c s : c ∉ s → find c s = -1.
Proof. apply find_from_absent. Qed.

Lemma rfind_app c a b : c ∉ b → rfind c (a ++ c :: b) = Z.of_nat (length a).
Proof.
  intros Hc. unfold rfind.
  rewrite reverse_app, reverse_cons, <- app_assoc. simpl.
  rewrite index_of_app by (by rewrite elem_of_reverse).
  rewrite length_reverse, length_app. simpl. lia.
Qed.

Lemma rfind_absent c s : c ∉ s → rfind c s = -1.
Proof.
  intros Hc. unfold rfind.
  assert (index_of c (reverse s) = None) as ->; [|done].
  apply index_of_None. by rewrite elem_of_reverse.
Qed.

(** ** Splitting and joining *)

Lemma split1_app c a b : c ∉ a → split1 c (a ++ c :: b) = [a; b].
Proof.
  intros Hc. unfold split1. rewrite index_of_app by done.
  rewrite take_app_length. do 2 f_equal.
  rewrite cons_middle, app_assoc.
  rewrite drop_app_length'; [done | rewrite length_app; simpl; lia].
Qed.

Lemma split_nonempty c s : split c s ≠ [].
Proof.
  destruct s as [|x s]; simpl; [done|].
  case_decide; [done|]. by destruct (split c s).
Qed.

Lemma split_absent c s : c ∉ s → split c s = [s].
Proof.
  induction s as [|x s IH]; simpl; intros Hc; [done|].
  apply not_elem_of_cons in Hc as [? ?].
  rewrite decide_False by done. by rewrite IH.
Qed.

Lemma split_app c a b : split c (a ++ c :: b) = split c a ++ split c b.
Proof.
  induction a as [|x a IH]; simpl.
  - by rewrite decide_True.
  - case_decide; [by rewrite IH|].
    rewrite IH. destruct (split c a) eqn:Ha; [by apply split_nonempty in Ha | done].
Qed.

Lemma split_no_sep c s : Forall (λ t : str, c ∉ t) (split c s).
Proof.
  induction s as [|x s IH]; simpl.
  - repeat constructor. apply not_elem_of_nil.
  - case_decide.
    + constructor; [apply not_elem_of_nil | done].
    + destruct (split c s) as [|h t].
      { repeat constructor. apply not_elem_of_cons. split; [congruence | apply not_elem_of_nil]. }
      inversion_clear IH. constructor; [|done].
      apply not_elem_of_cons. auto.
Qed.

Lemma split_length c s : (1 ≤ length (split c s))%nat.
Proof. pose proof (split_nonempty c s). destruct (split c s); [done | simpl; lia]. Qed.

End PyStr_facts.

(** * Parsing a root *)
Section urllib_facts.
Import PyStr urllib.

Lemma lower_char_letter c :
  contains (lower_char c) letters = true →
  contains c scheme_chars = true ∧ c ≠ ":"%char.
Proof.
  destruct c as [[] [] [] [] [] [] [] []]; vm_compute; intros H;
    first [discriminate H | split; [reflexivity | discriminate]].
Qed.

Lemma scheme_letters S :
  lower S ∈ ([ "http"; "https" ] : list str) →
  Forall (λ c, contains (lower_char c) letters = true) S.
Proof.
  intros HS. apply (Forall_fmap lower_char (λ x, contains x letters = true) S).
  unfold lower in HS. change (lower_char <$> S) with (map lower_char S).
  apply elem_of_cons in HS as [-> | HS]; [by repeat constructor|].
  apply list_elem_of_singleton in HS as ->. by repeat constructor.
Qed.

Lemma scheme_chars_ok S :
  lower S ∈ ([ "http"; "https" ] : list str) →
  forallb (λ c, contains c scheme_chars) S = true ∧ (":"%char ∉ S) ∧ S ≠ [].
Proof.
  intros HS. pose proof (scheme_letters S HS) as HF. split_and!.
  - apply forallb_forall. intros c Hc%list_elem_of_In.
    rewrite Forall_forall in HF. by apply lower_char_letter, HF.
  - intros Hin. rewrite Forall_forall in HF.
    by destruct (lower_char_letter _ (HF _ Hin)).
  - intros ->. apply elem_of_cons in HS as [HS|HS]; [done|].
    by apply list_elem_of_singleton in HS.
Qed.

Lemma find_from_delimiter c (host tail : str) :
  (c ∉ host) →
  let w := find_from c 2 ("//" ++ host ++ tail) in
  (w = -1 ∨ 2 + Z.of_nat (length host) ≤ w)
  ∧ (∀ t, tail = c :: t → w = 2 + Z.of_nat (length host)).
Proof.
  intros Hc w. split.
  - destruct (decide (c ∈ tail)) as [Hin|Hout].
    + right. destruct (elem_of_split_first c tail Hin) as (a & b & -> & Ha).
      subst w. rewrite (app_assoc host a).
      rewrite (find_from_at c 2 "//" (host ++ a) b eq_refl).
      * rewrite length_app. lia.
      * rewrite elem_of_app. tauto.
    + left. subst w. apply (find_from_absent_at c 2 "//" (host ++ tail) eq_refl).
      rewrite elem_of_app. tauto.
  - intros t ->. subst w.
    rewrite (find_from_at c 2 "//" host t eq_refl Hc). lia.
Qed.

Lemma _splitnetloc_root (host tail : str) :
  Forall (λ c, ¬ delimiter c) host →
  match tail with [] => True | c :: _ => delimiter c end →
  _splitnetloc ("//" ++ host ++ tail) 2 = (host, tail).
Proof.
  intros Hhost Htail. unfold _splitnetloc.
  assert (∀ c, delimiter c → c ∉ host) as Hfree.
  { intros c Hc Hin. rewrite Forall_forall in Hhost. by apply (Hhost c). }
  set (url := "//" ++ host ++ tail).
  match goal with
  | |- (slice 2 ?d url, slice_from ?d url) = _ =>
      assert (d = 2 + Z.of_nat (length host)) as ->
  end.
  { destruct (find_from_delimiter "/" host tail) as [H1 H1']; [apply Hfree; set_solver|].
    destruct (find_from_delimiter "?" host tail) as [H2 H2']; [apply Hfree; set_solver|].
    destruct (find_from_delimiter "#" host tail) as [H3 H3']; [apply Hfree; set_solver|].
    fold url in H1, H2, H3, H1', H2', H3'. simpl.
    assert (Z.of_nat (length url) = 2 + Z.of_nat (length host) + Z.of_nat (length tail)) as Hlen.
    { subst url. rewrite !length_app. simpl. lia. }
    destruct tail as [|c t].
    - simpl in Hlen.
      assert (∀ c, find_from c 2 url = -1 ∨ find_from c 2 url = 2 + Z.of_nat (length host) ∨ True) by auto.
      repeat case_match; lia.
    - unfold delimiter in Htail.
      assert (c = "/"%char ∨ c = "?"%char ∨ c = "#"%char) as Hc by set_solver.
      simpl in Hlen.
      destruct Hc as [-> | [-> | ->]];
        [specialize (H1' _ eq_refl) | specialize (H2' _ eq_refl) | specialize (H3' _ eq_refl)];
        repeat case_match; lia. }
  subst url. f_equal.
  - by apply (slice_at _ _ "//" host tail).
  - rewrite (app_assoc "//" host tail).
    apply slice_from_at. rewrite length_app. simpl. lia.
Qed.

Lemma split_after_scheme_root (sch host path rest : str) :
  Forall (λ c, ¬ delimiter c) host →
  contains "[" host = contains "]" host →
  match path with [] => True | c :: _ => c = "/"%char end →
  ("?"%char ∉ path) → ("#"%char ∉ path) →
  match rest with [] => True | c :: _ => c = "?"%char ∨ c = "#"%char end →
  ∃ query fragment,
    split_after_scheme sch ("//" ++ host ++ path ++ rest)
    = Return (mkSplit sch host path query fragment).
Proof.
  intros Hhost Hbr Hpath Hq Hf Hrest. unfold split_after_scheme.
  rewrite (slice_to_at 2 "//" (host ++ path ++ rest) eq_refl).
  rewrite decide_True by done.
  rewrite _splitnetloc_root; [|done|].
  2:{ destruct path as [|c p]; simpl.
      - destruct rest as [|c r]; [done|]. unfold delimiter.
        destruct Hrest as [-> | ->]; set_solver.
      - subst c. unfold delimiter. set_solver. }
  assert ((contains "[" host && negb (contains "]" host))
          || (contains "]" host && negb (contains "[" host)) = false) as ->
    by (rewrite Hbr; by destruct (contains "]" host)).
  simpl.
  apply contains_false in Hq as Hq'. apply contains_false in Hf as Hf'.
  destruct rest as [|c rest].
  { rewrite app_nil_r, Hf'. simpl. rewrite Hq'. simpl. by eauto. }
  destruct Hrest as [-> | ->].
  - assert (contains "?" (path ++ "?"%char :: rest) = true) as Hhas.
    { apply contains_true, elem_of_app. right. left. }
    destruct (decide ("#"%char ∈ rest)) as [Hin | Hout].
    + destruct (elem_of_split_first _ _ Hin) as (q1 & q2 & -> & Hq1).
      assert (contains "#" (path ++ "?"%char :: q1 ++ "#"%char :: q2) = true) as ->.
      { apply contains_true. rewrite elem_of_app, !elem_of_cons, elem_of_app.
        right. right. right. left. }
      replace (path ++ "?"%char :: q1 ++ "#"%char :: q2)
        with ((path ++ "?"%char :: q1) ++ "#"%char :: q2) by (by rewrite <- app_assoc).
      rewrite split1_app.
      2:{ rewrite elem_of_app, elem_of_cons. intros [?|[?|?]]; done. }
      simpl.
      assert (contains "?" (path ++ "?"%char :: q1) = true) as ->.
      { apply contains_true, elem_of_app. right. left. }
      rewrite split1_app by done. simpl. by eauto.
    + assert (contains "#" (path ++ "?"%char :: rest) = false) as ->.
      { apply contains_false. rewrite elem_of_app, elem_of_cons.
        intros [?|[?|?]]; done. }
      simpl. rewrite Hhas, split1_app by done. simpl. by eauto.
  - assert (contains "#" (path ++ "#"%char :: rest) = true) as ->.
    { apply contains_true, elem_of_app. right. left. }
    rewrite split1_app by done. simpl. rewrite Hq'. simpl. by eauto.
Qed.

Lemma urlsplit_root (sc tail : str) :
  lower sc ∈ ([ "http"; "https" ] : list str) →
  urlsplit (sc ++ "://" ++ tail) = split_after_scheme (lower sc) ("//" ++ tail).
Proof.
  intros HS. destruct (scheme_chars_ok sc HS) as (Hchars & Hcolon & Hne).
  unfold urlsplit.
  replace (sc ++ "://" ++ tail) with (sc ++ (":"%char :: ("//" ++ tail))) by done.
  rewrite find_app by done.
  assert ((0 <? Z.of_nat (length sc)) = true) as ->.
  { apply Z.ltb_lt. destruct sc; [done | simpl; lia]. }
  rewrite slice_to_app.
  replace (sc ++ (":"%char :: ("//" ++ tail))) with ((sc ++ ":") ++ ("//" ++ tail))
    by (by rewrite <- app_assoc).
  rewrite slice_from_at by (rewrite length_app; simpl; lia).
  case_decide; [done|].
  rewrite Hchars. simpl. done.
Qed.

(** ** The path component *)

Lemma last_segment_app (a seg : str) :
  ("/"%char ∉ seg) → last_segment (a ++ "/"%char :: seg) = seg.
Proof.
  intros Hseg. unfold last_segment. rewrite rfind_app by done.
  rewrite cons_middle, app_assoc.
  apply slice_from_at. rewrite length_app. simpl. lia.
Qed.

Lemma last_segment_absent (p : str) : ("/"%char ∉ p) → last_segment p = p.
Proof.
  intros Hp. unfold last_segment. rewrite rfind_absent by done.
  apply (slice_from_at _ [] p). done.
Qed.

(** A path is what stands before its last segment, empty or ending with
    a slash, followed by that segment. *)
Lemma last_segment_split (p : str) :
  ∃ a, p = a ++ last_segment p
       ∧ ("/"%char ∉ last_segment p)
       ∧ (a = [] ∨ ∃ a', a = a' ++ "/").
Proof.
  destruct (decide ("/"%char ∈ p)) as [Hin | Hout].
  - destruct (elem_of_split_last _ _ Hin) as (a' & seg & -> & Hseg).
    rewrite last_segment_app by done. exists (a' ++ "/"). split_and!.
    + by rewrite <- app_assoc.
    + done.
    + right. by exists a'.
  - rewrite last_segment_absent by done. exists []. split_and!; auto.
Qed.

Lemma without_params_split (a seg : str) :
  ("/"%char ∉ seg) → (a = [] ∨ ∃ a', a = a' ++ "/") →
  without_params (a ++ seg)
  = a ++ match index_of ";" seg with Some k => take k seg | None => seg end.
Proof.
  intros Hseg Ha. unfold without_params.
  assert (last_segment (a ++ seg) = seg) as ->.
  { destruct Ha as [-> | [a' ->]].
    - by apply last_segment_absent.
    - rewrite <- app_assoc. by apply last_segment_app. }
  f_equal. rewrite length_app.
  replace (length a + length seg - length seg)%nat with (length a) by lia.
  by rewrite take_app_length.
Qed.

Lemma _splitparams_path (p : str) :
  (if contains ";" p then (_splitparams p).1 else p) = without_params p.
Proof.
  destruct (last_segment_split p) as (a & Hp & Hseg & Ha).
  set (seg := last_segment p) in *. clearbody seg. subst p.
  rewrite without_params_split by done.
  destruct (index_of ";" seg) as [k|] eqn:Hk.
  - destruct (index_of_Some _ _ _ Hk) as (s1 & s2 & -> & Hs1 & <-).
    rewrite take_app_length.
    assert (contains ";" (a ++ s1 ++ ";"%char :: s2) = true) as ->.
    { apply contains_true. rewrite !elem_of_app, elem_of_cons. auto. }
    unfold _splitparams. destruct Ha as [-> | [a' ->]].
    + assert (contains "/" ([] ++ s1 ++ ";"%char :: s2) = false) as ->
        by (by apply contains_false).
      simpl. rewrite find_app by done. by rewrite slice_to_app.
    + assert (contains "/" ((a' ++ "/") ++ s1 ++ ";"%char :: s2) = true) as ->.
      { apply contains_true. rewrite !elem_of_app, list_elem_of_singleton. auto. }
      replace ((a' ++ "/") ++ s1 ++ ";"%char :: s2)
        with (a' ++ "/"%char :: (s1 ++ ";"%char :: s2)) by (by rewrite <- app_assoc).
      rewrite rfind_app by done.
      replace (a' ++ "/"%char :: (s1 ++ ";"%char :: s2))
        with (a' ++ ("/"%char :: s1) ++ ";"%char :: s2) by done.
      rewrite (find_from_at ";" _ a' ("/"%char :: s1) s2 eq_refl).
      2:{ rewrite elem_of_cons. intros [?|?]; done. }
      assert ((Z.of_nat (length a') + Z.of_nat (length ("/"%char :: s1)) <? 0) = false) as ->
        by (apply Z.ltb_ge; lia).
      simpl fst.
      replace (a' ++ "/"%char :: s1 ++ ";"%char :: s2)
        with (((a' ++ "/") ++ s1) ++ ";"%char :: s2) by (by rewrite <- !app_assoc).
      apply slice_to_at. rewrite !length_app. simpl. lia.
  - apply index_of_None in Hk.
    destruct (contains ";" (a ++ seg)) eqn:Hc; [|done].
    unfold _splitparams. destruct Ha as [-> | [a' ->]].
    + apply contains_true in Hc. done.
    + assert (contains "/" ((a' ++ "/") ++ seg) = true) as ->.
      { apply contains_true. rewrite !elem_of_app, list_elem_of_singleton. auto. }
      replace ((a' ++ "/") ++ seg) with (a' ++ "/"%char :: seg)
        by (by rewrite <- app_assoc).
      rewrite rfind_app by done.
      rewrite (find_from_absent_at ";" _ a' ("/"%char :: seg) eq_refl).
      2:{ rewrite elem_of_cons. intros [?|?]; done. }
      done.
Qed.

Lemma without_trailing_slash_code (p : str) :
  (if endswith "/" p then slice_to (-1) p else p) = without_trailing_slash p.
Proof.
  unfold without_trailing_slash, endswith.
  destruct p as [|c t _] using rev_ind; [done|].
  rewrite reverse_app. simpl. rewrite bool_decide_decide.
  destruct (decide ("/"%char = c)) as [<- | Hc].
  - rewrite decide_True by done. simpl.
    by rewrite slice_to_minus_1, reverse_involutive.
  - rewrite decide_False by done. done.
Qed.
End urllib_facts.

(** * Validation of the root *)
Section validate_root.
Import PyStr urllib.

(** What [valid_root] says, in propositions. *)
Lemma valid_root_inv r :
  valid_root r = true →
  lower (root_scheme r) ∈ ([ "http"; "https" ] : list str)
  ∧ root_host r ≠ []
  ∧ Forall (λ c, ¬ delimiter c) (root_host r)
  ∧ contains "[" (root_host r) = contains "]" (root_host r)
  ∧ match root_path r with [] => True | c :: _ => c = "/"%char end
  ∧ ("?"%char ∉ root_path r) ∧ ("#"%char ∉ root_path r)
  ∧ match root_rest r with [] => True | c :: _ => c = "?"%char ∨ c = "#"%char end.
Proof.
  unfold valid_root. rewrite !andb_true_iff, !bool_decide_eq_true.
  intros ((((((Hs & Hh) & Hd) & Hb) & Hp) & Hc) & Hr).
  rewrite forallb_forall in Hd, Hc. split_and!.
  - done.
  - by destruct (root_host r).
  - apply Forall_forall. intros c Hin%list_elem_of_In Hdel.
    specialize (Hd _ Hin). apply negb_true_iff, contains_false in Hd. done.
  - done.
  - destruct (root_path r) as [|c p]; [done|]. simpl in Hp.
    apply andb_true_iff in Hp as [Hp _]. by apply bool_decide_eq_true in Hp.
  - intros Hin%list_elem_of_In. specialize (Hc _ Hin).
    apply negb_true_iff, contains_false in Hc. apply Hc. set_solver.
  - intros Hin%list_elem_of_In. specialize (Hc _ Hin).
    apply negb_true_iff, contains_false in Hc. apply Hc. set_solver.
  - destruct (root_rest r) as [|c t]; [done|].
    apply contains_true in Hr. set_solver.
Qed.

Lemma without_trailing_slash_prefix p : ∃ t, p = without_trailing_slash p ++ t.
Proof.
  unfold without_trailing_slash.
  destruct p as [|c t _] using rev_ind; [by exists []|].
  rewrite reverse_app. simpl. case_decide.
  - rewrite reverse_involutive. eauto.
  - exists []. by rewrite app_nil_r.
Qed.

Lemma without_params_prefix p : ∃ t, p = without_params p ++ t.
Proof.
  destruct (last_segment_split p) as (a & Hp & Hseg & Ha).
  set (seg := last_segment p) in *. clearbody seg. subst p.
  rewrite without_params_split by done.
  destruct (index_of ";" seg) as [k|].
  - exists (drop k seg). by rewrite <- app_assoc, take_drop.
  - exists []. by rewrite app_nil_r.
Qed.

Lemma validated_path_prefix p : ∃ t, p = validated_path p ++ t.
Proof.
  unfold validated_path.
  destruct (without_params_prefix p) as [t1 H1].
  destruct (without_trailing_slash_prefix (without_params p)) as [t2 H2].
  exists (t2 ++ t1). rewrite app_assoc, <- H2. done.
Qed.

Lemma urlunparse_root (sc host q : str) :
  sc ≠ [] → host ≠ [] →
  match q with [] => True | c :: _ => c = "/"%char end →
  urlunparse sc host q [] [] [] = sc ++ "://" ++ host ++ q.
Proof.
  intros Hsc Hhost Hq. unfold urlunparse, urlunsplit.
  destruct host as [|x host]; [done|].
  destruct sc as [|y sc]; [done|].
  destruct q as [|c q].
  - simpl. unfold or_else. simpl. done.
  - subst c. simpl truthy. cbv iota. simpl orb. cbv iota.
    rewrite slice_to_1.
    simpl. unfold or_else. simpl. done.
Qed.

Lemma validate_root_valid r :
  valid_root r = true →
  Connection__validate_root (root_text r) = Return (validated_root r).
Proof.
  intros (Hs & Hh & Hd & Hb & Hp & Hq & Hf & Hr)%valid_root_inv.
  unfold Connection__validate_root, urlparse, root_text.
  rewrite urlsplit_root by done.
  destruct (split_after_scheme_root (lower (root_scheme r)) _ _ _ Hd Hb Hp Hq Hf Hr)
    as (query & fragment & ->).
  simpl.
  assert (bool_decide (lower (root_scheme r) ∈ uses_params) = true) as ->.
  { apply bool_decide_eq_true.
    apply elem_of_cons in Hs as [-> | Hs]; [set_solver|].
    apply list_elem_of_singleton in Hs as ->. set_solver. }
  simpl.
  pose proof (_splitparams_path (root_path r)) as Hpath.
  assert (∃ params,
            (if contains ";" (root_path r) then _splitparams (root_path r)
             else (root_path r, []))
            = (without_params (root_path r), params)) as [params ->].
  { destruct (contains ";" (root_path r)).
    - destruct (_splitparams (root_path r)) as [url params]. simpl in Hpath.
      subst url. eauto.
    - rewrite <- Hpath. eauto. }
  simpl.
  assert (bool_decide (lower (root_scheme r) ∈ ({[ "http"; "https" ]} : gset str)) = true)
    as ->.
  { apply bool_decide_eq_true.
    apply elem_of_cons in Hs as [-> | Hs]; [set_solver|].
    apply list_elem_of_singleton in Hs as ->. set_solver. }
  simpl. f_equal.
  assert (or_else (without_params (root_path r)) [] = without_params (root_path r)) as ->.
  { unfold or_else. by destruct (without_params (root_path r)). }
  rewrite without_trailing_slash_code. fold (validated_path (root_path r)).
  apply urlunparse_root.
  - destruct (scheme_chars_ok _ Hs) as (_ & _ & Hne). intros Hl. apply Hne.
    unfold lower in Hl. by destruct (root_scheme r).
  - done.
  - destruct (validated_path_prefix (root_path r)) as [t Ht].
    destruct (validated_path (root_path r)) as [|c q]; [done|].
    rewrite Ht in Hp. done.
Qed.

Lemma lower_char_idemp c : lower_char (lower_char c) = lower_char c.
Proof. by destruct c as [[] [] [] [] [] [] [] []]. Qed.

Lemma lower_idemp s : lower (lower s) = lower s.
Proof.
  unfold lower. induction s as [|c s IH]; simpl; [done|].
  by rewrite lower_char_idemp, IH.
Qed.

(** The validated root is itself a valid root, without anything after
    the path. *)
Lemma validated_parts_valid r :
  valid_root r = true → valid_root (validated_parts r) = true.
Proof.
  intros Hv. pose proof (valid_root_inv r Hv) as (_ & _ & _ & _ & Hp & _).
  unfold valid_root in *. simpl.
  rewrite !andb_true_iff in Hv. destruct Hv as ((((((Hs & Hh) & Hd) & Hb) & _) & Hc) & _).
  rewrite lower_idemp, Hs, Hh, Hd, Hb. simpl. rewrite andb_true_r.
  destruct (validated_path_prefix (root_path r)) as [t Ht].
  apply andb_true_iff. split.
  - destruct (validated_path (root_path r)) as [|c q]; [done|].
    rewrite Ht in Hp. simpl in Hp. subst c. done.
  - rewrite Ht, forallb_app in Hc. by apply andb_true_iff in Hc as [-> _].
Qed.

Lemma validated_parts_text r : root_text (validated_parts r) = validated_root r.
Proof. unfold root_text, validated_root. simpl. by rewrite app_nil_r. Qed.

(** A path that validation leaves alone: no trailing slash and no
    parameters on its last segment. *)
Lemma validated_path_fixed q :
  validated_path q = q ↔ endswith "/" q = false ∧ (";"%char ∉ last_segment q).
Proof.
  unfold validated_path. split.
  - intros Hfix.
    destruct (without_params_prefix q) as [t1 H1].
    destruct (without_trailing_slash_prefix (without_params q)) as [t2 H2].
    assert (without_params q = q) as Hwp.
    { apply (f_equal length) in H1, H2. rewrite length_app in H1, H2.
      rewrite Hfix in H2.
      destruct (without_params_prefix q) as [t Ht]. destruct t as [|x t].
      - by rewrite app_nil_r in Ht.
      - apply (f_equal length) in Ht. rewrite length_app in Ht. simpl in Ht. lia. }
    rewrite Hwp in Hfix. split.
    + rewrite <- without_trailing_slash_code in Hfix.
      destruct (endswith "/" q) eqn:He; [|done].
      apply endswith_spec in He as [t ->]. rewrite slice_to_minus_1 in Hfix.
      apply (f_equal length) in Hfix. rewrite length_app in Hfix. simpl in Hfix. lia.
    + destruct (last_segment_split q) as (a & Hq & Hseg & Ha).
      set (seg := last_segment q) in *. clearbody seg. subst q.
      rewrite without_params_split in Hwp by done.
      apply app_inv_head in Hwp.
      destruct (index_of ";" seg) as [k|] eqn:Hk; [|by apply index_of_None].
      destruct (index_of_Some _ _ _ Hk) as (s1 & s2 & -> & _ & <-).
      rewrite take_app_length in Hwp.
      apply (f_equal length) in Hwp. rewrite length_app in Hwp. simpl in Hwp. lia.
  - intros [He Hp].
    assert (without_params q = q) as ->.
    { destruct (last_segment_split q) as (a & Hq & Hseg & Ha).
      set (seg := last_segment q) in *. clearbody seg. subst q.
      rewrite without_params_split by done.
      by apply index_of_None in Hp as ->. }
    rewrite <- without_trailing_slash_code. by rewrite He.
Qed.
End validate_root.

(** C1 (as amended).  For a valid root, [_validate_root] lowercases the
    scheme, keeps host and path, and drops the parameters of the last path
    segment, one trailing slash, the query and the fragment: with no [;]
    in the path, only the trailing slash leaves the path.  Validating the
    result once more gives it back exactly when the validated path has no
    trailing slash left and no [;] in its last segment. *)
Theorem validate_root_spec (r : RootParts) :
  valid_root r = true →
  Connection__validate_root (root_text r) = Return (validated_root r)
  ∧ ((";"%char ∉ root_path r) →
     validated_root r
     = PyStr.lower (root_scheme r) ++ "://" ++ root_host r
       ++ without_trailing_slash (root_path r))
  ∧ (Connection__validate_root (validated_root r) = Return (validated_root r)
     ↔ PyStr.endswith "/" (validated_path (root_path r)) = false
       ∧ (";"%char ∉ last_segment (validated_path (root_path r)))).
Proof.
  intros Hv. split_and!; [by apply validate_root_valid | |].
  { intros Hp. unfold validated_root, validated_path. do 3 f_equal.
    rewrite <- _splitparams_path. by apply contains_false in Hp as ->. }
  rewrite <- validated_parts_text.
  rewrite (validate_root_valid _ (validated_parts_valid r Hv)).
  rewrite <- validated_path_fixed.
  unfold validated_root, validated_parts, root_text. simpl.
  rewrite lower_idemp, app_nil_r. split.
  - intros [= H]. apply app_inv_head in H. apply (app_inv_head "://") in H.
    by apply app_inv_head in H.
  - by intros ->.
Qed.

Lemma validate_root_spec_witness :
  valid_root (mkRoot "HTTPS" "foo.com" "/bar/" "?q=1#top") = true
  ∧ Connection__validate_root "HTTPS://foo.com/bar/?q=1#top" = Return "https://foo.com/bar"
  ∧ Connection__validate_root "https://foo.com/bar" = Return "https://foo.com/bar".
Proof.
  destruct (validate_root_spec (mkRoot "HTTPS" "foo.com" "/bar/" "?q=1#top") eq_refl)
    as (Hone & _ & Htwice).
  split_and!; [reflexivity | exact Hone |].
  apply Htwice. split; [reflexivity | absent_char].
Defined.

(** C1, as stated, fails: a root whose path ends with two slashes is valid,
    and validating it twice does not give what validating it once gives. *)
Lemma validate_root_not_idempotent :
  ¬ (∀ r v, valid_root r = true →
            Connection__validate_root (root_text r) = Return v →
            Connection__validate_root v = Return v).
Proof.
  intros H.
  specialize (H (mkRoot "http" "a.com" "//" []) "http://a.com/" eq_refl eq_refl).
  discriminate H.
Qed.

(** Parameters on a segment before a trailing slash have the same effect:
    they survive the first validation and are cut by the second. *)
Lemma validate_root_params_twice :
  Connection__validate_root "http://a.com/foo;v=1/" = Return "http://a.com/foo;v=1"
  ∧ Connection__validate_root "http://a.com/foo;v=1" = Return "http://a.com/foo".
Proof. split; reflexivity. Qed.

(** * Requests *)
Section request.
Import PyStr.

Lemma leading_slash_code path :
  (if negb (startswith "/" path) then "/" ++ path else path) = leading_slash path.
Proof.
  destruct path as [|c p]; [done|]. simpl.
  rewrite bool_decide_decide. destruct (decide ("/"%char = c)) as [<- | Hc].
  - by rewrite decide_True.
  - by rewrite decide_False by congruence.
Qed.

Lemma with_suffix_code suffix path :
  (if truthy suffix && negb (endswith suffix path) then path ++ suffix else path)
  = with_suffix suffix path.
Proof.
  unfold with_suffix. destruct suffix as [|c s]; [done|].
  rewrite decide_False by done. simpl. by destruct (endswith _ _).
Qed.

Lemma effective_suffix_code c path_suffix :
  (if is_NotProvided path_suffix then PATH_SUFFIX (Connection_cls c)
   else PyRepr.to_str path_suffix) = effective_suffix c path_suffix.
Proof. by destruct path_suffix. Qed.

Lemma request_body_code data data_mode :
  request_body data data_mode
  = if negb (is_NotProvided data) then
      if is_JSON data_mode then text ← json.dumps data; Return (Some (VStr text))
      else Return (Some data)
    else Return None.
Proof. destruct data; try done; by destruct data_mode as [| | | | |[]| |]. Qed.

Lemma request_kwargs_code body headers :
  request_kwargs body headers
  = let kwargs : gmap str PyVal :=
      match body with Some b => <[("data" : str) := b]> ∅ | None => ∅ end in
    if negb (is_NotProvided headers) then <[("headers" : str) := headers]> kwargs
    else kwargs.
Proof. by destruct headers, body. Qed.

(** What a request with a string for a path does: it makes sure the
    connection has a client, then hands the client the normalised URL
    with the body and the headers, or raises what the serialisation of
    the body raises. *)
Lemma Connection_request_run h self c method path data data_mode headers path_suffix :
  h !! self = Some (OConnection c) →
  Connection_request self method (VStr path) data data_mode headers path_suffix h
  = ((ensure_client self c h).1,
     body ← request_body data data_mode;
     Return (mkClientCall (ensure_client self c h).2 (lower method)
               (Connection_root c ++ sent_path c path path_suffix)
               (request_kwargs body headers))).
Proof.
  intros Hself. unfold Connection_request, sent_path.
  rewrite <- effective_suffix_code, <- with_suffix_code, <- leading_slash_code.
  rewrite request_body_code.
  unfold mbind, mret, Py_bind, Py_ret, Result_bind, lift, new, store, load_connection.
  rewrite Hself. unfold ensure_client.
  destruct (Connection_client c) as [client|]; cbv zeta; cbn [fst snd].
  all: destruct (is_NotProvided data); cbn [negb].
  all: try (destruct (is_JSON data_mode); [destruct (json.dumps data)|]).
  all: try rewrite request_kwargs_code; done.
Qed.

Lemma leading_slash_starts path : ∃ t, leading_slash path = "/" ++ t.
Proof.
  destruct path as [|c p]; simpl; [by eexists|].
  case_decide; [subst c|]; by eexists.
Qed.

Lemma leading_slash_cases path :
  leading_slash path = path
  ∨ (leading_slash path = "/" ++ path ∧ ¬ ∃ t, path = "/" ++ t).
Proof.
  destruct path as [|c p]; simpl.
  - right. split; [done | by intros [t Ht]].
  - case_decide; [by left|]. right. split; [done|].
    intros [t Ht]. simplify_eq.
Qed.

Lemma with_suffix_cases suffix base :
  (with_suffix suffix base = base ++ suffix ∧ suffix ≠ [] ∧ ¬ (∃ t, base = t ++ suffix))
  ∨ (with_suffix suffix base = base ∧ (suffix = [] ∨ ∃ t, base = t ++ suffix)).
Proof.
  unfold with_suffix. case_decide as Hs; [right; auto|].
  destruct (endswith suffix base) eqn:He.
  - right. apply endswith_spec in He. auto.
  - left. split_and!; [done | done |]. intros He'%endswith_spec. congruence.
Qed.

(** A request made with keywords only. *)
Lemma Connection_request_apply_keywords self method path kwargs :
  dom kwargs ⊆ list_to_set request_optional →
  Connection_request_apply self method path [] kwargs
  = Connection_request self method path
      (default VNotProvided (kwargs !! ("data" : str)))
      (default (VMode FORM) (kwargs !! ("data_mode" : str)))
      (default VNotProvided (kwargs !! ("headers" : str)))
      (default VNotProvided (kwargs !! ("path_suffix" : str))).
Proof.
  intros Hdom. unfold Connection_request_apply.
  rewrite bool_decide_eq_true_2 by (simpl; lia).
  by rewrite bool_decide_eq_true_2 by done.
Qed.
End request.

(** C2.  [request] sends [root + path], where the path has been given a
    leading slash if it had none and then the suffix in force (the
    [path_suffix] argument when provided, else [PATH_SUFFIX], which is
    ["/"] on [Connection]) exactly when that suffix is not empty and does
    not already end the path. *)
Theorem request_path_rule (h : heap) (self : loc) (c : Connection) (method path : str)
    (data data_mode headers path_suffix : PyVal) :
  h !! self = Some (OConnection c) →
  let suffix := effective_suffix c path_suffix in
  let base := leading_slash path in
  let sent := sent_path c path path_suffix in
  Connection_request self method (VStr path) data data_mode headers path_suffix h
  = ((ensure_client self c h).1,
     body ← request_body data data_mode;
     Return (mkClientCall (ensure_client self c h).2 (PyStr.lower method)
               (Connection_root c ++ sent) (request_kwargs body headers)))
  ∧ (∃ t, sent = "/" ++ t)
  ∧ (base = path ∨ (base = "/" ++ path ∧ ¬ ∃ t, path = "/" ++ t))
  ∧ (path_suffix = VNotProvided → suffix = PATH_SUFFIX (Connection_cls c))
  ∧ (∀ s, path_suffix = VStr s → suffix = s)
  ∧ PATH_SUFFIX Connection_class = "/"
  ∧ ((sent = base ++ suffix ∧ suffix ≠ [] ∧ ¬ (∃ t, base = t ++ suffix))
     ∨ (sent = base ∧ (suffix = [] ∨ ∃ t, base = t ++ suffix))).
Proof.
  intros Hself suffix base sent. split_and!.
  - by apply Connection_request_run.
  - subst sent. unfold sent_path. fold suffix base.
    destruct (leading_slash_starts path) as [t Ht]. fold base in Ht.
    destruct (with_suffix_cases suffix base) as [(-> & _) | (-> & _)].
    + exists (t ++ suffix). by rewrite Ht.
    + by exists t.
  - apply leading_slash_cases.
  - by intros ->.
  - by intros s ->.
  - done.
  - apply with_suffix_cases.
Qed.

Lemma request_path_rule_witness :
  httpbin_heap !! 1%positive = Some (OConnection httpbin)
  ∧ ∃ h' client,
      Connection_request 1%positive "GET" (VStr "dummy_get")
        VNotProvided (VMode FORM) VNotProvided VNotProvided httpbin_heap
      = (h', Return (mkClientCall client "get" "https://httpbin.org/dummy_get/" ∅)).
Proof.
  split; [reflexivity|].
  destruct (request_path_rule httpbin_heap 1%positive httpbin
              "GET" "dummy_get" VNotProvided (VMode FORM) VNotProvided VNotProvided
              eq_refl) as [Hrun _].
  eexists _, _. exact Hrun.
Defined.

(** C6.  When [data] is provided, the client receives the JSON text of
    [data] in JSON mode and [data] itself in any other mode, FORM being
    the default; when [data] is omitted the client receives no [data]
    argument at all, which an explicit [None] does not amount to. *)
Theorem request_body_rule (h : heap) (self : loc) (c : Connection) (method path : str)
    (data data_mode headers path_suffix : PyVal) :
  h !! self = Some (OConnection c) →
  let outcome d m :=
    (Connection_request self method (VStr path) d m headers path_suffix h).2 in
  let with_keywords kwargs :=
    (Connection_request_apply self method (VStr path) [] kwargs h).2 in
  (data ≠ VNotProvided → ∀ text, json.dumps data = Return text →
     ∃ call, outcome data (VMode JSON) = Return call
             ∧ call_kwargs call !! ("data" : str) = Some (VStr text))
  ∧ (data ≠ VNotProvided → data_mode ≠ VMode JSON →
     ∃ call, outcome data data_mode = Return call
             ∧ call_kwargs call !! ("data" : str) = Some data)
  ∧ (data ≠ VNotProvided →
     ∃ call, with_keywords {[ ("data" : str) := data ]} = Return call
             ∧ call_kwargs call !! ("data" : str) = Some data)
  ∧ (∃ call, outcome VNotProvided data_mode = Return call
             ∧ call_kwargs call !! ("data" : str) = None)
  ∧ (∃ call, with_keywords ∅ = Return call
             ∧ call_kwargs call !! ("data" : str) = None)
  ∧ (∃ call, with_keywords {[ ("data" : str) := VNone ]} = Return call
             ∧ call_kwargs call !! ("data" : str) = Some VNone)
  ∧ json.dumps (VDict [("foo" : str, VStr "bar")])
    = Return ("{" ++ [PyRepr.dquote] ++ "foo" ++ [PyRepr.dquote] ++ ": "
              ++ [PyRepr.dquote] ++ "bar" ++ [PyRepr.dquote] ++ "}").
Proof.
  intros Hself outcome with_keywords.
  assert (∀ d m hd ps body,
            request_body d m = Return body →
            ∃ call, (Connection_request self method (VStr path) d m hd ps h).2 = Return call
                    ∧ call_kwargs call !! ("data" : str) = body) as Hrun.
  { intros d m hd ps body Hbody.
    rewrite (Connection_request_run _ _ _ _ _ _ _ _ _ Hself). cbn [snd].
    rewrite Hbody. eexists. split; [reflexivity|]. cbn [call_kwargs].
    unfold request_kwargs.
    destruct hd, body; by simplify_map_eq. }
  assert (∀ d, with_keywords {[ ("data" : str) := d ]}
               = (Connection_request self method (VStr path) d (VMode FORM)
                    VNotProvided VNotProvided h).2) as Hkw.
  { intros d. subst with_keywords. cbv beta.
    rewrite Connection_request_apply_keywords.
    - by simplify_map_eq.
    - rewrite dom_singleton_L. set_solver. }
  split_and!.
  - intros Hd text Htext. apply Hrun. rewrite request_body_code.
    replace (is_NotProvided data) with false by (by destruct data).
    cbn [negb is_JSON]. by rewrite Htext.
  - intros Hd Hm. apply Hrun. destruct data; try done.
    all: by destruct data_mode as [| | | | |[]| |].
  - intros Hd. rewrite Hkw. apply Hrun. by destruct data.
  - by apply Hrun.
  - subst with_keywords. cbv beta. rewrite Connection_request_apply_keywords by set_solver.
    rewrite !lookup_empty. by apply Hrun.
  - rewrite Hkw. by apply Hrun.
  - done.
Qed.

Lemma request_body_rule_witness :
  local_heap !! 1%positive = Some (OConnection local_connection)
  ∧ ∃ call,
      (Connection_request 1%positive "post" (VStr "dummy_post_json")
         (VDict [("foo" : str, VStr "bar")]) (VMode JSON) VNotProvided VNotProvided
         local_heap).2
      = Return call
      ∧ call_kwargs call !! ("data" : str)
        = Some (VStr ("{" ++ [PyRepr.dquote] ++ "foo" ++ [PyRepr.dquote] ++ ": "
                      ++ [PyRepr.dquote] ++ "bar" ++ [PyRepr.dquote] ++ "}")).
Proof.
  split; [reflexivity|].
  destruct (request_body_rule local_heap 1%positive local_connection
              "post" "dummy_post_json" (VDict [("foo" : str, VStr "bar")]) (VMode JSON)
              VNotProvided VNotProvided eq_refl) as [Hjson _].
  apply Hjson; [discriminate | reflexivity].
Defined.

(** C10.  An explicit [path_suffix=None] is turned into the text [None],
    which is appended to the path unless the path already ends with it:
    [request('get', '/foo', path_suffix=None)] asks for [/fooNone]. *)
Theorem request_path_suffix_None (h : heap) (self : loc) (c : Connection)
    (method path : str) :
  h !! self = Some (OConnection c) →
  let base := leading_slash path in
  effective_suffix c VNone = "None"
  ∧ (∃ call,
       (Connection_request_apply self method (VStr path) []
          {[ ("path_suffix" : str) := VNone ]} h).2 = Return call
       ∧ call_url call
         = Connection_root c
           ++ (if PyStr.endswith "None" base then base else base ++ "None"))
  ∧ (∃ call,
       (Connection_request_apply self "get" (VStr "/foo") []
          {[ ("path_suffix" : str) := VNone ]} h).2 = Return call
       ∧ call_url call = Connection_root c ++ "/fooNone").
Proof.
  intros Hself base.
  assert (∀ m p, ∃ call,
            (Connection_request_apply self m (VStr p) []
               {[ ("path_suffix" : str) := VNone ]} h).2 = Return call
            ∧ call_url call = Connection_root c ++ sent_path c p VNone) as Hrun.
  { intros m p. rewrite Connection_request_apply_keywords
      by (rewrite dom_singleton_L; set_solver).
    simplify_map_eq.
    rewrite (Connection_request_run _ _ _ _ _ _ _ _ _ Hself). cbn.
    eexists. split; reflexivity. }
  split_and!.
  - done.
  - destruct (Hrun method path) as (call & Hcall & Hurl). exists call. split; [done|].
    rewrite Hurl. unfold sent_path, with_suffix. simpl. done.
  - destruct (Hrun "get" "/foo") as (call & Hcall & Hurl). exists call. split; [done|].
    by rewrite Hurl.
Qed.

Lemma request_path_suffix_None_witness :
  local_heap !! 1%positive = Some (OConnection local_connection)
  ∧ ∃ call,
      (Connection_request_apply 1%positive "get" (VStr "/foo") []
         {[ ("path_suffix" : str) := VNone ]} local_heap).2 = Return call
      ∧ call_url call = "http://localhost/fooNone".
Proof.
  split; [reflexivity|].
  destruct (request_path_suffix_None local_heap 1%positive local_connection
              "get" "/foo" eq_refl) as (_ & _ & Hfoo).
  exact Hfoo.
Defined.

(** C7.  A root whose scheme is neither [http] nor [https] makes the
    construction fail: the assertion of [_validate_root] (the
    [InvalidRootError] of the documentation) reaches the caller and no
    connection is made.  A root without a scheme, such as ["foo"], is one. *)
Theorem Connection_rejects_root (cls : ConnectionClass) (root : str)
    (client : option loc) (h : heap) :
  (∀ parsed, urllib.urlparse root = Return parsed →
             urllib.scheme parsed ≠ "http" → urllib.scheme parsed ≠ "https" →
             new_Connection cls root client h = (h, Raise AssertionError))
  ∧ new_Connection cls "foo" client h = (h, Raise AssertionError)
  ∧ (∀ h' self, new_Connection cls root client h = (h', Return self) →
                ∃ parsed, urllib.urlparse root = Return parsed
                          ∧ (urllib.scheme parsed = "http" ∨ urllib.scheme parsed = "https")).
Proof.
  split_and!.
  - intros parsed Hparsed Hhttp Hhttps.
    unfold new_Connection, Connection__validate_root. rewrite Hparsed.
    unfold mbind, Py_bind, lift. simpl.
    rewrite bool_decide_eq_false_2 by set_solver. done.
  - done.
  - intros h' self. unfold new_Connection, Connection__validate_root.
    unfold mbind at 1. unfold Py_bind, lift.
    destruct (urllib.urlparse root) as [parsed|e]; simpl; [|done].
    case_bool_decide as Hs; simpl; [|done].
    intros _. exists parsed. split; [done|]. set_solver.
Qed.

Lemma Connection_rejects_root_witness :
  new_Connection Connection_class "ftp://example.org/" None ∅ = (∅, Raise AssertionError)
  ∧ new_Connection Connection_class "foo" None ∅ = (∅, Raise AssertionError).
Proof.
  destruct (Connection_rejects_root Connection_class "ftp://example.org/" None ∅)
    as (Hscheme & Hfoo & _).
  split; [|exact Hfoo].
  apply (Hscheme (urllib.mkParse "ftp" "example.org" "/" [] [] []));
    [reflexivity | discriminate | discriminate].
Defined.

(** A root that [urlparse] itself refuses does not reach the assertion:
    the construction fails with the error of the parser. *)
Lemma Connection_unparsable_root (cls : ConnectionClass) (client : option loc) (h : heap) :
  new_Connection cls "ftp://[example" client h = (h, Raise ValueError).
Proof. reflexivity. Qed.

(** * Executables *)

(** An empty path and a lone slash ask for the same thing. *)
Lemma Connection_request_empty_path self method data data_mode headers path_suffix :
  Connection_request self method (VStr []) data data_mode headers path_suffix
  = Connection_request self method (VStr "/") data data_mode headers path_suffix.
Proof. reflexivity. Qed.

Lemma Connection_request_apply_empty_path self method args kwargs :
  Connection_request_apply self method (VStr []) args kwargs
  = Connection_request_apply self method (VStr "/") args kwargs.
Proof.
  unfold Connection_request_apply. by rewrite Connection_request_empty_path.
Qed.

(** The code, step by step: the path found in the documented order goes
    through [or_slash] before it reaches [request]. *)
Lemma Executable_call_run (h : heap) (self : loc) (e : Executable)
    (args : list PyVal) (kwargs : gmap str PyVal) :
  h !! self = Some (OExecutable e) →
  Executable___call__ self args kwargs h
  = Connection_request_apply (Executable_connection e) (Executable_method e)
      (or_slash (resolve_path e args kwargs).1.1)
      (resolve_path e args kwargs).1.2
      (resolve_path e args kwargs).2 h.
Proof.
  intros Hself. unfold Executable___call__, resolve_path, or_slash.
  unfold mbind at 1. unfold Py_bind, load_executable. rewrite Hself.
  destruct (Executable_path e) as [[|c p]|]; simpl; [|done|].
  all: destruct (kwargs !! ("path" : str)) as [v|]; simpl;
    [by destruct (py_truthy v)|].
  all: destruct args as [|v args]; simpl; [done | by destruct (py_truthy v)].
Qed.

Lemma or_slash_usable (v : PyVal) :
  usable_path v = true → or_slash v = v ∨ (v = VStr [] ∧ or_slash v = VStr "/").
Proof.
  unfold usable_path, or_slash. intros Hv.
  destruct v as [| | | |[|c s]| | |]; simpl in *; try rewrite Hv; auto; done.
Qed.

(** C5.  An executable called with arguments asks its connection for
    [request(method, path, *args, **kwargs)], where the path is its own
    when it has one (one that is neither [None] nor empty), else the
    [path] keyword (taken out of the keywords), else the first positional
    argument (taken out of the arguments), else ["/"]; and it returns what
    [request] returns.  The path found is a string, as [request]
    requires, or at least a value that counts as true. *)
Theorem Executable_call_resolution (h : heap) (self : loc) (e : Executable)
    (args : list PyVal) (kwargs : gmap str PyVal) :
  h !! self = Some (OExecutable e) →
  usable_path (resolve_path e args kwargs).1.1 = true →
  Executable___call__ self args kwargs h
  = Connection_request_apply (Executable_connection e) (Executable_method e)
      (resolve_path e args kwargs).1.1
      (resolve_path e args kwargs).1.2
      (resolve_path e args kwargs).2 h.
Proof.
  intros Hself Hpath. rewrite (Executable_call_run _ _ _ _ _ Hself).
  destruct (or_slash_usable _ Hpath) as [-> | [-> ->]]; [done|].
  by rewrite Connection_request_apply_empty_path.
Qed.

Lemma Executable_call_resolution_witness :
  executable_heap !! 2%positive = Some (OExecutable plain_get)
  ∧ usable_path (VStr "/dummy_get/") = true
  ∧ ∃ call,
      (Executable___call__ 2%positive [] {[ ("path" : str) := VStr "/dummy_get/" ]}
         executable_heap).2 = Return call
      ∧ call_url call = "http://localhost/dummy_get/" ∧ call_method call = "get"
      ∧ call_client call = 3%positive.
Proof.
  split_and!; [reflexivity | reflexivity |].
  pose proof (Executable_call_resolution executable_heap 2%positive plain_get
                [] {[ ("path" : str) := VStr "/dummy_get/" ]} eq_refl eq_refl) as Hcall.
  rewrite Hcall. eexists. split_and!; reflexivity.
Defined.

(** An executable made with an empty path resolves its path like one made
    without a path. *)
Lemma Executable_empty_path (connection : loc) (method : str)
    (args : list PyVal) (kwargs : gmap str PyVal) :
  resolve_path (mkExecutable connection method (Some [])) args kwargs
  = resolve_path (mkExecutable connection method None) args kwargs.
Proof. reflexivity. Qed.

(** * Accumulators *)
Section accumulators.
Import PyStr.

Lemma new_fresh (o : Obj) (h : heap) :
  new o h = (<[fresh (dom h) := o]> h, Return (fresh (dom h)))
  ∧ h !! fresh (dom h) = None.
Proof. split; [done|]. apply not_elem_of_dom, is_fresh. Qed.

(** ** Segments *)

Lemma segments_app a b : segments (a ++ b) = segments a ++ segments b.
Proof. unfold segments. by rewrite map_app, concat_app. Qed.

Lemma segments_parts (ps : list str) :
  Forall (λ s : str, "/"%char ∉ s) ps → segments (map ArgStr ps) = ps.
Proof.
  unfold segments. induction 1 as [|p ps Hp _ IH]; simpl; [done|].
  rewrite split_absent by done. by rewrite IH.
Qed.

Lemma segments_no_slash args : Forall (λ s : str, "/"%char ∉ s) (segments args).
Proof.
  unfold segments. apply Forall_concat, Forall_forall.
  intros l (a & <- & _)%list_elem_of_In%in_map_iff. apply split_no_sep.
Qed.

Lemma segments_nonempty args : args ≠ [] → segments args ≠ [].
Proof.
  destruct args as [|a args]; [done|]. intros _. unfold segments. simpl.
  pose proof (split_nonempty "/" (CallableArg_str a)).
  by destruct (split "/" (CallableArg_str a)).
Qed.

Lemma Callable_init_wf connection args : Callable_wf (Callable___init__ connection args).
Proof. apply segments_no_slash. Qed.

Lemma Callable_init_extend connection (c : Callable) args :
  Callable_wf c →
  Callable___init__ connection (map ArgStr (Callable_parts c) ++ args)
  = mkCallable connection (Callable_parts c ++ segments args).
Proof.
  intros Hwf. unfold Callable___init__. fold (segments (map ArgStr (Callable_parts c) ++ args)).
  by rewrite segments_app, segments_parts.
Qed.

(** ** Decimal numerals hold no slash *)

Lemma uint_no_slash (d : Decimal.uint) :
  "/"%char ∉ String.list_ascii_of_string (NilEmpty.string_of_uint d).
Proof.
  induction d as [|d IH|d IH|d IH|d IH|d IH|d IH|d IH|d IH|d IH|d IH]; simpl;
    [apply not_elem_of_nil | ..].
  all: rewrite elem_of_cons; by intros [?|?].
Qed.

Lemma of_int_no_slash n : "/"%char ∉ of_int n.
Proof.
  unfold of_int, NilZero.string_of_int.
  assert (∀ d, "/"%char ∉ String.list_ascii_of_string (NilZero.string_of_uint d)) as Hd.
  { intros d. destruct d; try apply uint_no_slash.
    simpl. rewrite list_elem_of_singleton. done. }
  destruct (Z.to_int n) as [d|d]; [apply Hd|].
  simpl. rewrite elem_of_cons. intros [?|?]; [done | by eapply Hd].
Qed.

(** ** Extending an accumulator *)

Lemma Callable_call_run h self (c : Callable) args :
  h !! self = Some (OCallable c) → Callable_wf c →
  Callable___call__ self args h
  = match args with
    | [] => (h, Return self)
    | _ :: _ =>
        (<[fresh (dom h) :=
             OCallable (mkCallable (Callable_connection c)
                          (Callable_parts c ++ segments args))]> h,
         Return (fresh (dom h)))
    end.
Proof.
  intros Hself Hwf. destruct args as [|a args]; [done|].
  unfold Callable___call__, new_Callable.
  unfold mbind, Py_bind, load_callable. rewrite Hself.
  by rewrite Callable_init_extend.
Qed.

Lemma Callable___getattr___run h self (c : Callable) attr :
  h !! self = Some (OCallable c) → Callable_wf c →
  Callable___getattr__ self attr h
  = (<[fresh (dom h) :=
         if bool_decide (upper attr ∈ HTTP_METHODS)
         then OExecutable (mkExecutable (Callable_connection c) (upper attr)
                             (Some (Callable_path c)))
         else OCallable (mkCallable (Callable_connection c)
                           (Callable_parts c ++ split "/" attr))]> h,
     Return (fresh (dom h))).
Proof.
  intros Hself Hwf. unfold Callable___getattr__, new_Callable, new_Executable.
  unfold mbind, Py_bind, load_callable. rewrite Hself.
  case_bool_decide; [done|].
  rewrite Callable_init_extend by done.
  unfold segments. simpl. by rewrite app_nil_r.
Qed.

Lemma Connection___getattr___run h self attr :
  Connection___getattr__ self attr h
  = (<[fresh (dom h) :=
         if bool_decide (upper attr ∈ HTTP_METHODS)
         then OExecutable (mkExecutable self (upper attr) None)
         else OCallable (mkCallable self (split "/" attr))]> h,
     Return (fresh (dom h))).
Proof.
  unfold Connection___getattr__, new_Callable, new_Executable, Callable___init__.
  case_bool_decide; [done|]. simpl. by rewrite app_nil_r.
Qed.

(** ** Members and method names do not meet *)

Lemma members_not_methods attr :
  upper attr ∈ HTTP_METHODS →
  (attr ∉ Connection_members ++ object_members)
  ∧ (attr ∉ Callable_members ++ object_members).
Proof.
  assert (Forall (λ a, upper a ∉ HTTP_METHODS)
            (Connection_members ++ Callable_members ++ object_members)) as Hall.
  { apply Forall_forall. intros a Ha%list_elem_of_In.
    assert (forallb (λ a, negb (bool_decide (upper a ∈ HTTP_METHODS)))
              (Connection_members ++ Callable_members ++ object_members) = true)
      as Hb by (by vm_compute).
    rewrite forallb_forall in Hb. specialize (Hb a Ha).
    by apply negb_true_iff, bool_decide_eq_false in Hb. }
  rewrite Forall_forall in Hall. intros Hm.
  split; intros Hin; apply (Hall attr); try done.
  all: rewrite !elem_of_app in *; tauto.
Qed.

(** Attribute access that falls through to [__getattr__]. *)
Lemma Connection_getattr_other h self (c : Connection) name :
  h !! self = Some (OConnection c) →
  (name ∉ Connection_members ++ object_members) →
  Connection_getattr self name h
  = (l ← Connection___getattr__ self name; mret (AObject l)) h.
Proof.
  intros Hself Hname. unfold Connection_getattr.
  unfold mbind at 1. unfold Py_bind at 1. unfold load_connection. rewrite Hself.
  rewrite (bool_decide_eq_false_2 _ Hname).
  repeat (case_decide; [subst name; exfalso; apply Hname; set_solver|]).
  done.
Qed.

Lemma Callable_getattr_other h self (c : Callable) name :
  h !! self = Some (OCallable c) →
  (name ∉ Callable_members ++ object_members) →
  Callable_getattr self name h
  = (l ← Callable___getattr__ self name; mret (AObject l)) h.
Proof.
  intros Hself Hname. unfold Callable_getattr.
  unfold mbind at 1. unfold Py_bind at 1. unfold load_callable at 1. rewrite Hself.
  rewrite (bool_decide_eq_false_2 _ Hname).
  repeat (case_decide; [subst name; exfalso; apply Hname; set_solver|]).
  done.
Qed.
End accumulators.

Lemma HTTP_METHODS_cases (P : str → Prop) :
  Forall P [ "PUT"; "POST"; "GET"; "OPTIONS"; "PATCH"; "DELETE"; "HEAD" ] →
  ∀ m, m ∈ HTTP_METHODS → P m.
Proof.
  intros HP m Hm. rewrite Forall_forall in HP. apply HP.
  unfold HTTP_METHODS, hdrs.METH_ALL in Hm.
  rewrite elem_of_difference, !elem_of_union, !elem_of_singleton in Hm.
  destruct Hm as [Hm Hn]. rewrite !elem_of_cons.
  destruct_or!; subst m; auto 10.
  all: exfalso; apply Hn; auto.
Qed.

(** C3 (as amended).  The methods are the standard ones without CONNECT
    and TRACE.  A name that is a method in any case (upper, lower or
    capitalised among them) gives, on a connection, an executable with the
    method in upper case and no path, and on an accumulator one with the
    method in upper case and the path of the accumulator.  Any other name
    that is not already a member of the object gives a new accumulator,
    extended with the name. *)
Theorem method_dispatch :
  (∀ m, m ∈ HTTP_METHODS ↔
        m ∈ ([ "GET"; "HEAD"; "POST"; "PUT"; "DELETE"; "PATCH"; "OPTIONS" ] : list str))
  ∧ (∀ m, m ∈ HTTP_METHODS →
          PyStr.upper m = m ∧ PyStr.upper (PyStr.lower m) = m
          ∧ PyStr.upper (PyStr.capitalize m) = m)
  ∧ (∀ (h : heap) self c attr,
       h !! self = Some (OConnection c) → PyStr.upper attr ∈ HTTP_METHODS →
       Connection_getattr self attr h
       = (<[fresh (dom h) := OExecutable (mkExecutable self (PyStr.upper attr) None)]> h,
          Return (AObject (fresh (dom h)))))
  ∧ (∀ (h : heap) self c attr,
       h !! self = Some (OCallable c) → PyStr.upper attr ∈ HTTP_METHODS →
       Callable_getattr self attr h
       = (<[fresh (dom h) :=
              OExecutable (mkExecutable (Callable_connection c) (PyStr.upper attr)
                             (Some (Callable_path c)))]> h,
          Return (AObject (fresh (dom h)))))
  ∧ (∀ (h : heap) self c attr,
       h !! self = Some (OConnection c) → (PyStr.upper attr ∉ HTTP_METHODS) →
       (attr ∉ Connection_members ++ object_members) →
       Connection_getattr self attr h
       = (<[fresh (dom h) := OCallable (mkCallable self (PyStr.split "/" attr))]> h,
          Return (AObject (fresh (dom h)))))
  ∧ (∀ (h : heap) self c attr,
       h !! self = Some (OCallable c) → Callable_wf c →
       (PyStr.upper attr ∉ HTTP_METHODS) →
       (attr ∉ Callable_members ++ object_members) →
       Callable_getattr self attr h
       = (<[fresh (dom h) :=
              OCallable (mkCallable (Callable_connection c)
                           (Callable_parts c ++ PyStr.split "/" attr))]> h,
          Return (AObject (fresh (dom h))))).
Proof.
  split_and!.
  - intros m. split.
    + revert m. apply HTTP_METHODS_cases.
      repeat (constructor; [rewrite !elem_of_cons; auto 10|]). constructor.
    + rewrite !elem_of_cons, elem_of_nil. intros Hm.
      apply (bool_decide_eq_true_1 (m ∈ HTTP_METHODS)).
      destruct_or!; subst m; by vm_compute.
  - apply HTTP_METHODS_cases. by repeat constructor.
  - intros h self c attr Hself Hm.
    rewrite (Connection_getattr_other _ _ _ _ Hself) by (by apply members_not_methods).
    unfold mbind, Py_bind. rewrite Connection___getattr___run.
    by rewrite bool_decide_eq_true_2.
  - intros h self c attr Hself Hm.
    rewrite (Callable_getattr_other _ _ _ _ Hself) by (by apply members_not_methods).
    unfold Callable___getattr__, new_Executable.
    unfold mbind, Py_bind, load_callable. rewrite Hself.
    by rewrite bool_decide_eq_true_2.
  - intros h self c attr Hself Hm Hattr.
    rewrite (Connection_getattr_other _ _ _ _ Hself) by done.
    unfold mbind, Py_bind. rewrite Connection___getattr___run.
    by rewrite bool_decide_eq_false_2.
  - intros h self c attr Hself Hwf Hm Hattr.
    rewrite (Callable_getattr_other _ _ _ _ Hself) by done.
    unfold mbind, Py_bind. rewrite (Callable___getattr___run _ _ _ _ Hself Hwf).
    by rewrite bool_decide_eq_false_2.
Qed.

Lemma method_dispatch_witness :
  accumulator_heap !! 2%positive = Some (OCallable foo_bar)
  ∧ PyStr.upper "Get" ∈ HTTP_METHODS
  ∧ Callable_getattr 2%positive "Get" accumulator_heap
    = (<[3%positive := OExecutable (mkExecutable 1%positive "GET" (Some "/foo/bar"))]>
         accumulator_heap,
       Return (AObject 3%positive)).
Proof.
  assert (PyStr.upper "Get" ∈ HTTP_METHODS) as Hget.
  { apply (bool_decide_eq_true_1 (PyStr.upper "Get" ∈ HTTP_METHODS)). by vm_compute. }
  split_and!; [reflexivity | exact Hget |].
  destruct method_dispatch as (_ & _ & _ & Hcallable & _).
  exact (Hcallable accumulator_heap 2%positive foo_bar "Get" eq_refl Hget).
Defined.

(** C3, as stated, fails: [root] is not a method in any case, yet reading
    it on a connection gives the root and no accumulator. *)
Lemma reserved_name_is_not_a_segment :
  ¬ (∀ (h : heap) self c attr,
       h !! self = Some (OConnection c) → (PyStr.upper attr ∉ HTTP_METHODS) →
       ∃ h' l acc, Connection_getattr self attr h = (h', Return (AObject l))
                   ∧ h' !! l = Some (OCallable acc)).
Proof.
  intros H.
  destruct (H httpbin_heap 1%positive httpbin "root") as (h' & l & acc & Hget & _).
  - apply lookup_singleton_eq.
  - apply (bool_decide_eq_false_1 (PyStr.upper "root" ∈ HTTP_METHODS)). by vm_compute.
  - vm_compute in Hget. discriminate Hget.
Qed.

(** C8.  Calling an accumulator without arguments gives back the very
    same object and allocates nothing; calling it with arguments gives a
    new object, whose segments are those of the original followed by at
    least one more, and the original is left as it was. *)
Theorem Callable_call_identity (h : heap) (self : loc) (c : Callable) :
  h !! self = Some (OCallable c) → Callable_wf c →
  Callable___call__ self [] h = (h, Return self)
  ∧ ∀ args, args ≠ [] →
      ∃ l more,
        Callable___call__ self args h
        = (<[l := OCallable (mkCallable (Callable_connection c) (Callable_parts c ++ more))]> h,
           Return l)
        ∧ h !! l = None ∧ l ≠ self
        ∧ more = segments args ∧ more ≠ []
        ∧ (length (Callable_parts c) < length (Callable_parts c ++ more))%nat
        ∧ <[l := OCallable (mkCallable (Callable_connection c) (Callable_parts c ++ more))]> h
            !! self = Some (OCallable c)
        ∧ Callable_wf (mkCallable (Callable_connection c) (Callable_parts c ++ more)).
Proof.
  intros Hself Hwf. split; [done|]. intros args Hargs.
  exists (fresh (dom h)), (segments args).
  destruct (new_fresh (OCallable c) h) as [_ Hfresh].
  assert (fresh (dom h) ≠ self) as Hne by (intros Heq; rewrite Heq in Hfresh; congruence).
  pose proof (segments_nonempty args Hargs) as Hmore.
  split_and!; try done.
  - rewrite (Callable_call_run _ _ _ _ Hself Hwf). by destruct args.
  - rewrite length_app. destruct (segments args); [done | simpl; lia].
  - by rewrite lookup_insert_ne.
  - unfold Callable_wf. simpl. apply Forall_app. split; [done | apply segments_no_slash].
Qed.

Lemma Callable_call_identity_witness :
  accumulator_heap !! 2%positive = Some (OCallable foo_bar)
  ∧ Callable___call__ 2%positive [] accumulator_heap = (accumulator_heap, Return 2%positive)
  ∧ ∃ l, Callable___call__ 2%positive [ArgStr "baz"; ArgInt 1] accumulator_heap
         = (<[l := OCallable (mkCallable 1%positive [ "foo"; "bar"; "baz"; "1" ])]>
              accumulator_heap,
            Return l)
         ∧ l ≠ 2%positive.
Proof.
  assert (Callable_wf foo_bar) as Hwf by (repeat constructor; absent_char).
  destruct (Callable_call_identity accumulator_heap 2%positive foo_bar eq_refl Hwf)
    as [Hsame Hnew].
  split_and!; [reflexivity | exact Hsame |].
  destruct (Hnew [ArgStr "baz"; ArgInt 1]) as (l & more & Hcall & _ & Hne & -> & _);
    [discriminate|].
  exists l. split; [exact Hcall | exact Hne].
Defined.

(** * Chains *)
Section chains.
Import PyStr.

Lemma slash_path_join (l : list str) : "/" ++ join "/" l = slash_path l.
Proof.
  destruct l as [|x l]; [done|]. unfold slash_path.
  revert x. induction l as [|y l IH]; intros x.
  - simpl. by rewrite app_nil_r.
  - change (join "/" (x :: y :: l)) with (x ++ "/" ++ join "/" (y :: l)).
    rewrite IH. simpl. done.
Qed.

Lemma extend_callable_run (h : heap) self (c : Callable) e :
  h !! self = Some (OCallable c) → Callable_wf c →
  extends_path Callable_members e = true →
  ∃ h' l,
    extend_callable self e h = (h', Return l)
    ∧ h' !! l = Some (OCallable (mkCallable (Callable_connection c)
                                   (Callable_parts c ++ extension_segments e))).
Proof.
  intros Hself Hwf He. destruct e as [attr | args]; simpl in *.
  - apply andb_true_iff in He as [Hm Hattr].
    apply negb_true_iff, bool_decide_eq_false in Hm, Hattr.
    unfold mbind at 1. unfold Py_bind at 1.
    rewrite (Callable_getattr_other _ _ _ _ Hself Hattr).
    unfold mbind, Py_bind. rewrite (Callable___getattr___run _ _ _ _ Hself Hwf).
    rewrite bool_decide_eq_false_2 by done. simpl.
    eexists _, _. split; [reflexivity|]. by rewrite lookup_insert_eq.
  - rewrite (Callable_call_run _ _ _ _ Hself Hwf). destruct args as [|a args].
    + exists h, self. split; [done|]. rewrite Hself. destruct c. simpl.
      by rewrite app_nil_r.
    + eexists _, _. split; [reflexivity|]. by rewrite lookup_insert_eq.
Qed.

Lemma extend_chain_run (es : list Extension) :
  ∀ (h : heap) self (c : Callable),
    h !! self = Some (OCallable c) → Callable_wf c →
    forallb (extends_path Callable_members) es = true →
    ∃ h' l,
      extend_chain self es h = (h', Return l)
      ∧ h' !! l = Some (OCallable (mkCallable (Callable_connection c)
                                     (Callable_parts c ++ concat (map extension_segments es)))).
Proof.
  induction es as [|e es IH]; intros h self c Hself Hwf Hes; simpl in *.
  - exists h, self. split; [done|]. rewrite Hself. destruct c. simpl. by rewrite app_nil_r.
  - apply andb_true_iff in Hes as [He Hes].
    destruct (extend_callable_run h self c e Hself Hwf He) as (h1 & l1 & Hrun & Hl1).
    destruct (IH h1 l1 _ Hl1) as (h' & l & Hchain & Hl); [|done|].
    { unfold Callable_wf. simpl. apply Forall_app. split; [done|].
      destruct e as [attr | args]; [apply split_no_sep | apply segments_no_slash]. }
    exists h', l. split.
    + unfold mbind, Py_bind. by rewrite Hrun.
    + rewrite Hl. simpl. by rewrite <- app_assoc.
Qed.

Lemma extend_connection_run (h : heap) self (c : Connection) e :
  h !! self = Some (OConnection c) →
  extends_path Connection_members e = true →
  ∃ h' l,
    extend_connection self e h = (h', Return l)
    ∧ h' !! l = Some (OCallable (mkCallable self (extension_segments e))).
Proof.
  intros Hself He. destruct e as [attr | args]; simpl in *.
  - apply andb_true_iff in He as [Hm Hattr].
    apply negb_true_iff, bool_decide_eq_false in Hm, Hattr.
    unfold mbind at 1. unfold Py_bind at 1.
    rewrite (Connection_getattr_other _ _ _ _ Hself Hattr).
    unfold mbind, Py_bind. rewrite Connection___getattr___run.
    rewrite bool_decide_eq_false_2 by done. simpl.
    eexists _, _. split; [reflexivity|]. by rewrite lookup_insert_eq.
  - eexists _, _. split; [reflexivity|]. by rewrite lookup_insert_eq.
Qed.
End chains.

(** C4.  A chain of extensions started on a connection ends with an
    accumulator whose segments are those the extensions contribute, in
    order, and whose path is ["/" + s1 + "/" + ... + "/" + sn] (["/"]
    without segments).  An integer argument contributes its decimal
    numeral.  An argument with a slash contributes what its two sides
    contribute one after the other: [acc('a/b')] and [acc('a')('b')] have
    the same segments. *)
Theorem accumulator_path :
  (∀ (h : heap) conn c first rest,
     h !! conn = Some (OConnection c) →
     extends_path Connection_members first = true →
     forallb (extends_path Callable_members) rest = true →
     ∃ h' l acc,
       (self ← extend_connection conn first; extend_chain self rest) h = (h', Return l)
       ∧ h' !! l = Some (OCallable acc)
       ∧ Callable_connection acc = conn
       ∧ Callable_parts acc = concat (map extension_segments (first :: rest))
       ∧ Callable_path acc = slash_path (Callable_parts acc))
  ∧ (∀ (h : heap) self c n,
       h !! self = Some (OCallable c) → Callable_wf c →
       parts_of (Callable___call__ self [ArgInt n] h)
       = Some (Callable_parts c ++ [PyStr.of_int n]))
  ∧ PyStr.of_int 1 = "1" ∧ PyStr.of_int 0 = "0" ∧ PyStr.of_int (-42) = "-42"
  ∧ (∀ (h : heap) self c x y,
       h !! self = Some (OCallable c) → Callable_wf c →
       parts_of (Callable___call__ self [ArgStr (x ++ "/" ++ y)] h)
       = parts_of ((a ← Callable___call__ self [ArgStr x];
                    Callable___call__ a [ArgStr y]) h)
       ∧ parts_of (Callable___call__ self [ArgStr (x ++ "/" ++ y)] h)
         = Some (Callable_parts c ++ PyStr.split "/" x ++ PyStr.split "/" y)).
Proof.
  split_and!; try done.
  - intros h conn c first rest Hconn Hfirst Hrest.
    destruct (extend_connection_run h conn c first Hconn Hfirst) as (h1 & l1 & Hrun & Hl1).
    destruct (extend_chain_run rest h1 l1 _ Hl1) as (h' & l & Hchain & Hl); [|done|].
    { destruct first as [attr | args]; [apply split_no_sep | apply segments_no_slash]. }
    eexists h', l, _. split_and!.
    + unfold mbind, Py_bind. by rewrite Hrun.
    + exact Hl.
    + done.
    + done.
    + unfold Callable_path. apply slash_path_join.
  - intros h self c n Hself Hwf.
    rewrite (Callable_call_run _ _ _ _ Hself Hwf). unfold parts_of.
    rewrite lookup_insert_eq. simpl. unfold segments. simpl.
    by rewrite split_absent, app_nil_r by apply of_int_no_slash.
  - intros h self c x y Hself Hwf.
    assert (parts_of (Callable___call__ self [ArgStr (x ++ "/" ++ y)] h)
            = Some (Callable_parts c ++ PyStr.split "/" x ++ PyStr.split "/" y)) as Hone.
    { rewrite (Callable_call_run _ _ _ _ Hself Hwf). unfold parts_of.
      rewrite lookup_insert_eq. simpl. unfold segments. simpl.
      by rewrite app_nil_r, split_app. }
    split; [|done]. rewrite Hone.
    unfold mbind, Py_bind. rewrite (Callable_call_run _ _ _ _ Hself Hwf).
    erewrite Callable_call_run; [| apply lookup_insert_eq |].
    2:{ unfold Callable_wf. simpl. apply Forall_app. split; [done | apply segments_no_slash]. }
    unfold parts_of. rewrite lookup_insert_eq. simpl. unfold segments. simpl.
    by rewrite !app_nil_r, <- app_assoc.
Qed.

Lemma accumulator_path_witness :
  httpbin_heap !! 1%positive = Some (OConnection httpbin)
  ∧ ∃ h' l acc,
      (self ← extend_connection 1%positive (ByAttr "bar");
       extend_chain self [ByCall [ArgStr "baz"; ArgInt 1]]) httpbin_heap = (h', Return l)
      ∧ h' !! l = Some (OCallable acc)
      ∧ Callable_parts acc = [ "bar"; "baz"; "1" ]
      ∧ Callable_path acc = "/bar/baz/1".
Proof.
  split; [reflexivity|].
  destruct accumulator_path as [Hchain _].
  destruct (Hchain httpbin_heap 1%positive httpbin
              (ByAttr "bar") [ByCall [ArgStr "baz"; ArgInt 1]] eq_refl eq_refl eq_refl)
    as (h' & l & acc & Hrun & Hl & _ & Hparts & Hpath).
  exists h', l, acc. split_and!; [exact Hrun | exact Hl | exact Hparts |].
  rewrite Hpath, Hparts. reflexivity.
Defined.

(** * Empty segments *)
Section empty_segments.
Import PyStr.

Lemma leaves_after_slash (r : str) :
  leaves_after ("/"%char :: r) ↔ r = [] ∨ (∃ b, r = "/" ++ b) ∨ leaves_after r.
Proof.
  unfold leaves_after. split.
  - intros [[t Ht] | (a & b & Hab)].
    + destruct t as [|x t]; simplify_eq/=; [by left|].
      right. right. left. by exists t.
    + destruct a as [|x a]; simplify_eq/=.
      * right. left. by exists b.
      * right. right. right. by exists a, b.
  - intros [-> | [[b ->] | [[t ->] | (a & b & ->)]]].
    + left. by exists [].
    + right. by exists [], b.
    + left. by exists ("/"%char :: t).
    + right. by exists ("/"%char :: a), b.
Qed.

Lemma leaves_after_other (x : ascii) (r : str) :
  x ≠ "/"%char → leaves_after (x :: r) ↔ leaves_after r.
Proof.
  intros Hx. unfold leaves_after. split.
  - intros [[t Ht] | (a & b & Hab)].
    + destruct t as [|y t]; simplify_eq/=. left. by exists t.
    + destruct a as [|y a]; simplify_eq/=. right. by exists a, b.
  - intros [[t ->] | (a & b & ->)].
    + left. by exists (x :: t).
    + right. by exists (x :: a), b.
Qed.

Lemma split_head (s : str) :
  ∃ h t, split "/" s = h :: t ∧ (h = [] ↔ s = [] ∨ ∃ b, s = "/" ++ b).
Proof.
  destruct s as [|x r]; simpl.
  - exists [], []. split; [done|]. split; auto.
  - case_decide as Hx.
    + subst x. eexists _, _. split; [done|]. split; [|done]. intros _. right. by exists r.
    + destruct (split "/" r) as [|h t] eqn:Hr; eexists _, _; (split; [done|]).
      all: split; [done | intros [? | [b Hb]]; simplify_eq/=].
Qed.

Lemma split_empty_tail (s : str) :
  [] ∈ tail (split "/" s) ↔ leaves_after s.
Proof.
  induction s as [|x r IH].
  - simpl. split; [by intros ?%elem_of_nil|].
    intros [[t Ht] | (a & b & Hab)].
    + by destruct t.
    + by destruct a.
  - simpl. case_decide as Hx.
    + subst x. simpl. rewrite leaves_after_slash.
      destruct (split_head r) as (h & t & Hr & Hh). rewrite Hr in *. simpl in IH.
      rewrite elem_of_cons, <- IH. split.
      * intros [Hnil | Hin]; [|auto]. symmetry in Hnil. apply Hh in Hnil. tauto.
      * intros [Hr' | [Hr' | Hin]]; [left; symmetry; apply Hh; auto ..| by right].
    + rewrite leaves_after_other by done. rewrite <- IH.
      destruct (split "/" r) as [|h t] eqn:Hr; [by apply split_nonempty in Hr | done].
Qed.

Lemma split_empty (s : str) : [] ∈ split "/" s ↔ leaves_empty_segment s.
Proof.
  unfold leaves_empty_segment.
  destruct (split_head s) as (h & t & Hs & Hh).
  pose proof (split_empty_tail s) as Ht. rewrite Hs in *. simpl in Ht.
  rewrite elem_of_cons, Ht. unfold leaves_after. split.
  - intros [Hnil | Hafter]; [symmetry in Hnil; apply Hh in Hnil|]; tauto.
  - intros [Hn | [Hb | Hafter]]; [left; symmetry; apply Hh; auto ..| right; tauto].
Qed.

Lemma split_all_empty (strs : list str) :
  [] ∈ concat (map (split "/") strs) ↔ Exists leaves_empty_segment strs.
Proof.
  rewrite list_elem_of_In, in_concat, Exists_exists. split.
  - intros (l & Hl & Hin%list_elem_of_In). apply in_map_iff in Hl as (s & <- & Hs).
    exists s. split; [by apply list_elem_of_In | by apply split_empty].
  - intros (s & Hs & Hempty). exists (split "/" s). split.
    + apply in_map_iff. exists s. split; [done | by apply list_elem_of_In].
    + by apply list_elem_of_In, split_empty.
Qed.

Lemma extension_segments_arguments (e : Extension) :
  extension_segments e = concat (map (split "/") (extension_arguments e)).
Proof.
  destruct e as [attr | args]; simpl.
  - by rewrite app_nil_r.
  - unfold segments. by rewrite map_map.
Qed.

Lemma chain_segments_arguments (es : list Extension) :
  concat (map extension_segments es)
  = concat (map (split "/") (concat (map extension_arguments es))).
Proof.
  induction es as [|e es IH]; [done|].
  cbn [map concat]. rewrite map_app, concat_app, IH.
  by rewrite extension_segments_arguments.
Qed.
End empty_segments.

(** C9 (as amended).  Whatever chain of attribute accesses and calls has
    made it, an accumulator has segments that hold no slash.  They hold
    an empty string exactly when one of the arguments of the chain (the
    attribute names and the arguments of the calls, as strings) is empty,
    starts or ends with a slash, or has two slashes in a row. *)
Theorem Callable_segments (h : heap) (conn : loc) (c : Connection)
    (first : Extension) (rest : list Extension) :
  h !! conn = Some (OConnection c) →
  extends_path Connection_members first = true →
  forallb (extends_path Callable_members) rest = true →
  ∃ h' l acc,
    (self ← extend_connection conn first; extend_chain self rest) h = (h', Return l)
    ∧ h' !! l = Some (OCallable acc)
    ∧ Callable_wf acc
    ∧ ([] ∈ Callable_parts acc
       ↔ Exists leaves_empty_segment
           (concat (map extension_arguments (first :: rest)))).
Proof.
  intros Hconn Hfirst Hrest.
  destruct (extend_connection_run h conn c first Hconn Hfirst) as (h1 & l1 & Hrun & Hl1).
  destruct (extend_chain_run rest h1 l1 _ Hl1) as (h' & l & Hchain & Hl); [|done|].
  { destruct first as [attr | args]; [apply split_no_sep | apply segments_no_slash]. }
  cbn [Callable_connection Callable_parts] in Hl.
  eexists h', l, _. split_and!.
  - unfold mbind, Py_bind. by rewrite Hrun.
  - exact Hl.
  - unfold Callable_wf. cbn [Callable_parts]. apply Forall_app. split.
    + destruct first as [attr | args]; [apply split_no_sep | apply segments_no_slash].
    + apply Forall_concat, Forall_forall. intros segs Hin.
      apply list_elem_of_fmap in Hin as (e & -> & _).
      destruct e as [attr | args]; [apply split_no_sep | apply segments_no_slash].
  - cbn [Callable_parts].
    change (extension_segments first ++ concat (map extension_segments rest))
      with (concat (map extension_segments (first :: rest))).
    rewrite chain_segments_arguments. apply split_all_empty.
Qed.

(** C9, as stated, fails: an argument that is not empty and ends with a
    slash leaves an empty segment in the accumulator of the chain. *)
Lemma trailing_slash_leaves_empty_segment :
  ¬ (∀ (h : heap) conn c first rest parts,
       h !! conn = Some (OConnection c) →
       extends_path Connection_members first = true →
       forallb (extends_path Callable_members) rest = true →
       Forall (λ s : str, s ≠ []) (concat (map extension_arguments (first :: rest))) →
       parts_of ((self ← extend_connection conn first; extend_chain self rest) h)
       = Some parts →
       ([] : str) ∉ parts).
Proof.
  intros H.
  apply (H httpbin_heap 1%positive httpbin (ByAttr "foo") [ByCall [ArgStr "bar/"]]
           [ "foo"; "bar"; [] ]).
  - reflexivity.
  - by vm_compute.
  - by vm_compute.
  - by repeat constructor.
  - by vm_compute.
  - apply elem_of_cons. right. apply elem_of_cons. right. apply elem_of_cons. by left.
Qed.

Lemma Callable_segments_witness :
  ∃ h' l acc,
    (self ← extend_connection 1%positive (ByAttr "users");
     extend_chain self [ByCall [ArgStr "foo/bar"; ArgInt 7]; ByAttr "repos"]) httpbin_heap
    = (h', Return l)
    ∧ h' !! l = Some (OCallable acc)
    ∧ Callable_wf acc
    ∧ ([] ∈ Callable_parts acc
       ↔ Exists leaves_empty_segment [ "users"; "foo/bar"; "7"; "repos" ]).
Proof.
  apply (Callable_segments httpbin_heap 1%positive httpbin (ByAttr "users")
           [ByCall [ArgStr "foo/bar"; ArgInt 7]; ByAttr "repos"]).
  - reflexivity.
  - by vm_compute.
  - by vm_compute.
Defined.

(** * Every validated root

    What [_validate_root] returns for any text at all, valid root or
    not: the shape of the result, and what the text must have looked
    like. *)
Section urllib_shape.
Import PyStr urllib.

Lemma slice_subseteq a b (s : str) : slice a b s ⊆ s.
Proof.
  unfold slice. etrans; [apply subseteq_take | apply subseteq_drop].
Qed.

Lemma slice_to_subseteq b (s : str) : slice_to b s ⊆ s.
Proof. apply slice_subseteq. Qed.

Lemma slice_from_subseteq a (s : str) : slice_from a s ⊆ s.
Proof. unfold slice_from. apply subseteq_drop. Qed.

Lemma index_of_take c n s :
  c ∈ take n s → ∃ k, index_of c s = Some k ∧ (k < n)%nat.
Proof.
  revert n. induction s as [|x s IH]; intros n.
  - rewrite take_nil. by intros ?%elem_of_nil.
  - destruct n as [|n]; simpl; [by intros ?%elem_of_nil|].
    case_decide as Hx.
    + intros _. exists 0%nat. split; [done | lia].
    + intros [-> | Hin]%elem_of_cons; [done|].
      destruct (IH _ Hin) as (k & -> & Hk). exists (S k). split; [done | lia].
Qed.

(** A slice that stops at or before the first occurrence of a character
    does not hold it. *)
Lemma slice_no_char c start stop s :
  0 ≤ stop →
  find_from c start s = -1 ∨ stop ≤ find_from c start s →
  c ∉ slice start stop s.
Proof.
  intros Hstop Hfind Hin. unfold slice in Hin. unfold find_from in Hfind.
  apply index_of_take in Hin as (k & Hk & Hlt). rewrite Hk in Hfind.
  cbv zeta in Hlt. unfold bound in *.
  destruct (Z.ltb_spec stop 0), (Z.ltb_spec start 0); lia.
Qed.

Lemma find_from_sign c start s :
  find_from c start s = -1 ∨ 0 ≤ find_from c start s.
Proof. unfold find_from. case_match; lia. Qed.

Lemma _splitnetloc_no_delimiter url c :
  delimiter c → c ∉ (_splitnetloc url 2).1.
Proof.
  intros Hc. unfold _splitnetloc. cbn [fst fold_left].
  pose proof (find_from_sign "/" 2 url) as H1.
  pose proof (find_from_sign "?" 2 url) as H2.
  pose proof (find_from_sign "#" 2 url) as H3.
  assert (c = "/"%char ∨ c = "?"%char ∨ c = "#"%char) as Hcs
    by (unfold delimiter in Hc; set_solver).
  apply slice_no_char.
  - repeat case_match; lia.
  - destruct Hcs as [-> | [-> | ->]]; repeat case_match; lia.
Qed.

Lemma split1_cases c s :
((c ∉ s) ∧ split1 c s = [s])
  ∨ (∃ a b, s = a ++ c :: b ∧ (c ∉ a) ∧ split1 c s = [a; b]).
Proof.
  destruct (index_of c s) as [k|] eqn:Hk.
  - right. destruct (index_of_Some _ _ _ Hk) as (a & b & -> & Ha & <-).
    exists a, b. split_and!; [done | done |]. by apply split1_app.
  - left. unfold split1. rewrite Hk. by apply index_of_None in Hk.
Qed.

(** Cutting a text at the first [c], when there is one, leaves a prefix
    without [c]. *)
Lemma cut_at c (url : str) r :
  (if contains c url then unpack2 (split1 c url) else Return (url, []))
  = Return r →
  (c ∉ r.1) ∧ r.1 ⊆ url.
Proof.
  destruct (contains c url) eqn:Hc.
  - destruct (split1_cases c url) as [[Hout _] | (a & b & -> & Ha & ->)].
    + by apply contains_false in Hout; congruence.
    + simpl. intros [= <-]. simpl. split; [done|]. set_solver.
  - intros [= <-]. simpl. split; [by apply contains_false | done].
Qed.

Lemma split_after_scheme_shape sch url r :
  split_after_scheme sch url = Return r →
  s_scheme r = sch
  ∧ (∀ c, delimiter c → c ∉ s_netloc r)
  ∧ ("?"%char ∉ s_path r) ∧ ("#"%char ∉ s_path r).
Proof.
  unfold split_after_scheme.
  set (first := if decide (slice_to 2 url = "//") then _ else _).
  destruct first as [[netloc url1]|e] eqn:Hfirst; [|done].
  assert (∀ c, delimiter c → c ∉ netloc) as Hnet.
  { subst first. case_decide.
    - pose proof (_splitnetloc_no_delimiter (slice_from 2 url)) as _.
      pose proof (_splitnetloc_no_delimiter url) as Hd.
      destruct (_splitnetloc url 2) as [n u] eqn:Hs. simpl in Hd.
      case_match; [done|]. injection Hfirst as <- <-. done.
    - injection Hfirst as <- <-. intros c _. apply not_elem_of_nil. }
  cbn [mbind Result_bind].
  set (second := if contains "#" url1 then _ else _).
  destruct second as [[url2 fragment]|e] eqn:Hsecond; [|done].
  apply cut_at in Hsecond as [Hf2 Hsub2]. simpl in Hf2, Hsub2.
  cbn [mbind Result_bind].
  set (third := if contains "?" url2 then _ else _).
  destruct third as [[url3 query]|e] eqn:Hthird; [|done].
  apply cut_at in Hthird as [Hq3 Hsub3]. simpl in Hq3, Hsub3.
  cbn [mbind Result_bind]. intros [= <-]. simpl.
  split_and!; [done | done | done |]. intros Hin. apply Hf2. by apply Hsub3.
Qed.

(** A place where a text splits at its first colon, with a scheme
    before it. *)
Lemma find_positive c (url : str) :
  0 < find c url →
  ∃ a b, url = a ++ c :: b ∧ (c ∉ a) ∧ a ≠ []
         ∧ slice_to (find c url) url = a
         ∧ slice_from (find c url + 1) url = b.
Proof.
  intros Hpos. unfold find, find_from in *.
  assert (Z.to_nat (bound (Z.of_nat (length url)) 0) = 0%nat) as Hb
    by (unfold bound; simpl; lia).
  cbv zeta in *. rewrite Hb in *. rewrite drop_0 in *.
  destruct (index_of c url) as [k|] eqn:Hk; [|lia].
  destruct (index_of_Some _ _ _ Hk) as (a & b & -> & Ha & <-).
  exists a, b. split_and!; [done | done | | |].
  - intros ->. simpl in Hpos. lia.
  - apply slice_to_at. simpl. lia.
  - replace (a ++ c :: b) with ((a ++ [c]) ++ b) by (by rewrite <- app_assoc).
    apply slice_from_at. rewrite length_app. simpl. lia.
Qed.

Lemma urlsplit_shape url r :
  urlsplit url = Return r →
  (s_scheme r = [] ∨ ∃ sc rest, url = sc ++ ":" ++ rest ∧ (":"%char ∉ sc) ∧ s_scheme r = lower sc)
  ∧ (∀ c, delimiter c → c ∉ s_netloc r)
  ∧ ("?"%char ∉ s_path r) ∧ ("#"%char ∉ s_path r).
Proof.
  unfold urlsplit.
  assert (∀ u, split_after_scheme [] u = Return r →
               (s_scheme r = [] ∨ ∃ sc rest, url = sc ++ ":" ++ rest ∧ (":"%char ∉ sc) ∧ s_scheme r = lower sc)
               ∧ (∀ c, delimiter c → c ∉ s_netloc r)
               ∧ ("?"%char ∉ s_path r) ∧ ("#"%char ∉ s_path r)) as Hnone.
  { intros u (? & ? & ? & ?)%split_after_scheme_shape. auto. }
  destruct (0 <? find ":" url) eqn:Hpos; [|by apply Hnone].
  apply Z.ltb_lt in Hpos.
  destruct (find_positive _ _ Hpos) as (a & b & Hurl & Ha & _ & -> & ->).
  assert (split_after_scheme (lower a) b = Return r →
          (s_scheme r = [] ∨ ∃ sc rest, url = sc ++ ":" ++ rest ∧ (":"%char ∉ sc) ∧ s_scheme r = lower sc)
          ∧ (∀ c, delimiter c → c ∉ s_netloc r)
          ∧ ("?"%char ∉ s_path r) ∧ ("#"%char ∉ s_path r)) as Hsome.
  { intros (? & ? & ? & ?)%split_after_scheme_shape. split; [|done].
    right. exists a, b. done. }
  repeat case_match; first [exact Hsome | exact (Hnone _)].
Qed.

Lemma _splitparams_subseteq (url : str) : (_splitparams url).1 ⊆ url.
Proof.
  unfold _splitparams. repeat case_match; simpl;
    first [done | apply slice_to_subseteq].
Qed.

Lemma urlparse_shape url p :
  urlparse url = Return p →
  (scheme p = [] ∨ ∃ sc rest, url = sc ++ ":" ++ rest ∧ (":"%char ∉ sc) ∧ scheme p = lower sc)
  ∧ (∀ c, delimiter c → c ∉ netloc p)
  ∧ ("?"%char ∉ path p) ∧ ("#"%char ∉ path p).
Proof.
  unfold urlparse. destruct (urlsplit url) as [r|e] eqn:Hr; [|done].
  apply urlsplit_shape in Hr as (Hs & Hn & Hq & Hf).
  cbn [mbind Result_bind].
  set (cut := if _ && _ then _ else _).
  assert (cut.1 ⊆ s_path r) as Hsub.
  { subst cut. case_match; [apply _splitparams_subseteq | done]. }
  destruct cut as [u params]. simpl in Hsub. intros [= <-]. simpl.
  split_and!; [done | done | |]; intros Hin; apply Hsub in Hin; done.
Qed.

Lemma starts_with_two (p : str) :
  slice_to 2 p = "//" → ∃ t, p = "//" ++ t.
Proof.
  change 2 with (Z.of_nat 2). rewrite slice_to_nat. intros H.
  exists (drop 2 p). by rewrite <- H, take_drop.
Qed.

(** [urlunparse] of an [http] or [https] scheme, a network location and
    a path, without parameters, query or fragment. *)
Lemma urlunparse_shape (sch net p : str) :
  sch = "http" ∨ sch = "https" →
  ∃ t, urlunparse sch net p [] [] [] = sch ++ "://" ++ t
       ∧ t ⊆ "/" ++ net ++ p.
Proof.
  intros Hsch. unfold urlunparse, urlunsplit. cbn [truthy].
  assert (truthy sch = true) as -> by (by destruct Hsch as [-> | ->]).
  assert (bool_decide (sch ∈ uses_netloc) = true) as ->.
  { apply bool_decide_eq_true. destruct Hsch as [-> | ->]; set_solver. }
  cbn [andb]. unfold or_else.
  destruct (truthy net || negb (bool_decide (slice_to 2 p = "//"))) eqn:Hcond.
  - assert ((if truthy net then net else []) = net) as ->
      by (by destruct net).
    eexists. split; [done|]. case_match; set_solver.
  - apply orb_false_iff in Hcond as [Hnet Hp].
    apply negb_false_iff, bool_decide_eq_true in Hp.
    destruct (starts_with_two _ Hp) as [t ->].
    exists t. split; [done | set_solver].
Qed.
End urllib_shape.

Lemma validate_root_inv root v :
  Connection__validate_root root = Return v →
  ∃ parsed p,
    urllib.urlparse root = Return parsed
    ∧ (urllib.scheme parsed = "http" ∨ urllib.scheme parsed = "https")
    ∧ p ⊆ urllib.path parsed
    ∧ v = urllib.urlunparse (urllib.scheme parsed) (urllib.netloc parsed) p [] [] [].
Proof.
  unfold Connection__validate_root.
  destruct (urllib.urlparse root) as [parsed|e] eqn:Hparsed; [|done].
  cbn [mbind Result_bind]. case_bool_decide as Hs; [|done]. cbn [negb].
  intros [= <-]. eexists parsed, _. split_and!; [done | set_solver | | done].
  assert (PyStr.or_else (urllib.path parsed) [] = urllib.path parsed) as ->
    by (unfold PyStr.or_else; by destruct (urllib.path parsed)).
  case_match; [apply slice_to_subseteq | done].
Qed.

Lemma validate_root_root_ok root v :
  Connection__validate_root root = Return v → root_ok v.
Proof.
  intros (parsed & p & Hparsed & Hs & Hp & ->)%validate_root_inv.
  apply urlparse_shape in Hparsed as (_ & Hn & Hq & Hf).
  destruct (urlunparse_shape _ (urllib.netloc parsed) p Hs) as (t & -> & Ht).
  assert (∀ c, delimiter c → c ≠ "/"%char → c ∉ t) as Hfree.
  { intros c Hc Hslash Hin. apply Ht in Hin.
    rewrite !elem_of_app, list_elem_of_singleton in Hin.
    destruct Hin as [? | [Hin | Hin]]; [done | by apply (Hn c) |].
    apply Hp in Hin. unfold delimiter in Hc.
    assert (c = "?"%char ∨ c = "#"%char) as [-> | ->] by set_solver; done. }
  unfold root_ok. split_and!.
  - destruct Hs as [-> | ->]; [left | right]; by exists t.
  - rewrite !elem_of_app. intros [Hin | [Hin | Hin]].
    + destruct Hs as [Hs | Hs]; rewrite Hs in Hin; revert Hin; absent_char.
    + revert Hin. absent_char.
    + revert Hin. apply Hfree; [unfold delimiter; set_solver | done].
  - rewrite !elem_of_app. intros [Hin | [Hin | Hin]].
    + destruct Hs as [Hs | Hs]; rewrite Hs in Hin; revert Hin; absent_char.
    + revert Hin. absent_char.
    + revert Hin. apply Hfree; [unfold delimiter; set_solver | done].
Qed.

(** X1.  Whatever text it was given, a root that [_validate_root]
    returns opens with [http://] or [https://] and holds neither [?] nor
    [#]: a request path put after it is not read as part of a query or of
    a fragment. *)
Theorem validate_root_shape root v :
  Connection__validate_root root = Return v → root_ok v.
Proof. apply validate_root_root_ok. Qed.

Lemma validate_root_shape_witness : root_ok "http://a.com/x;y/z".
Proof.
  apply (validate_root_shape "HTTP://a.com/x;y/z/?q=1/#top").
  vm_compute. reflexivity.
Defined.

Section no_colon.
Import PyStr urllib.

Lemma split_after_scheme_raises sch url e :
  split_after_scheme sch url = Raise e → e = ValueError.
Proof.
  unfold split_after_scheme.
  set (first := if decide (slice_to 2 url = "//") then _ else _).
  assert (∀ e', first = Raise e' → e' = ValueError) as Hfirst.
  { subst first. intros e'. case_decide; [|done].
    destruct (_splitnetloc url 2) as [n u]. case_match; [|done]. by intros [= <-]. }
  destruct first as [[netloc url1]|e1]; [|intros [= <-]; by apply Hfirst].
  cbn [mbind Result_bind].
  assert (∀ c (u : str) e',
            (if contains c u then unpack2 (split1 c u) else Return (u, []))
            = Raise e' → e' = ValueError) as Hcut.
  { intros c u e'. destruct (contains c u); [|done].
    unfold unpack2. repeat case_match; try done; by intros [= <-]. }
  set (second := if contains "#" url1 then _ else _).
  pose proof (Hcut "#"%char url1) as Hsecond. fold second in Hsecond.
  destruct second as [[url2 fragment]|e2]; [|intros [= <-]; by apply Hsecond].
  cbn [mbind Result_bind].
  set (third := if contains "?" url2 then _ else _).
  pose proof (Hcut "?"%char url2) as Hthird. fold third in Hthird.
  destruct third as [[url3 query]|e3]; [|intros [= <-]; by apply Hthird].
  done.
Qed.

Lemma urlsplit_no_colon (url : str) :
  (":"%char ∉ url) → urlsplit url = split_after_scheme [] url.
Proof.
  intros Hcolon. unfold urlsplit. rewrite find_absent by done. done.
Qed.

Lemma validate_root_no_colon (root : str) :
  (":"%char ∉ root) →
  Connection__validate_root root = Raise AssertionError
  ∨ Connection__validate_root root = Raise ValueError.
Proof.
  intros Hcolon. unfold Connection__validate_root, urlparse.
  rewrite urlsplit_no_colon by done.
  destruct (split_after_scheme [] root) as [r|e] eqn:Hsplit.
  - left. apply split_after_scheme_shape in Hsplit as (Hs & _).
    cbn [mbind Result_bind]. destruct (if _ && _ then _ else _) as [u params].
    cbn [mbind Result_bind urllib.scheme]. rewrite Hs.
    rewrite bool_decide_eq_false_2; [done|]. set_solver.
  - right. apply split_after_scheme_raises in Hsplit as ->. done.
Qed.
End no_colon.

(** X2.  A text without a colon is no root.  [_validate_root] refuses
    it, with the failed assertion on the scheme or with the [ValueError]
    of the parser, and the constructor leaves the heap as it was. *)
Theorem validate_root_needs_colon (root : str) :
  (":"%char ∉ root) →
  (Connection__validate_root root = Raise AssertionError
   ∨ Connection__validate_root root = Raise ValueError)
  ∧ ∀ cls client (h : heap),
      ∃ e, new_Connection cls root client h = (h, Raise e)
           ∧ (e = AssertionError ∨ e = ValueError).
Proof.
  intros Hcolon. pose proof (validate_root_no_colon root Hcolon) as Hraise.
  split; [exact Hraise|]. intros cls client h.
  unfold new_Connection. unfold mbind, Py_bind, lift.
  destruct Hraise as [-> | ->]; eexists; (split; [reflexivity|]); auto.
Qed.

Lemma validate_root_needs_colon_witness :
  (Connection__validate_root "localhost/api" = Raise AssertionError
   ∨ Connection__validate_root "localhost/api" = Raise ValueError)
  ∧ ∀ cls client (h : heap),
      ∃ e, new_Connection cls "localhost/api" client h = (h, Raise e)
           ∧ (e = AssertionError ∨ e = ValueError).
Proof.
  apply (validate_root_needs_colon "localhost/api"). absent_char.
Defined.

(** * More on requests: the client, failures, headers *)
Section more_requests.
Import PyStr.


(** A path that is not a string stops the request once the client is
    there. *)
Lemma Connection_request_not_str h self c method path data data_mode headers path_suffix :
  h !! self = Some (OConnection c) → is_str path = false →
  Connection_request self method path data data_mode headers path_suffix h
  = ((ensure_client self c h).1, Raise AttributeError).
Proof.
  intros Hself Hpath. unfold Connection_request.
  unfold mbind, mret, Py_bind, Py_ret, new, store, load_connection, raise.
  rewrite Hself. unfold ensure_client.
  destruct (Connection_client c); destruct path; try done.
Qed.

Lemma Connection_request_heap h self c method path data data_mode headers path_suffix :
  h !! self = Some (OConnection c) →
  (Connection_request self method path data data_mode headers path_suffix h).1
  = (ensure_client self c h).1.
Proof.
  intros Hself. destruct (is_str path) eqn:Hpath.
  - destruct path; try done. by rewrite (Connection_request_run _ _ _ _ _ _ _ _ _ Hself).
  - by rewrite (Connection_request_not_str _ _ _ _ _ _ _ _ _ Hself Hpath).
Qed.


Lemma with_suffix_idemp suffix base :
  with_suffix suffix (with_suffix suffix base) = with_suffix suffix base.
Proof.
  unfold with_suffix. case_decide; [done|].
  destruct (endswith suffix base) eqn:He; [by rewrite He|].
  by rewrite endswith_app.
Qed.

Lemma with_suffix_starts suffix t : ∃ t', with_suffix suffix ("/" ++ t) = "/" ++ t'.
Proof.
  unfold with_suffix. repeat case_match; eauto.
Qed.

Lemma leading_slash_fixed t : leading_slash ("/" ++ t) = "/" ++ t.
Proof. done. Qed.

Lemma sent_path_idemp c path path_suffix :
  sent_path c (sent_path c path path_suffix) path_suffix = sent_path c path path_suffix.
Proof.
  unfold sent_path.
  destruct (leading_slash_starts path) as [t ->].
  destruct (with_suffix_starts (effective_suffix c path_suffix) t) as [t' Ht'].
  rewrite Ht' at 1. rewrite leading_slash_fixed, <- Ht'.
  apply with_suffix_idemp.
Qed.
End more_requests.



(** X4.  A request that fails is not without effect.  When the
    connection has no client yet and the path is not a string, or the
    body cannot be written as JSON, the error comes after the client has
    been made and stored: the heap holds one object more and the
    connection now has that client. *)
Theorem request_failure_keeps_client (h : heap) (self : loc) (c : Connection)
    (method : str) (path data data_mode headers path_suffix : PyVal) :
  h !! self = Some (OConnection c) →
  Connection_client c = None →
  (is_str path = false
   ∨ (data ≠ VNotProvided ∧ data_mode = VMode JSON ∧ ∃ e, json.dumps data = Raise e)) →
  ∃ client e,
    h !! client = None
    ∧ Connection_request self method path data data_mode headers path_suffix h
      = (<[self := OConnection (mkConnection (Connection_cls c) (Some client)
                                  (Connection_root c))]>
           (<[client := OClient (DEFAULT_CLIENT_CLASS (Connection_cls c))]> h),
         Raise e).
Proof.
  intros Hself Hnone Hfail.
  assert (h !! fresh (dom h) = None) as Hfresh
    by apply (not_elem_of_dom (D := gset loc)), is_fresh.
  destruct (is_str path) eqn:Hpath.
  - destruct Hfail as [? | (Hdata & -> & e & He)]; [done|].
    destruct path; try done.
    exists (fresh (dom h)), e. split; [done|].
    rewrite (Connection_request_run _ _ _ _ _ _ _ _ _ Hself).
    unfold ensure_client. rewrite Hnone. cbn [fst snd]. f_equal.
    rewrite request_body_code.
    replace (is_NotProvided data) with false by (by destruct data).
    cbn [negb is_JSON]. by rewrite He.
  - exists (fresh (dom h)), AttributeError. split; [done|].
    rewrite (Connection_request_not_str _ _ _ _ _ _ _ _ _ Hself Hpath).
    unfold ensure_client. by rewrite Hnone.
Qed.

Lemma request_failure_keeps_client_witness :
  ∃ client e,
    httpbin_heap !! client = None
    ∧ Connection_request 1%positive "get" (VInt 3) VNotProvided (VMode FORM)
        VNotProvided VNotProvided httpbin_heap
      = (<[1%positive := OConnection (mkConnection Connection_class (Some client)
                                        "https://httpbin.org")]>
           (<[client := OClient "ClientSession"]> httpbin_heap),
         Raise e).
Proof.
  apply (request_failure_keeps_client httpbin_heap 1%positive httpbin "get" (VInt 3)
           VNotProvided (VMode FORM) VNotProvided VNotProvided).
  - reflexivity.
  - reflexivity.
  - left. reflexivity.
Defined.

(** X5.  The headers reach the client as they are given, under the
    keyword [headers], and not at all when they are not provided; an
    explicit [None] is passed on.  The client is given no keyword besides
    [data] and [headers]. *)
Theorem request_headers_rule (h : heap) (self : loc) (c : Connection) (method : str)
    (path data data_mode headers path_suffix : PyVal) (call : ClientCall) :
  h !! self = Some (OConnection c) →
  (Connection_request self method path data data_mode headers path_suffix h).2
  = Return call →
  call_kwargs call !! ("headers" : str)
  = (if is_NotProvided headers then None else Some headers)
  ∧ dom (call_kwargs call) ⊆ ({[ "data"; "headers" ]} : gset str).
Proof.
  intros Hself. destruct (is_str path) eqn:Hpath.
  2:{ by rewrite (Connection_request_not_str _ _ _ _ _ _ _ _ _ Hself Hpath). }
  destruct path; try done.
  rewrite (Connection_request_run _ _ _ _ _ _ _ _ _ Hself). cbn [snd].
  destruct (request_body data data_mode) as [body|]; [|done].
  intros [= <-]. cbn [call_kwargs]. unfold request_kwargs. split.
  - destruct headers, body; by simplify_map_eq.
  - destruct headers, body;
      rewrite ?dom_insert_L, ?dom_singleton_L, ?dom_empty_L; set_solver.
Qed.

Lemma request_headers_rule_witness :
  ∃ call,
    (Connection_request 1%positive "get" (VStr "/a") VNotProvided (VMode FORM)
       VNone VNotProvided local_heap).2 = Return call
    ∧ call_kwargs call !! ("headers" : str) = Some VNone
    ∧ dom (call_kwargs call) ⊆ ({[ "data"; "headers" ]} : gset str).
Proof.
  eexists. split; [reflexivity|].
  apply (request_headers_rule local_heap 1%positive local_connection "get" (VStr "/a")
           VNotProvided (VMode FORM) VNone VNotProvided).
  - reflexivity.
  - reflexivity.
Defined.

(** X6.  The normalisation of the path is idempotent: asking for the
    path that a request sent, with the same [path_suffix], is the same
    request. *)
Theorem request_path_normal_form (h : heap) (self : loc) (c : Connection) (method path : str)
    (data data_mode headers path_suffix : PyVal) :
  h !! self = Some (OConnection c) →
  Connection_request self method (VStr (sent_path c path path_suffix))
    data data_mode headers path_suffix h
  = Connection_request self method (VStr path) data data_mode headers path_suffix h.
Proof.
  intros Hself. rewrite !(Connection_request_run _ _ _ _ _ _ _ _ _ Hself).
  by rewrite sent_path_idemp.
Qed.

Lemma request_path_normal_form_witness :
  Connection_request 1%positive "get" (VStr "/foo.json") VNotProvided (VMode FORM)
    VNotProvided (VStr ".json") local_heap
  = Connection_request 1%positive "get" (VStr "foo") VNotProvided (VMode FORM)
      VNotProvided (VStr ".json") local_heap.
Proof.
  apply (request_path_normal_form local_heap 1%positive local_connection "get" "foo").
  reflexivity.
Defined.

(** * What the operations do to the heap *)
Section frames.
Import PyStr.

Lemma fresh_lookup (h : heap) : h !! fresh (dom h) = None.
Proof. apply (not_elem_of_dom (D := gset loc)), is_fresh. Qed.

Lemma allocates_ret {A : Type} (a : A) : allocates (mret a : Py A).
Proof. intros h. done. Qed.


Lemma allocates_lift {A : Type} (r : Result A) : allocates (lift r).
Proof. intros h. done. Qed.

Lemma allocates_bind {A B : Type} (m : Py A) (k : A → Py B) :
  allocates m → (∀ a, allocates (k a)) → allocates (m ≫= k).
Proof.
  intros Hm Hk h. unfold mbind, Py_bind. specialize (Hm h).
  destruct (m h) as [h' [a|e]]; simpl in *; [|done].
  etrans; [exact Hm | apply Hk].
Qed.

Lemma allocates_new o : allocates (new o).
Proof. intros h. simpl. apply insert_subseteq, fresh_lookup. Qed.

Lemma allocates_load_connection l : allocates (load_connection l).
Proof. intros h. unfold load_connection. by repeat case_match. Qed.

Lemma allocates_load_callable l : allocates (load_callable l).
Proof. intros h. unfold load_callable. by repeat case_match. Qed.

Lemma allocates_new_Connection cls root client :
  allocates (new_Connection cls root client).
Proof.
  apply allocates_bind; [apply allocates_lift | intros; apply allocates_new].
Qed.

Lemma allocates_Connection___getattr__ self attr :
  allocates (Connection___getattr__ self attr).
Proof. unfold Connection___getattr__. case_match; apply allocates_new. Qed.

Lemma allocates_Callable___getattr__ self attr :
  allocates (Callable___getattr__ self attr).
Proof.
  apply allocates_bind; [apply allocates_load_callable|].
  intros c. case_match; apply allocates_new.
Qed.

Lemma allocates_Callable___call__ self args :
  allocates (Callable___call__ self args).
Proof.
  destruct args as [|a args]; [apply allocates_ret|].
  apply allocates_bind; [apply allocates_load_callable|].
  intros c. apply allocates_new.
Qed.

Lemma allocates_Connection_getattr self name :
  allocates (Connection_getattr self name).
Proof.
  apply allocates_bind; [apply allocates_load_connection|]. intros c.
  repeat case_match; try apply allocates_ret.
  apply allocates_bind; [apply allocates_Connection___getattr__|].
  intros; apply allocates_ret.
Qed.

Lemma allocates_Callable_getattr self name :
  allocates (Callable_getattr self name).
Proof.
  apply allocates_bind; [apply allocates_load_callable|]. intros c.
  repeat case_match; try apply allocates_ret.
  apply allocates_bind; [apply allocates_Callable___getattr__|].
  intros; apply allocates_ret.
Qed.





(** ** After *)

Lemma evolves_refl h : evolves h h.
Proof.
  intros l o Hl. destruct o as [|c| |]; try done.
  exists c. split_and!; auto.
Qed.

Lemma evolves_subseteq (h h' : heap) : h ⊆ h' → evolves h h'.
Proof.
  intros Hsub l o Hl. pose proof (lookup_weaken _ _ _ _ Hl Hsub) as Hl'.
  destruct o as [|c| |]; try done.
  exists c. split_and!; auto.
Qed.

Lemma evolves_ensure_client h self c :
  h !! self = Some (OConnection c) → evolves h (ensure_client self c h).1.
Proof.
  intros Hself. unfold ensure_client.
  destruct (Connection_client c) as [client|] eqn:Hclient; [apply evolves_refl|].
  cbn [fst]. intros l o Hl.
  assert (l ≠ fresh (dom h)) as Hfresh.
  { intros ->. by rewrite fresh_lookup in Hl. }
  destruct (decide (l = self)) as [-> | Hne].
  - rewrite Hself in Hl. injection Hl as <-.
    rewrite lookup_insert_eq. eexists. split_and!; [done | done | done | by right].
  - rewrite !lookup_insert_ne by done. destruct o as [|c'| |]; try done.
    exists c'. split_and!; auto.
Qed.

Lemma Connection_request_no_connection h self method path data data_mode headers path_suffix :
  (∀ c, h !! self ≠ Some (OConnection c)) →
  Connection_request self method path data data_mode headers path_suffix h
  = (h, Raise AttributeError).
Proof.
  intros Hself. unfold Connection_request.
  unfold mbind at 1. unfold Py_bind, load_connection.
  destruct (h !! self) as [[]|] eqn:Hl; try done. by destruct (Hself c).
Qed.

Lemma Connection_request_heap_cases h self method path data data_mode headers path_suffix :
  (Connection_request self method path data data_mode headers path_suffix h).1 = h
  ∨ ∃ c, h !! self = Some (OConnection c)
         ∧ (Connection_request self method path data data_mode headers path_suffix h).1
           = (ensure_client self c h).1.
Proof.
  destruct (h !! self) as [[| c | |]|] eqn:Hself.
  2:{ right. exists c. split; [done|]. by apply Connection_request_heap. }
  all: left; rewrite Connection_request_no_connection; [done|]; congruence.
Qed.

Lemma Executable_call_heap_cases h self args kwargs :
  (Executable___call__ self args kwargs h).1 = h
  ∨ ∃ connection c,
      h !! connection = Some (OConnection c)
      ∧ (Executable___call__ self args kwargs h).1 = (ensure_client connection c h).1.
Proof.
  destruct (h !! self) as [[| | e |]|] eqn:Hself.
  3:{ rewrite (Executable_call_run _ _ _ _ _ Hself).
      unfold Connection_request_apply. case_match; [|by left].
      destruct (Connection_request_heap_cases h (Executable_connection e)
                  (Executable_method e)
                  (or_slash (resolve_path e args kwargs).1.1)
                  (argument 0 "data" VNotProvided (resolve_path e args kwargs).1.2
                     (resolve_path e args kwargs).2)
                  (argument 1 "data_mode" (VMode FORM) (resolve_path e args kwargs).1.2
                     (resolve_path e args kwargs).2)
                  (argument 2 "headers" VNotProvided (resolve_path e args kwargs).1.2
                     (resolve_path e args kwargs).2)
                  (argument 3 "path_suffix" VNotProvided (resolve_path e args kwargs).1.2
                     (resolve_path e args kwargs).2))
        as [Hh | (c & Hc & Hh)]; [by left|].
      right. by exists (Executable_connection e), c. }
  all: left; unfold Executable___call__; unfold mbind at 1;
    unfold Py_bind, load_executable; by rewrite Hself.
Qed.

Lemma is_connection_evolves h h' l :
  evolves h h' → is_connection h l → is_connection h' l.
Proof. intros He [c Hc]. destruct (He _ _ Hc) as (c' & ? & _). by exists c'. Qed.

Lemma is_client_evolves h h' l :
  evolves h h' → is_client h l → is_client h' l.
Proof. intros He [name Hc]. exists name. apply (He _ _ Hc). Qed.

Lemma object_ok_evolves h h' o :
  evolves h h' → object_ok h o → object_ok h' o.
Proof.
  intros He. destruct o as [name | c | e | c]; simpl; [done | | |].
  - intros [Hroot Hclient]. split; [done|].
    intros client Hc. eapply is_client_evolves; eauto.
  - intros (Hconn & Hm & Hp). split_and!; [|done|done].
    eapply is_connection_evolves; eauto.
  - intros (Hwf & Hconn). split; [done|]. eapply is_connection_evolves; eauto.
Qed.

Lemma heap_ok_new (h : heap) o :
  heap_ok h → object_ok h o → heap_ok (<[fresh (dom h) := o]> h).
Proof.
  intros Hh Ho l o' Hl.
  assert (evolves h (<[fresh (dom h) := o]> h)) as He
    by apply evolves_subseteq, insert_subseteq, fresh_lookup.
  apply (object_ok_evolves _ _ _ He).
  destruct (decide (l = fresh (dom h))) as [-> | Hne].
  - rewrite lookup_insert_eq in Hl. by injection Hl as <-.
  - rewrite lookup_insert_ne in Hl by done. by apply (Hh l).
Qed.

Lemma heap_ok_ensure_client h self c :
  heap_ok h → h !! self = Some (OConnection c) → heap_ok (ensure_client self c h).1.
Proof.
  intros Hh Hself. pose proof (evolves_ensure_client _ _ _ Hself) as He.
  unfold ensure_client in *.
  destruct (Connection_client c) as [client|] eqn:Hclient; [done|].
  cbn [fst] in *. intros l o Hl.
  destruct (decide (l = self)) as [-> | Hne].
  - rewrite lookup_insert_eq in Hl. injection Hl as <-. simpl.
    split; [apply (Hh _ _ Hself)|]. intros client [= <-].
    exists (DEFAULT_CLIENT_CLASS (Connection_cls c)).
    rewrite lookup_insert_ne; [by rewrite lookup_insert_eq|].
    intros Heq. rewrite Heq in Hself. by rewrite fresh_lookup in Hself.
  - rewrite lookup_insert_ne in Hl by done.
    apply (object_ok_evolves _ _ _ He).
    destruct (decide (l = fresh (dom h))) as [-> | Hne'].
    + rewrite lookup_insert_eq in Hl. by injection Hl as <-.
    + rewrite lookup_insert_ne in Hl by done. by apply (Hh l).
Qed.

Lemma Callable_path_starts c : ∃ t, Callable_path c = "/" ++ t.
Proof. by eexists. Qed.
End frames.

(** X7.  Objects are never changed behind the caller's back.  Whatever
    operation is asked for, with whatever arguments, and whether it
    returns or raises, every accumulator, executable and client is
    afterwards what it was, and every connection has the class and the
    root it had, and the client it had if it had one. *)
Theorem objects_persist (op : Op) (h : heap) : evolves h (heap_after op h).
Proof.
  destruct op; simpl.
  - apply evolves_subseteq, allocates_new_Connection.
  - apply evolves_subseteq, allocates_Connection_getattr.
  - apply evolves_subseteq, (allocates_new _ h).
  - apply evolves_subseteq, allocates_Callable_getattr.
  - apply evolves_subseteq, allocates_Callable___call__.
  - destruct (Connection_request_heap_cases h self method path data data_mode
                headers path_suffix) as [-> | (c & Hc & ->)].
    + apply evolves_refl.
    + by apply evolves_ensure_client.
  - destruct (Executable_call_heap_cases h self args kwargs)
      as [-> | (connection & c & Hc & ->)].
    + apply evolves_refl.
    + by apply evolves_ensure_client.
Qed.

Section invariant.
Import PyStr.

Lemma Connection_getattr_heap h self name :
  heap_ok h → heap_ok (Connection_getattr self name h).1.
Proof.
  intros Hh. destruct (h !! self) as [[| c | |]|] eqn:Hself.
  2:{ destruct (decide (name ∈ Connection_members ++ object_members)) as [Hin | Hout].
      - unfold Connection_getattr. unfold mbind, Py_bind, load_connection.
        rewrite Hself. rewrite (bool_decide_eq_true_2 _ Hin).
        by repeat case_decide.
      - rewrite (Connection_getattr_other _ _ _ _ Hself Hout).
        unfold mbind, Py_bind. rewrite Connection___getattr___run. cbn [fst].
        apply heap_ok_new; [done|]. case_bool_decide as Hm; simpl.
        + split_and!; [by exists c | done | done].
        + split; [apply split_no_sep | by exists c]. }
  all: unfold Connection_getattr; unfold mbind, Py_bind, load_connection;
    by rewrite Hself.
Qed.

Lemma Callable_getattr_heap h self name :
  heap_ok h → heap_ok (Callable_getattr self name h).1.
Proof.
  intros Hh. destruct (h !! self) as [[| | | c]|] eqn:Hself.
  4:{ destruct (Hh _ _ Hself) as [Hwf Hconn].
      destruct (decide (name ∈ Callable_members ++ object_members)) as [Hin | Hout].
      - unfold Callable_getattr. unfold mbind, Py_bind, load_callable.
        rewrite Hself. rewrite (bool_decide_eq_true_2 _ Hin).
        by repeat case_decide.
      - rewrite (Callable_getattr_other _ _ _ _ Hself Hout).
        unfold mbind, Py_bind. rewrite (Callable___getattr___run _ _ _ _ Hself Hwf).
        cbn [fst]. apply heap_ok_new; [done|]. case_bool_decide as Hm; simpl.
        + split_and!; [done | done |]. intros p [= <-]. by eexists.
        + split; [|done]. unfold Callable_wf. simpl. apply Forall_app.
          split; [done | apply split_no_sep]. }
  all: unfold Callable_getattr; unfold mbind, Py_bind, load_callable;
    by rewrite Hself.
Qed.

Lemma Callable_call_heap h self args :
  heap_ok h → heap_ok (Callable___call__ self args h).1.
Proof.
  intros Hh. destruct (h !! self) as [[| | | c]|] eqn:Hself.
  4:{ destruct (Hh _ _ Hself) as [Hwf Hconn].
      rewrite (Callable_call_run _ _ _ _ Hself Hwf).
      destruct args as [|a args]; [done|]. cbn [fst].
      apply heap_ok_new; [done|]. split; [|done].
      unfold Callable_wf. simpl. apply Forall_app.
      split; [done | apply segments_no_slash]. }
  all: destruct args as [|a args]; [done|];
    unfold Callable___call__; unfold mbind, Py_bind, load_callable;
    by rewrite Hself.
Qed.
End invariant.

(** X8.  Every object the operations make is in order, and stays so.
    On a heap in order, any operation leaves a heap in order, whether it
    returns or raises: the root of every connection opens with [http://]
    or [https://] and has no query or fragment, the segments of every
    accumulator hold no slash, and every executable has a method of
    [HTTP_METHODS], in upper case, and a path that starts with a slash,
    when it has one; accumulators and executables refer to connections,
    connections to clients. *)
Theorem heap_stays_ok (op : Op) (h : heap) :
  heap_ok h → admissible h op → heap_ok (heap_after op h).
Proof.
  intros Hh Hop. destruct op; simpl in *.
  - unfold new_Connection. unfold mbind, Py_bind, lift.
    destruct (Connection__validate_root root) as [v|e] eqn:Hv; [|done].
    cbn [fst new]. apply heap_ok_new; [done|]. simpl. split.
    + by apply (validate_root_root_ok root).
    + intros c ->. done.
  - by apply Connection_getattr_heap.
  - apply heap_ok_new; [done|]. split; [apply Callable_init_wf | done].
  - by apply Callable_getattr_heap.
  - by apply Callable_call_heap.
  - destruct (Connection_request_heap_cases h self method path data data_mode
                headers path_suffix) as [-> | (c & Hc & ->)]; [done|].
    by apply heap_ok_ensure_client.
  - destruct (Executable_call_heap_cases h self args kwargs)
      as [-> | (connection & c & Hc & ->)]; [done|].
    by apply heap_ok_ensure_client.
Qed.

Lemma heap_stays_ok_witness :
  heap_ok (heap_after (GetattrCallable 2%positive "post")
             (heap_after (CallConnection 1%positive [ArgStr "foo/bar"; ArgInt 1])
                (heap_after (NewConnection Connection_class "https://httpbin.org/" None) ∅))).
Proof.
  apply heap_stays_ok; [apply heap_stays_ok; [apply heap_stays_ok|]|].
  - intros l o Hl. by rewrite lookup_empty in Hl.
  - exact I.
  - eexists. vm_compute. reflexivity.
  - exact I.
Defined.

(** * More on executables and accumulators *)
Section more_executables.
Import PyStr.

Lemma Connection_request_apply_refused self method path args kwargs h :
  (length request_optional < length args)%nat
  ∨ (∃ k, is_Some (kwargs !! k) ∧ k ∉ request_optional) →
  Connection_request_apply self method path args kwargs h = (h, Raise TypeError).
Proof.
  intros Hbad. unfold Connection_request_apply.
  destruct Hbad as [Hlen | (k & Hk & Hout)].
  - rewrite bool_decide_eq_false_2 by lia. done.
  - rewrite (bool_decide_eq_false_2 (dom kwargs ⊆ _)); [by rewrite andb_false_r|].
    intros Hsub. apply Hout. apply elem_of_dom in Hk. apply Hsub in Hk.
    apply elem_of_list_to_set in Hk. eapply subseteq_drop, Hk.
Qed.

Lemma resolve_path_set e args kwargs :
  path_is_set (Executable_path e) = true →
  ∃ p, Executable_path e = Some p ∧ p ≠ []
       ∧ resolve_path e args kwargs = (VStr p, args, kwargs).
Proof.
  unfold resolve_path. destruct (Executable_path e) as [[|c p]|]; try done.
  intros _. by exists (c :: p).
Qed.

Lemma resolve_path_rest e args kwargs k :
  is_Some (kwargs !! k) → k ≠ "path" →
  is_Some ((resolve_path e args kwargs).2 !! k).
Proof.
  intros Hk Hne. unfold resolve_path.
  repeat case_match; simpl; try done. by rewrite lookup_delete_ne.
Qed.

Lemma resolve_path_args e args kwargs :
  (length args ≤ S (length (resolve_path e args kwargs).1.2))%nat.
Proof. unfold resolve_path. repeat case_match; simpl; lia. Qed.

Lemma join_split (s : str) : join "/" (split "/" s) = s.
Proof.
  induction s as [|x s IH]; [done|]. simpl.
  pose proof (split_nonempty "/" s) as Hne.
  destruct (split "/" s) as [|first rest]; [done|].
  case_decide as Hx.
  - subst x. change (join "/" ([] :: first :: rest)) with ("/" ++ join "/" (first :: rest)).
    by rewrite IH.
  - destruct rest as [|second rest].
    + simpl in *. by subst.
    + change (join "/" ((x :: first) :: second :: rest))
        with (x :: (first ++ "/" ++ join "/" (second :: rest))).
      by rewrite <- IH.
Qed.

Lemma join_app (a b : list str) :
  a ≠ [] → b ≠ [] → join "/" (a ++ b) = join "/" a ++ "/" ++ join "/" b.
Proof.
  intros Ha Hb. induction a as [|x a IH]; [done|].
  destruct a as [|y a].
  - destruct b as [|z b]; [done|]. done.
  - change (join "/" ((x :: y :: a) ++ b)) with (x ++ "/" ++ join "/" ((y :: a) ++ b)).
    rewrite IH by done.
    change (join "/" (x :: y :: a)) with (x ++ "/" ++ join "/" (y :: a)).
    by rewrite <- !app_assoc.
Qed.

Lemma segments_nil_inv args : segments args = [] → args = [].
Proof.
  destruct args as [|a args]; [done|]. intros H.
  by destruct (segments_nonempty (a :: args)).
Qed.

(** Cutting the arguments at their slashes and putting a slash between
    the pieces gives the arguments with a slash between them. *)
Lemma join_segments args :
  join "/" (segments args) = join "/" (map CallableArg_str args).
Proof.
  induction args as [|a args IH]; [done|].
  change (segments (a :: args)) with (split "/" (CallableArg_str a) ++ segments args).
  destruct args as [|b args].
  - change (segments []) with (@nil str). rewrite app_nil_r. apply join_split.
  - rewrite join_app;
      [| apply split_nonempty | by apply segments_nonempty].
    rewrite IH, join_split. done.
Qed.
End more_executables.

(** X9.  An executable refuses, before anything is done and with the
    heap as it was, a call that [request] cannot take: a [path] keyword
    when the executable has a path of its own, a keyword that is none of
    [path], [data], [data_mode], [headers] and [path_suffix] ([method]
    for one), and more than five positional arguments. *)
Theorem Executable_call_refused (h : heap) (self : loc) (e : Executable)
    (args : list PyVal) (kwargs : gmap str PyVal) :
  h !! self = Some (OExecutable e) →
  (path_is_set (Executable_path e) = true ∧ is_Some (kwargs !! ("path" : str)))
  ∨ (∃ k, is_Some (kwargs !! k) ∧ k ∉ ("path" : str) :: request_optional)
  ∨ (5 < length args)%nat →
  Executable___call__ self args kwargs h = (h, Raise TypeError).
Proof.
  intros Hself Hbad. rewrite (Executable_call_run _ _ _ _ _ Hself).
  apply Connection_request_apply_refused.
  destruct Hbad as [[Hset Hpath] | [(k & Hk & Hout) | Hlen]].
  - destruct (resolve_path_set e args kwargs Hset) as (p & _ & _ & ->).
    right. exists ("path" : str). split; [done|]. simpl. set_solver.
  - right. exists k. apply not_elem_of_cons in Hout as [Hne Hout].
    split; [by apply resolve_path_rest | done].
  - left. pose proof (resolve_path_args e args kwargs). simpl. lia.
Qed.

Lemma Executable_call_refused_witness :
  Executable___call__ 2%positive [] {[ ("method" : str) := VStr "post" ]} executable_heap
  = (executable_heap, Raise TypeError).
Proof.
  apply (Executable_call_refused executable_heap 2%positive plain_get).
  - reflexivity.
  - right. left. exists ("method" : str). split.
    + rewrite lookup_singleton_eq. by eexists.
    + simpl. set_solver.
Defined.

(** X10.  A path may be given when the executable is made or when it is
    called, first or by keyword: for a path that is not empty the three
    calls are the same call. *)
Theorem Executable_path_sooner_or_later (h : heap) (made_with made_without : loc)
    (connection : loc) (method path : str) (args : list PyVal) (kwargs : gmap str PyVal) :
  h !! made_with = Some (OExecutable (mkExecutable connection method (Some path))) →
  h !! made_without = Some (OExecutable (mkExecutable connection method None)) →
  path ≠ [] →
  kwargs !! ("path" : str) = None →
  Executable___call__ made_without (VStr path :: args) kwargs h
  = Executable___call__ made_with args kwargs h
  ∧ Executable___call__ made_without args (<[("path" : str) := VStr path]> kwargs) h
    = Executable___call__ made_with args kwargs h.
Proof.
  intros Hwith Hwithout Hpath Hkw.
  rewrite !(Executable_call_run _ _ _ _ _ Hwith), !(Executable_call_run _ _ _ _ _ Hwithout).
  unfold resolve_path. cbn [Executable_path path_is_set Executable_connection
                            Executable_method].
  destruct path as [|c p]; [done|]. cbn [default fst snd].
  rewrite Hkw, lookup_insert_eq. cbn [fst snd].
  rewrite delete_insert_id by done. done.
Qed.

Lemma Executable_path_sooner_or_later_witness :
  let h : heap :=
    <[4%positive := OExecutable (mkExecutable 1%positive "GET" (Some "/foo"))]>
      executable_heap in
  Executable___call__ 2%positive [VStr "/foo"] ∅ h = Executable___call__ 4%positive [] ∅ h
  ∧ Executable___call__ 2%positive [] (<[("path" : str) := VStr "/foo"]> ∅) h
    = Executable___call__ 4%positive [] ∅ h.
Proof.
  intros h.
  apply (Executable_path_sooner_or_later h 4%positive 2%positive 1%positive "GET" "/foo").
  - reflexivity.
  - reflexivity.
  - discriminate.
  - reflexivity.
Defined.

(** X11.  What an executable prints is what it asks for.  For an
    executable whose path is absent, empty or starts with a slash (as
    every executable made by dispatch has it) the text is
    [Executable (METHOD path)] with the very path that a call without
    arguments sends after the root. *)
Theorem Executable_str_shows_request (h : heap) (self : loc) (e : Executable)
    (c : Connection) :
  h !! self = Some (OExecutable e) →
  h !! Executable_connection e = Some (OConnection c) →
  (∀ p, Executable_path e = Some p → p = [] ∨ ∃ t, p = "/" ++ t) →
  let sent := sent_path c (default [] (Executable_path e)) VNotProvided in
  Executable___str__ self h
  = (h, Return ("Executable (" ++ Executable_method e ++ " " ++ sent ++ ")"))
  ∧ ∃ call, (Executable___call__ self [] ∅ h).2 = Return call
            ∧ call_url call = Connection_root c ++ sent.
Proof.
  intros Hself Hconn Hpath sent.
  assert (sent = with_suffix (PATH_SUFFIX (Connection_cls c))
                   (match Executable_path e with
                    | Some p => PyStr.or_else p "/"
                    | None => "/"
                    end)) as Hsent.
  { subst sent. unfold sent_path. cbn [effective_suffix]. f_equal.
    destruct (Executable_path e) as [p|]; [|done].
    destruct (Hpath p eq_refl) as [-> | [t ->]]; done. }
  split.
  - unfold Executable___str__.
    unfold mbind, mret, Py_bind, Py_ret, load_executable, load_connection.
    rewrite Hself, Hconn. do 2 f_equal. rewrite Hsent.
    unfold with_suffix. do 3 f_equal.
    set (shown := match Executable_path e with Some _ => _ | None => _ end).
    case_decide as Hs.
    + by rewrite Hs, endswith_nil.
    + destruct (PyStr.endswith _ _); [done|]. by rewrite <- app_assoc.
  - rewrite (Executable_call_run _ _ _ _ _ Hself).
    assert (∃ v, resolve_path e [] ∅ = (v, [], ∅)
                 ∧ or_slash v = VStr (match Executable_path e with
                                      | Some p => PyStr.or_else p "/"
                                      | None => "/"
                                      end)) as (v & -> & Hv).
    { unfold resolve_path, or_slash. rewrite lookup_empty.
      destruct (Executable_path e) as [[|x p]|]; by eexists. }
    cbn [fst snd]. rewrite Hv.
    rewrite Connection_request_apply_keywords by set_solver.
    rewrite !lookup_empty. cbn [default].
    rewrite (Connection_request_run _ _ _ _ _ _ _ _ _ Hconn). cbn [snd request_body].
    eexists. split; [reflexivity|]. cbn [call_url]. f_equal.
    rewrite Hsent. unfold sent_path. cbn [effective_suffix]. f_equal.
    destruct (Executable_path e) as [p|]; [|done].
    destruct (Hpath p eq_refl) as [-> | [t ->]]; done.
Qed.

Lemma Executable_str_shows_request_witness :
  Executable___str__ 2%positive executable_heap
  = (executable_heap, Return "Executable (GET /)")
  ∧ ∃ call, (Executable___call__ 2%positive [] ∅ executable_heap).2 = Return call
            ∧ call_url call = "http://localhost/".
Proof.
  apply (Executable_str_shows_request executable_heap 2%positive plain_get local_connection).
  - reflexivity.
  - reflexivity.
  - intros p Hp. discriminate Hp.
Defined.

(** X12.  What an accumulator prints is its path followed by the suffix
    of its connection, without a look at how the path ends.  The text in
    the parentheses is the path a request through the accumulator sends
    exactly when the suffix is empty or does not already end the path:
    for [connection()], whose path is the lone slash, and for a path
    that ends with a slash, the text shows the slash twice where the
    request sends it once. *)
Theorem Callable_str_and_request (h : heap) (self : loc) (a : Callable) (c : Connection) :
  h !! self = Some (OCallable a) →
  h !! Callable_connection a = Some (OConnection c) →
  let suffix := PATH_SUFFIX (Connection_cls c) in
  Callable___str__ self h
  = (h, Return ("Callable (" ++ Callable_path a ++ suffix ++ ")"))
  ∧ (Callable_path a ++ suffix = sent_path c (Callable_path a) VNotProvided
     ↔ suffix = [] ∨ PyStr.endswith suffix (Callable_path a) = false).
Proof.
  intros Hself Hconn suffix. split.
  - unfold Callable___str__.
    unfold mbind, mret, Py_bind, Py_ret, load_callable, load_connection.
    by rewrite Hself, Hconn.
  - unfold sent_path. cbn [effective_suffix]. fold suffix.
    change (leading_slash (Callable_path a)) with (Callable_path a).
    unfold with_suffix. case_decide as Hs.
    + rewrite Hs, app_nil_r. by split; [left|].
    + destruct (PyStr.endswith suffix (Callable_path a)) eqn:He.
      * split; [|by intros [?|?]]. intros Heq.
        apply (f_equal length) in Heq. rewrite length_app in Heq.
        destruct suffix; [done | simpl in Heq; lia].
      * split; [by right | done].
Qed.

Lemma Callable_str_and_request_witness :
  let h : heap := <[2%positive := OCallable (mkCallable 1%positive [])]> httpbin_heap in
  Callable___str__ 2%positive h = (h, Return "Callable (//)")
  ∧ "//" ≠ sent_path httpbin "/" VNotProvided.
Proof.
  intros h.
  destruct (Callable_str_and_request h 2%positive (mkCallable 1%positive []) httpbin
              eq_refl eq_refl) as [Hstr Hsent].
  split; [exact Hstr|]. intros Heq. apply Hsent in Heq as [Heq | Heq]; discriminate Heq.
Defined.

(** X13.  The path of an accumulator is its arguments with a slash
    before each: splitting them at their slashes changes the segments,
    not the path.  [connection(a1, ..., an)] has the path
    ['/' + '/'.join(str(ai))], and calling an accumulator with arguments
    puts them, joined, after the segments it has. *)
Theorem Callable_path_of_arguments :
  (∀ (h : heap) connection args,
     ∃ l a, Connection___call__ connection args h = (<[l := OCallable a]> h, Return l)
            ∧ h !! l = None
            ∧ Callable_path a = "/" ++ PyStr.join "/" (map CallableArg_str args))
  ∧ (∀ (h : heap) self c args,
       h !! self = Some (OCallable c) → args ≠ [] →
       ∃ l a, Callable___call__ self args h = (<[l := OCallable a]> h, Return l)
              ∧ h !! l = None
              ∧ Callable_path a
                = "/" ++ PyStr.join "/" (Callable_parts c ++ map CallableArg_str args)).
Proof.
  split.
  - intros h connection args.
    exists (fresh (dom h)), (Callable___init__ connection args).
    split_and!; [done | apply fresh_lookup |].
    unfold Callable_path. f_equal. apply join_segments.
  - intros h self c args Hself Hargs.
    exists (fresh (dom h)),
      (Callable___init__ (Callable_connection c) (map ArgStr (Callable_parts c) ++ args)).
    split_and!; [| apply fresh_lookup |].
    + destruct args as [|a args]; [done|].
      unfold Callable___call__, new_Callable.
      unfold mbind, Py_bind, load_callable. by rewrite Hself.
    + unfold Callable_path. f_equal.
      change (Callable_parts (Callable___init__ (Callable_connection c)
                                (map ArgStr (Callable_parts c) ++ args)))
        with (segments (map ArgStr (Callable_parts c) ++ args)).
      rewrite join_segments, map_app, map_map. simpl. by rewrite map_id.
Qed.

Lemma Callable_path_of_arguments_witness :
  ∃ l a,
    Callable___call__ 2%positive [ArgStr "a/b"; ArgInt 3] accumulator_heap
    = (<[l := OCallable a]> accumulator_heap, Return l)
    ∧ accumulator_heap !! l = None
    ∧ Callable_path a = "/foo/bar/a/b/3".
Proof.
  destruct Callable_path_of_arguments as [_ Hcall].
  apply (Hcall accumulator_heap 2%positive foo_bar [ArgStr "a/b"; ArgInt 3]).
  - reflexivity.
  - discriminate.
Defined.

Section end_to_end.
Import PyStr.


End end_to_end.



(** * Client classes *)
Section client_classes.
Import PyStr abc.

Lemma find_method_spec method C : find_method method C = true ↔ has_method C method.
Proof.
  induction C as [|B C IH]; simpl.
  - split; [done|]. intros (before & B & after & Heq & _). by destruct before.
  - destruct (B !! method) as [[]|] eqn:HB.
    + split; [done|]. intros (before & B' & after & Heq & Hb & HB').
      destruct before as [|B0 before]; simplify_eq/=.
      apply Forall_cons in Hb as [Hb _]. congruence.
    + split; [|done]. intros _. exists [], B, C. by split_and!.
    + rewrite IH. split.
      * intros (before & B' & after & -> & Hb & HB').
        exists (B :: before), B', after. split_and!; [done | by constructor | done].
      * intros (before & B' & after & Heq & Hb & HB').
        destruct before as [|B0 before]; simplify_eq/=.
        apply Forall_cons in Hb as [_ Hb]. by exists before, B', after.
Qed.

Lemma _check_methods_spec C methods :
  _check_methods C methods = CheckedTrue
  ↔ Forall (λ m, find_method m C = true) methods.
Proof.
  induction methods as [|m methods IH]; simpl.
  - split; [by constructor | done].
  - destruct (find_method m C) eqn:Hm.
    + rewrite IH. split; [by constructor | by intros [_ ?]%Forall_cons].
    + split; [done | intros [? _]%Forall_cons; congruence].
Qed.

Lemma HTTP_METHODS_elem m :
  m ∈ HTTP_METHODS
  ↔ m ∈ ([ "PUT"; "POST"; "GET"; "OPTIONS"; "PATCH"; "DELETE"; "HEAD" ] : list str).
Proof.
  split.
  - revert m. by apply HTTP_METHODS_cases, Forall_forall.
  - intros Hm. apply (bool_decide_eq_true_1 (m ∈ HTTP_METHODS)).
    rewrite !elem_of_cons in Hm.
    destruct_or!; [subst m; by vm_compute .. | by apply elem_of_nil in Hm].
Qed.

(** The hook accepts a class when it has each method of [HTTP_METHODS],
    in lower case, in whatever order the set is gone through. *)
Lemma subclasshook_methods C :
  ConnectionClient___subclasshook__ C = true
  ↔ ∀ m, m ∈ HTTP_METHODS → has_method C (lower m).
Proof.
  unfold ConnectionClient___subclasshook__.
  assert (_check_methods C (lower <$> elements HTTP_METHODS) = CheckedTrue
          ↔ ∀ m, m ∈ HTTP_METHODS → has_method C (lower m)) as <-.
  { rewrite _check_methods_spec, Forall_fmap, Forall_forall.
    split.
    - intros H m Hm. apply find_method_spec, (H m). by apply elem_of_elements.
    - intros H m Hm. apply find_method_spec, H. by apply elem_of_elements in Hm. }
  by destruct (_check_methods _ _).
Qed.

Lemma Connection_request_method h self method path data data_mode headers path_suffix call :
  (Connection_request self method path data data_mode headers path_suffix h).2 = Return call →
  call_method call = lower method.
Proof.
  destruct (h !! self) as [[| c | |]|] eqn:Hself.
  2:{ destruct (is_str path) eqn:Hpath.
      - destruct path; try done.
        rewrite (Connection_request_run _ _ _ _ _ _ _ _ _ Hself). cbn [snd].
        destruct (request_body data data_mode); [|done]. by intros [= <-].
      - by rewrite (Connection_request_not_str _ _ _ _ _ _ _ _ _ Hself Hpath). }
  all: rewrite Connection_request_no_connection; [done | congruence].
Qed.

Lemma executable_heap_ok : heap_ok executable_heap.
Proof.
  intros l o Hl. unfold executable_heap in Hl.
  apply lookup_insert_Some in Hl as [[<- <-] | [_ Hl]].
  { simpl. split.
    - split_and!; [left; by exists "localhost" | absent_char | absent_char].
    - intros client [= <-]. by exists "TestClient". }
  apply lookup_insert_Some in Hl as [[<- <-] | [_ Hl]].
  { simpl. split_and!; [by eexists | | done].
    apply (bool_decide_eq_true_1 ("GET" ∈ HTTP_METHODS)). by vm_compute. }
  apply lookup_singleton_Some in Hl as [<- <-]. done.
Qed.
End client_classes.

(** X15.  [ConnectionClient.__subclasshook__] accepts a class exactly
    when the class has each of [get], [head], [post], [put], [delete],
    [patch] and [options]: for each name the first class of the
    [__mro__] that binds it binds it to something other than [None].  A
    class with a [get] alone is refused; a method may be inherited, and a
    class that sets a method to [None] hides the one of its parents. *)
Theorem subclasshook_accepts :
  (∀ C, ConnectionClient___subclasshook__ C = true
        ↔ Forall (has_method C)
            [ "get"; "head"; "post"; "put"; "delete"; "patch"; "options" ])
  ∧ ConnectionClient___subclasshook__ WrongClient = false
  ∧ ConnectionClient___subclasshook__ GoodClient = true
  ∧ (∀ C method,
       ConnectionClient___subclasshook__ C = true →
       method ∈ ([ "get"; "head"; "post"; "put"; "delete"; "patch"; "options" ] : list str) →
       ConnectionClient___subclasshook__ ({[ method := BoundNone ]} :: C) = false).
Proof.
  assert (∀ C, ConnectionClient___subclasshook__ C = true
               ↔ Forall (has_method C)
                   [ "get"; "head"; "post"; "put"; "delete"; "patch"; "options" ]) as Hspec.
  { intros C. rewrite subclasshook_methods. split.
    - intros H. repeat constructor.
      all: match goal with
           | |- has_method _ ?m => apply (H (PyStr.upper m)), HTTP_METHODS_elem
           end; set_solver.
    - intros H m Hm%HTTP_METHODS_elem. rewrite Forall_forall in H. apply H.
      rewrite !elem_of_cons in Hm. destruct_or!; [subst m; set_solver .. |].
      by apply elem_of_nil in Hm. }
  split_and!; [exact Hspec | by vm_compute | by vm_compute |].
  intros C method HC Hm.
  destruct (ConnectionClient___subclasshook__ ({[ method := BoundNone ]} :: C)) eqn:Hhook;
    [|done].
  apply Hspec in Hhook. rewrite Forall_forall in Hhook.
  apply Hhook, find_method_spec in Hm. simpl in Hm.
  by rewrite lookup_singleton_eq in Hm.
Qed.

Lemma subclasshook_accepts_witness :
  Forall (has_method GoodClient)
    [ "get"; "head"; "post"; "put"; "delete"; "patch"; "options" ]
  ∧ ConnectionClient___subclasshook__ ({[ ("post" : str) := BoundNone ]} :: GoodClient) = false.
Proof.
  destruct subclasshook_accepts as (Hspec & _ & Hgood & Hhide).
  split.
  - exact (proj1 (Hspec GoodClient) Hgood).
  - apply (Hhide GoodClient "post" Hgood). rewrite !elem_of_cons. auto.
Defined.

(** X16.  The check fits the use.  Whatever executable the dispatch has
    made, the method that a call of it asks of the client is one that
    every class accepted by [ConnectionClient.__subclasshook__] has. *)
Theorem dispatch_asks_checked_method (h : heap) (self : loc) (e : Executable)
    (args : list PyVal) (kwargs : gmap str PyVal) (call : ClientCall) (C : PyClass) :
  heap_ok h →
  h !! self = Some (OExecutable e) →
  (Executable___call__ self args kwargs h).2 = Return call →
  ConnectionClient___subclasshook__ C = true →
  has_method C (call_method call).
Proof.
  intros Hh Hself Hcall HC.
  destruct (Hh _ _ Hself) as (_ & Hm & _).
  rewrite (Executable_call_run _ _ _ _ _ Hself) in Hcall.
  unfold Connection_request_apply in Hcall.
  destruct (_ && _); [|discriminate Hcall].
  apply Connection_request_method in Hcall. rewrite Hcall.
  apply (proj1 (subclasshook_methods C) HC). exact Hm.
Qed.

Lemma dispatch_asks_checked_method_witness : has_method GoodClient "get".
Proof.
  apply (dispatch_asks_checked_method executable_heap 2%positive plain_get
           [VStr "/foo"] ∅
           (mkClientCall 3%positive "get" "http://localhost/foo/" ∅) GoodClient).
  - exact executable_heap_ok.
  - reflexivity.
  - reflexivity.
  - by vm_compute.
Defined.

(** * Dictionaries that behave like objects *)
Section dictionaries.
Import utils.

Lemma Data_induction (P : Data → Prop) :
  P DNone → (∀ b, P (DBool b)) → (∀ n, P (DInt n)) → (∀ s, P (DStr s)) →
  (∀ l, Forall P l → P (DList l)) →
  (∀ k d, Forall (λ kv, P kv.2) d → P (DDict k d)) →
  ∀ v, P v.
Proof.
  intros HNone HBool HInt HStr HList HDict.
  fix IH 1. intros [ | b | n | s | l | k d].
  - apply HNone.
  - apply HBool.
  - apply HInt.
  - apply HStr.
  - apply HList. induction l as [|x l IHl]; constructor; [apply IH | apply IHl].
  - apply HDict. induction d as [|[key v] d IHd]; constructor; [apply IH | apply IHd].
Qed.

(** ** Items *)

Lemma dict_get_set_eq key value d : dict_get key (dict_set key value d) = Some value.
Proof.
  induction d as [|[k v] d IH]; simpl.
  - by rewrite decide_True.
  - case_decide as Hk; simpl.
    + by rewrite decide_True.
    + by rewrite decide_False.
Qed.

Lemma dict_get_set_ne key key' value d :
  key ≠ key' → dict_get key' (dict_set key value d) = dict_get key' d.
Proof.
  intros Hne. induction d as [|[k v] d IH]; simpl.
  - by rewrite decide_False.
  - case_decide as Hk; simpl.
    + subst k. by rewrite !decide_False.
    + case_decide; [done | apply IH].
Qed.

Lemma dict_get_None key d : dict_get key d = None ↔ key ∉ d.*1.
Proof.
  induction d as [|[k v] d IH]; simpl.
  - split; [intros _; apply not_elem_of_nil | done].
  - case_decide as Hk.
    + subst. split; [done | intros []; left].
    + rewrite IH, not_elem_of_cons. naive_solver.
Qed.

Lemma dict_get_elem key value d :
  NoDup d.*1 → (key, value) ∈ d → dict_get key d = Some value.
Proof.
  induction d as [|[k v] d IH]; simpl; intros Hnd Hin.
  - by apply elem_of_nil in Hin.
  - apply NoDup_cons in Hnd as [Hk Hnd].
    apply elem_of_cons in Hin as [[= -> ->] | Hin].
    + by rewrite decide_True.
    + rewrite decide_False; [by apply IH|].
      intros ->. apply Hk. apply list_elem_of_fmap. by exists (key, value).
Qed.

Lemma dict_get_Some_elem key value d :
  dict_get key d = Some value → (key, value) ∈ d.
Proof.
  induction d as [|[k v] d IH]; simpl; [done|].
  case_decide as Hk.
  - intros [= <-]. subst. left.
  - intros H. right. by apply IH.
Qed.

Lemma dict_set_new key value d :
  key ∉ d.*1 → dict_set key value d = d ++ [(key, value)].
Proof.
  induction d as [|[k v] d IH]; simpl; [done|].
  intros [Hk Hd]%not_elem_of_cons.
  rewrite decide_False by done. by rewrite IH.
Qed.

Lemma dict_set_same key value d :
  dict_get key d = Some value → dict_set key value d = d.
Proof.
  induction d as [|[k v] d IH]; simpl; [done|].
  case_decide as Hk; [by intros [= ->] | intros H; by rewrite IH].
Qed.

Lemma dict_set_keys key value d :
  (dict_set key value d).*1 = if decide (key ∈ d.*1) then d.*1 else d.*1 ++ [key].
Proof.
  induction d as [|[k v] d IH].
  - done.
  - cbn [dict_set]. destruct (decide (k = key)) as [-> | Hk];
      cbn [fmap list_fmap fst].
    + rewrite decide_True; [done | left].
    + rewrite IH. destruct (decide (key ∈ d.*1)) as [Hin | Hout].
      * rewrite decide_True; [done | by right].
      * rewrite decide_False; [done|]. rewrite not_elem_of_cons. auto.
Qed.

Lemma dict_set_NoDup key value d : NoDup d.*1 → NoDup (dict_set key value d).*1.
Proof.
  intros Hnd. rewrite dict_set_keys. case_decide as Hk; [done|].
  apply NoDup_app. split_and!; [done | | apply NoDup_singleton].
  intros x Hx ->%list_elem_of_singleton. done.
Qed.

Lemma dict_update_new d pairs :
  NoDup (d.*1 ++ pairs.*1) → dict_update d pairs = d ++ pairs.
Proof.
  unfold dict_update. revert d.
  induction pairs as [|[k v] pairs IH]; intros d Hnd; simpl.
  - by rewrite app_nil_r.
  - rewrite dict_set_new.
    + rewrite IH; [by rewrite <- app_assoc|].
      rewrite fmap_app. simpl. by rewrite <- app_assoc.
    + apply NoDup_app in Hnd as (_ & Hdis & _). intros Hin.
      apply (Hdis k Hin). left.
Qed.

Lemma dict_of_pairs_NoDup pairs : NoDup pairs.*1 → dict_of_pairs pairs = pairs.
Proof. intros Hnd. unfold dict_of_pairs. by rewrite dict_update_new. Qed.

Lemma dict_update_same d pairs :
  Forall (λ kv, dict_get kv.1 d = Some kv.2) pairs → dict_update d pairs = d.
Proof.
  unfold dict_update. induction 1 as [|[k v] pairs Hkv _ IH]; simpl; [done|].
  by rewrite dict_set_same.
Qed.

Lemma dict_get_map (f : Data → Data) key d :
  dict_get key (map (λ kv, (kv.1, f kv.2)) d) = f <$> dict_get key d.
Proof.
  induction d as [|[k v] d IH]; simpl; [done|]. by case_decide.
Qed.

Lemma map_keys (f : Data → Data) (d : list (str * Data)) :
  (map (λ kv, (kv.1, f kv.2)) d).*1 = d.*1.
Proof. induction d as [|[k v] d IH]; [done|]. simpl. f_equal. exact IH. Qed.

(** ** Conversion *)

Lemma Data_wf_dict k d :
  Data_wf (DDict k d) = true ↔ NoDup d.*1 ∧ Forall (λ kv, Data_wf kv.2 = true) d.
Proof.
  simpl. rewrite andb_true_iff, bool_decide_eq_true, forallb_forall, Forall_forall.
  split; intros [? H]; (split; [done|]); intros x Hx; apply H;
    by apply list_elem_of_In.
Qed.

Lemma Data_wf_list l : Data_wf (DList l) = true ↔ Forall (λ v, Data_wf v = true) l.
Proof.
  simpl. rewrite forallb_forall, Forall_forall.
  split; intros H x Hx; apply H; by apply list_elem_of_In.
Qed.

Lemma from_dict_if_mapping_dict k d :
  NoDup d.*1 →
  from_dict_if_mapping (DDict k d)
  = DDict true (map (λ kv, (kv.1, from_dict_if_mapping kv.2)) d).
Proof.
  intros Hnd. simpl. rewrite dict_of_pairs_NoDup; [done|]. by rewrite map_keys.
Qed.

Lemma from_dict_if_mapping_wf v :
  Data_wf v = true → Data_wf (from_dict_if_mapping v) = true.
Proof.
  induction v as [ | | | | l IH | k d IH] using Data_induction; try done.
  intros [Hnd Hd]%Data_wf_dict. rewrite from_dict_if_mapping_dict by done.
  apply Data_wf_dict. rewrite map_keys. split; [done|].
  apply Forall_map. simpl.
  rewrite Forall_forall in IH, Hd. apply Forall_forall. intros kv Hkv. auto.
Qed.

Lemma from_dict_if_mapping_idemp v :
  Data_wf v = true →
  from_dict_if_mapping (from_dict_if_mapping v) = from_dict_if_mapping v.
Proof.
  induction v as [ | | | | l IH | k d IH] using Data_induction; try done.
  intros [Hnd Hd]%Data_wf_dict.
  rewrite from_dict_if_mapping_dict by done.
  rewrite from_dict_if_mapping_dict by (by rewrite map_keys).
  f_equal. rewrite map_map. simpl. apply map_ext_Forall.
  rewrite Forall_forall in IH, Hd. apply Forall_forall. intros kv Hkv.
  f_equal. auto.
Qed.

(** ** Equality *)

Lemma eq_list_refl l :
  Forall (λ v, eq v v = true) l →
  (fix each (l m : list Data) : bool :=
     match l, m with
     | [], [] => true
     | x :: l, y :: m => eq x y && each l m
     | _, _ => false
     end) l l = true.
Proof. induction 1 as [|x l Hx _ IH]; [done|]. by rewrite Hx, IH. Qed.

Lemma eq_dict k k' d e :
  eq (DDict k d) (DDict k' e)
  = bool_decide (length d = length e)
    && forallb (λ kv, match dict_get kv.1 e with
                      | Some w => eq kv.2 w
                      | None => false
                      end) d.
Proof. done. Qed.

Lemma eq_refl_wf v : Data_wf v = true → eq v v = true.
Proof.
  induction v as [ | b | n | s | l IH | k d IH] using Data_induction; try done.
  - intros _. simpl. by apply bool_decide_eq_true.
  - intros _. simpl. by apply Z.eqb_eq.
  - intros _. simpl. by apply bool_decide_eq_true.
  - intros Hl%Data_wf_list. apply eq_list_refl.
    rewrite Forall_forall in IH, Hl. apply Forall_forall. auto.
  - intros [Hnd Hd]%Data_wf_dict. rewrite eq_dict.
    rewrite bool_decide_eq_true_2 by done. simpl.
    apply forallb_forall. intros [key v] Hin%list_elem_of_In.
    cbn [fst snd]. rewrite (dict_get_elem _ _ _ Hnd Hin).
    rewrite Forall_forall in IH, Hd. by apply (IH (key, v)), (Hd (key, v)).
Qed.

Lemma eq_from_dict v :
  Data_wf v = true →
  eq (from_dict_if_mapping v) v = true ∧ eq v (from_dict_if_mapping v) = true.
Proof.
  induction v as [ | b | n | s | l IH | k d IH] using Data_induction;
    try (intros Hwf; split; by apply eq_refl_wf).
  intros [Hnd Hd]%Data_wf_dict. rewrite from_dict_if_mapping_dict by done.
  rewrite !eq_dict, length_map.
  rewrite !bool_decide_eq_true_2 by done. simpl.
  rewrite Forall_forall in IH, Hd. split.
  - apply forallb_forall. intros [key v'] Hin%list_elem_of_In.
    apply list_elem_of_fmap in Hin as ([key0 v] & [= -> ->] & Hin). cbn [fst snd].
    rewrite (dict_get_elem _ _ _ Hnd Hin).
    by apply (IH (key0, v)), (Hd (key0, v)).
  - apply forallb_forall. intros [key v] Hin%list_elem_of_In. cbn [fst snd].
    rewrite dict_get_map, (dict_get_elem _ _ _ Hnd Hin). simpl.
    by apply (IH (key, v)), (Hd (key, v)).
Qed.

Lemma getattr_free self name :
  free_name name →
  getattr true self name
  = match dict_get name self with
    | Some v => Value (Entry v)
    | None => Failed (KeyError name)
    end.
Proof.
  intros Hfree. unfold getattr, DictObject___getattr__.
  rewrite bool_decide_eq_false_2 by done. by destruct (dict_get name self).
Qed.
End dictionaries.

(** X17.  On a [DictObject] an attribute is an item.  For a name that
    ordinary lookup does not find, reading the attribute gives the item
    of that key, and fails with [KeyError], not [AttributeError], when
    there is none; setting the attribute sets the item: it is read back,
    the other names read as before, no key comes twice and a new key
    goes to the end. *)
Theorem DictObject_attribute_is_item (self : list (str * utils.Data)) (name : str)
    (value : utils.Data) :
  free_name name →
  (∀ v, utils.getattr true self name = utils.Value (utils.Entry v)
        ↔ utils.dict_get name self = Some v)
  ∧ (utils.dict_get name self = None →
     utils.getattr true self name = utils.Failed (utils.KeyError name))
  ∧ utils.getattr true (utils.setattr self name value) name
    = utils.Value (utils.Entry value)
  ∧ (∀ other, other ≠ name →
       utils.getattr true (utils.setattr self name value) other
       = utils.getattr true self other)
  ∧ (NoDup self.*1 → NoDup (utils.setattr self name value).*1)
  ∧ (name ∉ self.*1 → utils.setattr self name value = self ++ [(name, value)]).
Proof.
  intros Hfree. split_and!.
  - intros v. rewrite getattr_free by done.
    destruct (utils.dict_get name self); split; congruence.
  - intros Hnone. rewrite getattr_free by done. by rewrite Hnone.
  - rewrite getattr_free by done. unfold utils.setattr, utils.DictObject___setattr__.
    by rewrite dict_get_set_eq.
  - intros other Hne. unfold utils.getattr, utils.setattr, utils.DictObject___setattr__,
      utils.DictObject___getattr__.
    case_bool_decide; [done|]. by rewrite dict_get_set_ne.
  - apply dict_set_NoDup.
  - apply dict_set_new.
Qed.

Lemma DictObject_attribute_is_item_witness :
  utils.getattr true (utils.setattr [("var" : str, utils.DInt 1)] "foo" (utils.DInt 3)) "foo"
  = utils.Value (utils.Entry (utils.DInt 3))
  ∧ utils.getattr true [("var" : str, utils.DInt 1)] "foo"
    = utils.Failed (utils.KeyError "foo").
Proof.
  assert (free_name "foo") as Hfree.
  { apply (bool_decide_eq_false_1
             ("foo" ∈ utils.DictObject_members ++ utils.dict_members ++ object_members)).
    by vm_compute. }
  destruct (DictObject_attribute_is_item [("var" : str, utils.DInt 1)] "foo"
              (utils.DInt 3) Hfree) as (_ & Hmissing & Hset & _).
  split; [exact Hset | apply Hmissing; reflexivity].
Defined.

(** X18.  A name that a [dict] already has is lost as an attribute.
    Setting an attribute called [keys], [items], [get], [update], [copy]
    or any other member stores the item, but reading the attribute gives
    the member, with or without the item: such an entry is reached by
    subscript only. *)
Theorem DictObject_member_shadows_entry (self : list (str * utils.Data)) (name : str)
    (value : utils.Data) :
  name ∈ utils.DictObject_members ++ utils.dict_members ++ object_members →
  utils.dict_get name (utils.setattr self name value) = Some value
  ∧ utils.getattr true (utils.setattr self name value) name
    = utils.Value (utils.Member name)
  ∧ utils.getattr true self name = utils.Value (utils.Member name).
Proof.
  intros Hmember. split_and!.
  - apply dict_get_set_eq.
  - unfold utils.getattr. by rewrite bool_decide_eq_true_2.
  - unfold utils.getattr. by rewrite bool_decide_eq_true_2.
Qed.

Lemma DictObject_member_shadows_entry_witness :
  utils.dict_get "keys" (utils.setattr [] "keys" (utils.DInt 1)) = Some (utils.DInt 1)
  ∧ utils.getattr true (utils.setattr [] "keys" (utils.DInt 1)) "keys"
    = utils.Value (utils.Member "keys")
  ∧ utils.getattr true [] "keys" = utils.Value (utils.Member "keys").
Proof.
  apply (DictObject_member_shadows_entry [] "keys" (utils.DInt 1)).
  apply (bool_decide_eq_true_1
           ("keys" ∈ utils.DictObject_members ++ utils.dict_members ++ object_members)).
  by vm_compute.
Defined.

(** X19.  [from_dict] changes classes, not contents.  For a dictionary
    of JSON-like values the result is a [DictObject] with the same keys
    in the same order, equal to the dictionary under [==] on either side;
    converting the result again changes nothing. *)
Theorem from_dict_keeps_contents (k : bool) (pairs : list (str * utils.Data)) :
  Data_wf (utils.DDict k pairs) = true →
  (∃ items, utils.DictObject_from_dict pairs = utils.DDict true items
            ∧ items.*1 = pairs.*1)
  ∧ utils.eq (utils.DictObject_from_dict pairs) (utils.DDict k pairs) = true
  ∧ utils.eq (utils.DDict k pairs) (utils.DictObject_from_dict pairs) = true
  ∧ utils.from_dict_if_mapping (utils.DictObject_from_dict pairs)
    = utils.DictObject_from_dict pairs.
Proof.
  intros Hwf. pose proof Hwf as [Hnd Hd]%Data_wf_dict.
  assert (utils.DictObject_from_dict pairs = utils.from_dict_if_mapping (utils.DDict k pairs))
    as -> by done.
  split_and!.
  - rewrite from_dict_if_mapping_dict by done. eexists. split; [done|]. apply map_keys.
  - by apply eq_from_dict.
  - by apply eq_from_dict.
  - by apply from_dict_if_mapping_idemp.
Qed.

Lemma from_dict_keeps_contents_witness :
  utils.eq
    (utils.DictObject_from_dict
       [("var" : str, utils.DInt 1);
        ("a_dict" : str, utils.DDict false [("foo" : str, utils.DBool true)])])
    (utils.DDict false
       [("var" : str, utils.DInt 1);
        ("a_dict" : str, utils.DDict false [("foo" : str, utils.DBool true)])])
  = true.
Proof.
  apply (from_dict_keeps_contents false
           [("var" : str, utils.DInt 1);
            ("a_dict" : str, utils.DDict false [("foo" : str, utils.DBool true)])]).
  by vm_compute.
Defined.

(** X20.  [from_dict] converts all the way down: what subscripts reach
    in the dictionary, attributes reach in the result.  If
    [d[k1]...[kn]] is the value [w], for names that ordinary lookup does
    not find, then [DictObject.from_dict(d).k1. ... .kn] is [w], itself
    converted when it is a dictionary; a list comes back as it is, the
    dictionaries in it still plain. *)
Theorem from_dict_attributes (k : bool) (pairs : list (str * utils.Data))
    (names : list str) (w : utils.Data) :
  Data_wf (utils.DDict k pairs) = true →
  Forall free_name names →
  subscripts (utils.DDict k pairs) names = Some w →
  attributes (utils.DictObject_from_dict pairs) names
  = Some (utils.from_dict_if_mapping w)
  ∧ (∀ l, w = utils.DList l → utils.from_dict_if_mapping w = utils.DList l).
Proof.
  intros Hwf Hnames Hsub. split; [|by intros l ->].
  assert (utils.DictObject_from_dict pairs = utils.from_dict_if_mapping (utils.DDict k pairs))
    as -> by done.
  revert Hwf Hsub. generalize (utils.DDict k pairs) as v.
  induction Hnames as [|name names Hname _ IH]; intros v Hwf Hsub.
  - simpl in *. by injection Hsub as ->.
  - simpl in Hsub. destruct v as [ | | | | |kind d]; try done.
    destruct (utils.dict_get name d) as [v1|] eqn:Hget; [|done].
    apply Data_wf_dict in Hwf as [Hnd Hd].
    rewrite from_dict_if_mapping_dict by done.
    cbn [attributes]. rewrite getattr_free by done.
    rewrite dict_get_map, Hget. simpl. apply IH; [|done].
    apply dict_get_Some_elem in Hget. rewrite Forall_forall in Hd.
    apply (Hd _ Hget).
Qed.

Lemma from_dict_attributes_witness :
  attributes
    (utils.DictObject_from_dict
       [("a_dict" : str,
         utils.DDict false
           [("dict2" : str, utils.DDict false [("bar" : str, utils.DInt 4)])])])
    ["a_dict"; "dict2"; "bar"]
  = Some (utils.DInt 4).
Proof.
  assert (Forall free_name ["a_dict"; "dict2"; "bar"]) as Hfree.
  { repeat constructor.
    all: match goal with
         | |- free_name ?n =>
             apply (bool_decide_eq_false_1
                      (n ∈ utils.DictObject_members ++ utils.dict_members ++ object_members))
         end; by vm_compute. }
  apply (from_dict_attributes false
           [("a_dict" : str,
             utils.DDict false
               [("dict2" : str, utils.DDict false [("bar" : str, utils.DInt 4)])])]
           ["a_dict"; "dict2"; "bar"] (utils.DInt 4)).
  - by vm_compute.
  - exact Hfree.
  - reflexivity.
Defined.

(** X21.  The state that [__getstate__] gives brings the object back.
    It is a plain [dict] with the items of the object; [__setstate__]
    with it on an empty [DictObject] gives the items in their order, and
    on the object itself, or on any object that already has these items,
    changes nothing. *)
Theorem DictObject_state_round_trip (self : list (str * utils.Data)) :
  NoDup self.*1 →
  utils.DictObject___getstate__ self = utils.DDict false self
  ∧ utils.DictObject___setstate__ [] self = self
  ∧ utils.DictObject___setstate__ self self = self
  ∧ (∀ other, NoDup (other.*1 ++ self.*1) →
       utils.DictObject___setstate__ other self = other ++ self).
Proof.
  intros Hnd. split_and!.
  - done.
  - by apply dict_of_pairs_NoDup.
  - apply dict_update_same, Forall_forall. intros [key v] Hin.
    by apply dict_get_elem.
  - intros other. apply dict_update_new.
Qed.

Lemma DictObject_state_round_trip_witness :
  utils.DictObject___setstate__ []
    [("a" : str, utils.DInt 1); ("b" : str, utils.DNone)]
  = [("a" : str, utils.DInt 1); ("b" : str, utils.DNone)].
Proof.
  assert (NoDup ([("a" : str, utils.DInt 1); ("b" : str, utils.DNone)].*1)) as Hnd.
  { apply (bool_decide_eq_true_1 (NoDup ([ "a"; "b" ] : list str))). by vm_compute. }
  destruct (DictObject_state_round_trip
              [("a" : str, utils.DInt 1); ("b" : str, utils.DNone)] Hnd)
    as (_ & Hempty & _).
  exact Hempty.
Defined.
